(** * DBSCANvas: dominant colours of an image by density clustering

    A shallow embedding of [src/DBSCANvas.py]: the cached function
    [run_dbscan] (clustering call, per-label aggregation, ranking) and the
    part of the page script that turns its result into colour cards
    (percentage filter, RGB and hex formatting, grid).

    Numbers.  Counts and labels are integers [Z], the noise label is [-1] as
    in the source.  The arrays hold float64 values.  A float64 is a rational,
    so pixels, centroids and percentages are values of [Q]; the pixels the
    page passes in are the float64 nearest to [k / 255] for a byte [k].  The
    steps that compute with floats are given twice, under the same names:

    - at top level without rounding, as the arithmetic the floats
      approximate; the properties stated there are those of orders, counts,
      ranges and the grid;
    - in [Module Float64] as the machine runs them, each operation followed
      by the rounding [Binary64.fl], together with the check the library
      makes of the array it is given; what is said about the values of a
      centroid, of a percentage or of the bytes of a colour is said
      there. *)

From Stdlib Require Import ZArith QArith Qround Qabs Qpower Lia Lqa.
From Stdlib Require Import String Ascii.
From Stdlib Require Import Sorted Permutation.
From Stdlib Require Import Hexadecimal HexadecimalString.
From stdpp Require Import base list gmap.

Local Open Scope Z_scope.

(** ** Data model *)

(** One row of the [n x 3] pixel array. *)
Definition point : Type := Q * Q * Q.

Definition chan_r (p : point) : Q := fst (fst p).
Definition chan_g (p : point) : Q := snd (fst p).
Definition chan_b (p : point) : Q := snd p.

(** The label DBSCAN gives to a point of no cluster. *)
Definition noise : Z := -1.

(** An element of [results]: the tuple [(count, avg_color)]. *)
Definition summary : Type := Z * point.

Definition s_count (s : summary) : Z := fst s.
Definition s_color (s : summary) : point := snd s.

(** What a call can raise: the configuration error of the specification,
    and the [ValueError] with which the library refuses an array. *)
Inductive error : Type :=
| ConfigurationError
| ValueError.

Definition result (A : Type) : Type := error + A.

Definition ok {A : Type} (a : A) : result A := inr a.
Definition raise {A : Type} (e : error) : result A := inl e.

(** ** The clustering step

    [DBSCAN(eps=eps, min_samples=min_samples).fit(pixels).labels_] is a call
    into scikit-learn; the repository holds only the call.  Every definition
    of this module is modelled from sections 4.1 and 4.2 of the
    specification. *)

Module Clusterer.

(** Modelled from the spec: the squared Euclidean distance of two points,
    for the radius query of section 4.1; the library's distance code is not
    in the repository. *)
Definition sqdist (p q : point) : Q :=
  ((chan_r p - chan_r q) * (chan_r p - chan_r q)
   + (chan_g p - chan_g q) * (chan_g p - chan_g q)
   + (chan_b p - chan_b q) * (chan_b p - chan_b q))%Q.

(** Modelled from the spec: the test of section 4.1, Euclidean distance at
    most [eps] with the boundary included; the library's test is not in the
    repository.  For [0 <= eps] the distance is at most [eps] iff its square
    is at most [eps * eps]; the square keeps the test inside the
    rationals. *)
Definition within (eps : Q) (p q : point) : bool :=
  Qle_bool (sqdist p q) (eps * eps).

(** Modelled from the spec: the radius query of section 4.1
    (NeighborIndex), which the library call performs and whose code is not
    in the repository.  It answers with the positions, in input order, of
    the points at distance at most [eps] of the query point. *)
Definition NeighborIndex (pts : list point) (eps : Q) (p : point) : list nat :=
  List.filter
    (fun j => match pts !! j with
              | Some q => within eps p q
              | None => false
              end)
    (seq 0 (length pts)).

(** Modelled from the spec: the state of one point during the clustering of
    section 4.2 (the library's state is not in the repository): not yet
    visited and unlabeled, marked noise (provisionally), or assigned to a
    cluster. *)
Inductive mark : Type :=
| Unlabeled
| Noise
| Cluster (c : Z).

(** Modelled from the spec: the label a point ends with (section 4.2, step
    4: a point never assigned a cluster id remains noise); the library's
    label array is not in the repository. *)
Definition label_of (m : mark) : Z :=
  match m with
  | Cluster c => c
  | _ => noise
  end.

Section Graph.

(** The neighbourhood of each position and the core test, fixed for a
    run. *)
Variable nbrs : nat -> list nat.
Variable core : nat -> bool.

(** Modelled from the spec: the expansion of section 4.2, step 3, which the
    library performs outside the repository.  The frontier is served first
    in, first out: a frontier point that is noise or unlabeled takes the
    label [c], and if it is a core point its neighbourhood joins the back of
    the frontier; a point that already has a cluster keeps it. *)
Fixpoint expand (fuel : nat) (c : Z) (frontier : list nat)
    (st : list mark) : list mark :=
  match fuel with
  | O => st
  | S fuel' =>
      match frontier with
      | [] => st
      | q :: rest =>
          match st !! q with
          | Some (Cluster _) | None => expand fuel' c rest st
          | Some _ =>
              let st' := <[q := Cluster c]> st in
              if core q then expand fuel' c (rest ++ nbrs q) st'
              else expand fuel' c rest st'
          end
      end
  end.

(** Modelled from the spec: section 4.2 lets the expansion run until the
    frontier is empty; this many steps always suffice over [n] points (see
    [expand_spec]). *)
Definition expand_fuel (n : nat) : nat := S (n * S n + n).

(** Modelled from the spec: the pass of section 4.2, step 3, over the
    points in input order (library code outside the repository).  A point
    counts as visited once it is marked noise or has a cluster; [c] is the
    next cluster id. *)
Fixpoint scan (todo : list nat) (c : Z) (st : list mark) : list mark :=
  match todo with
  | [] => st
  | p :: todo' =>
      match st !! p with
      | Some Unlabeled =>
          if core p then
            scan todo' (c + 1)
              (expand (expand_fuel (length st)) c (nbrs p)
                 (<[p := Cluster c]> st))
          else scan todo' c (<[p := Noise]> st)
      | _ => scan todo' c st
      end
  end.

End Graph.

(** Modelled from the spec: the neighbourhood of the point at position
    [i], by the radius query of section 4.1 (not in the repository). *)
Definition neighbourhoods (pts : list point) (eps : Q) (i : nat) : list nat :=
  match pts !! i with
  | Some p => NeighborIndex pts eps p
  | None => []
  end.

(** Modelled from the spec: the core test of section 4.2, step 1, made by
    the library outside the repository: a core point has at least
    [min_samples] points in its neighbourhood, itself included. *)
Definition is_core (pts : list point) (eps : Q) (min_samples : Z)
    (i : nat) : bool :=
  min_samples <=? Z.of_nat (length (neighbourhoods pts eps i)).

(** Modelled from the spec: the labelling of section 4.2 (DensityClusterer),
    standing for scikit-learn's DBSCAN, whose code is not in the
    repository.  One label per point, in input order. *)
Definition cluster (pts : list point) (eps : Q) (min_samples : Z) : list Z :=
  label_of <$>
    scan (neighbourhoods pts eps) (is_core pts eps min_samples)
      (seq 0 (length pts)) 0 (replicate (length pts) Unlabeled).

(** Modelled from the spec: the parameter check of section 4.2 (an [eps]
    at most zero or a [minSamples] below one is a configuration error), made
    by the library call, outside the repository, before it clusters. *)
Definition DBSCAN_fit (eps : Q) (min_samples : Z) (pixels : list point)
    : result (list Z) :=
  if Qle_bool eps 0 || (min_samples <? 1) then raise ConfigurationError
  else ok (cluster pixels eps min_samples).

End Clusterer.

(** ** [run_dbscan]: aggregation and ranking *)

(** A Python set of integer labels, kept as the sequence in which it is
    iterated.  CPython stores a small non-negative int in the slot of its
    own value, so the labels [0 .. k-1] of a clustering are iterated in
    ascending order. *)
Fixpoint set_add (k : Z) (s : list Z) : list Z :=
  match s with
  | [] => [k]
  | x :: s' =>
      if k <? x then k :: s
      else if k =? x then s
      else x :: set_add k s'
  end.

(** [set(labels)] *)
Definition py_set (labels : list Z) : list Z :=
  foldl (fun s k => set_add k s) [] labels.

(** [s - t] *)
Definition set_sub (s t : list Z) : list Z :=
  List.filter (fun k => negb (existsb (Z.eqb k) t)) s.

(** [unique_labels = set(labels) - {-1}] *)
Definition unique_labels (labels : list Z) : list Z :=
  set_sub (py_set labels) [noise].

(** [mask = (labels == k)] *)
Definition mask_of (labels : list Z) (k : Z) : list bool :=
  (fun l => l =? k) <$> labels.

(** [np.sum(mask)] *)
Definition np_sum (mask : list bool) : Z :=
  Z.of_nat (length (List.filter id mask)).

(** [pixels[mask]]: the rows whose mask entry is [True].  numpy refuses a
    mask of another length than the array; every mask here has the length
    of [labels], which is the number of pixels. *)
Fixpoint select (pixels : list point) (mask : list bool) : list point :=
  match pixels, mask with
  | p :: pixels', m :: mask' =>
      if m then p :: select pixels' mask' else select pixels' mask'
  | _, _ => []
  end.

Definition chan_sum (ch : point -> Q) (rows : list point) : Q :=
  foldr (fun p acc => (ch p + acc)%Q) 0%Q rows.

(** [rows.mean(axis=0)]: per channel, the sum over the rows divided by the
    number of rows.  It is only applied to the rows of a label that occurs,
    so there is at least one row. *)
Definition mean_axis0 (rows : list point) : point :=
  let n := inject_Z (Z.of_nat (length rows)) in
  ((chan_sum chan_r rows / n)%Q,
   (chan_sum chan_g rows / n)%Q,
   (chan_sum chan_b rows / n)%Q).

(** The body of the loop [for k in unique_labels]. *)
Definition summarize (pixels : list point) (labels : list Z) (k : Z)
    : summary :=
  let mask := mask_of labels k in
  let count := np_sum mask in
  let avg_color := mean_axis0 (select pixels mask) in
  (count, avg_color).

(** [results] when the loop ends. *)
Definition aggregate (pixels : list point) (labels : list Z) : list summary :=
  summarize pixels labels <$> unique_labels labels.

(** [sorted(results, key=lambda x: x[0], reverse=True)].  Python's sort is
    stable, also with [reverse=True]: entries with the same key stay in the
    order they had. *)
Fixpoint insert_desc (x : summary) (l : list summary) : list summary :=
  match l with
  | [] => [x]
  | y :: l' =>
      if s_count x <? s_count y then y :: insert_desc x l'
      else x :: l
  end.

Definition sorted_by_count_desc (results : list summary) : list summary :=
  foldr insert_desc [] results.

Definition run_dbscan (pixels : list point) (eps : Q) (min_samples : Z)
    : result (list summary) :=
  match Clusterer.DBSCAN_fit eps min_samples pixels with
  | inl e => raise e
  | inr labels => ok (sorted_by_count_desc (aggregate pixels labels))
  end.

(** ** The page script: percentage filter and colour formatting *)

(** [int(x)] on a float: truncation toward zero. *)
Definition py_int (x : Q) : Z := Z.quot (Qnum x) (Z.pos (Qden x)).

(** The digits of [format(n, 'x')] for [0 <= n]. *)
Definition hex_digits (n : Z) : string :=
  NilZero.string_of_uint (N.to_hex_uint (Z.to_N n)).

(** ['{:02x}'.format(n)]: lowercase hexadecimal, filled with zeros on the
    left up to two characters; the sign of a negative number takes one of
    the two. *)
Definition format_02x (n : Z) : string :=
  if n <? 0 then String "-" (hex_digits (- n))
  else
    let d := hex_digits n in
    if (String.length d <? 2)%nat then String "0" d else d.

(** [r, g, b = (int(c * 255) for c in color)] *)
Definition rgb_of (color : point) : Z * Z * Z :=
  (py_int (chan_r color * 255), py_int (chan_g color * 255),
   py_int (chan_b color * 255)).

(** ['#{:02x}{:02x}{:02x}'.format(r, g, b)] *)
Definition hex_of (rgb : Z * Z * Z) : string :=
  let '(r, g, b) := rgb in
  String "#" (format_02x r ++ format_02x g ++ format_02x b).

(** [pct = (count / total_pixels) * 100], computed only for an entry of a
    non-empty result, so [total_pixels] is not zero. *)
Definition percentage (count total_pixels : Z) : Q :=
  (inject_Z count / inject_Z total_pixels * 100)%Q.

(** [pct < min_percentage] *)
Definition below (pct min_percentage : Q) : bool :=
  negb (Qle_bool min_percentage pct).

(** What one colour card shows. *)
Record card : Type := Card {
  card_hex : string;
  card_rgb : Z * Z * Z;
  card_pct : Q
}.

Definition card_of (total_pixels : Z) (s : summary) : card :=
  let rgb := rgb_of (s_color s) in
  {| card_hex := hex_of rgb;
     card_rgb := rgb;
     card_pct := percentage (s_count s) total_pixels |}.

(** The loop [for count, color in color_counts]: an entry below the
    threshold is skipped ([continue]), the others are rendered in turn. *)
Fixpoint cards (color_counts : list summary) (total_pixels : Z)
    (min_percentage : Q) : list card :=
  match color_counts with
  | [] => []
  | s :: rest =>
      let pct := percentage (s_count s) total_pixels in
      if below pct min_percentage then cards rest total_pixels min_percentage
      else card_of total_pixels s :: cards rest total_pixels min_percentage
  end.

(** What the result column ends up showing. *)
Inductive view : Type :=
| Palette (found : nat) (shown : list card)
| HiddenWarning (found : nat)
| NoClusters
| ErrorBox (e : error).

(** The body of [with col_res], from the pixel array on: [run_dbscan] is
    called, [total_pixels = len(pixels)], and an exception ends in
    [st.error]. *)
Definition page (pixels : list point) (eps : Q) (min_samples : Z)
    (min_percentage : Q) : view :=
  match run_dbscan pixels eps min_samples with
  | inl e => ErrorBox e
  | inr color_counts =>
      let total_pixels := Z.of_nat (length pixels) in
      match color_counts with
      | [] => NoClusters
      | _ =>
          let shown := cards color_counts total_pixels min_percentage in
          match shown with
          | [] => HiddenWarning (length color_counts)
          | _ => Palette (length color_counts) shown
          end
      end
  end.

(** ** The page script: controls, pixel array, grid and card title *)

(** The values of the sidebar widgets. *)
Record controls : Type := Controls {
  ctl_eps : Q;
  ctl_min_samples : Z;
  ctl_resize_size : Z;
  ctl_min_percentage : Q;
  ctl_cols_per_row : nat
}.


(** The values the widgets start with. *)
Definition default_controls : controls :=
  {| ctl_eps := (8 # 100)%Q;
     ctl_min_samples := 60;
     ctl_resize_size := 150;
     ctl_min_percentage := (5 # 10)%Q;
     ctl_cols_per_row := 3 |}.

(** One pixel of the decoded image: red, green and blue, a byte each. *)
Definition rgb_bytes : Type := Z * Z * Z.

(** [np.array(img_small)]: the rows of the image, each a row of pixels. *)
Definition image_array : Type := list (list rgb_bytes).

(** [.reshape(-1, 3)]: the pixels, row after row. *)
Definition reshape_3 (a : image_array) : list rgb_bytes := List.concat a.

(** [/ 255.0] on one pixel. *)
Definition div_255 (px : rgb_bytes) : point :=
  let '(r, g, b) := px in
  ((inject_Z r / 255)%Q, (inject_Z g / 255)%Q, (inject_Z b / 255)%Q).

(** [pixels = np.array(img_small).reshape(-1, 3) / 255.0] *)
Definition pixels_of (img_small : image_array) : list point :=
  div_255 <$> reshape_3 img_small.


(** The loop [for count, color in color_counts] with the grid: a rendered
    card goes to the column [valid_count % cols_per_row], below the cards
    already there, and [valid_count] counts the rendered cards. *)
Fixpoint fill_grid (color_counts : list summary) (total_pixels : Z)
    (min_percentage : Q) (cols_per_row : nat) (valid_count : nat)
    (grid : list (list card)) : nat * list (list card) :=
  match color_counts with
  | [] => (valid_count, grid)
  | s :: rest =>
      let pct := percentage (s_count s) total_pixels in
      if below pct min_percentage then
        fill_grid rest total_pixels min_percentage cols_per_row valid_count grid
      else
        fill_grid rest total_pixels min_percentage cols_per_row
          (S valid_count)
          (alter (fun column => column ++ [card_of total_pixels s])
             (valid_count mod cols_per_row)%nat grid)
  end.

(** [grid = st.columns(cols_per_row)], [valid_count = 0] and the loop. *)
Definition render_grid (color_counts : list summary) (total_pixels : Z)
    (min_percentage : Q) (cols_per_row : nat) : nat * list (list card) :=
  fill_grid color_counts total_pixels min_percentage cols_per_row 0
    (replicate cols_per_row []).

(** [str.upper] on one character of ASCII text. *)
Definition ascii_upper (a : ascii) : ascii :=
  let n := nat_of_ascii a in
  if ((97 <=? n) && (n <=? 122))%nat then ascii_of_nat (n - 32) else a.

(** [hex_c.upper()], for ASCII text. *)
Fixpoint str_upper (s : string) : string :=
  match s with
  | EmptyString => EmptyString
  | String a s' => String (ascii_upper a) (str_upper s')
  end.

(** The code a card prints under the colour: [hex_c.upper()]. *)
Definition card_title (c : card) : string := str_upper (card_hex c).

(** ** Binary64: the numbers of the arrays

    The arrays are float64 arrays.  A finite float64 is a rational number,
    and each arithmetic operation returns the float64 nearest to the exact
    result, a tie going to the value with the even significand.  [fl] is
    that rounding on the rationals: 53 bits of significand, the smallest
    positive value [2^-1074].  The largest finite value, below [2^1024], is
    out of reach of this program, whose numbers are counts of pixels,
    channels in [0, 1] and percentages. *)

Module Binary64.

(** The precision of binary64, in bits, and the exponent of its smallest
    positive value. *)
Definition prec : Z := 53.
Definition emin : Z := -1074.

Definition pow2 (e : Z) : Q := (2 ^ e)%Q.

(** For [0 < x], the exponent [k] with [2^k <= x < 2^(k+1)]. *)
Definition ilog2 (x : Q) : Z :=
  let k := Z.log2 (Qnum x) - Z.log2 (Z.pos (Qden x)) in
  if Qle_bool (pow2 k) x then k else k - 1.

(** The exponent of the last bit of the binary64 values next to [x]. *)
Definition cexp (x : Q) : Z := Z.max emin (ilog2 (Qabs x) - (prec - 1)).

(** The nearest integer, a tie going to the even one. *)
Definition rne (x : Q) : Z :=
  let f := Qfloor x in
  match (x - inject_Z f ?= 1 # 2)%Q with
  | Lt => f
  | Gt => f + 1
  | Eq => if Z.even f then f else f + 1
  end.

(** The binary64 value nearest to [x], a tie going to the even
    significand. *)
Definition fl (x : Q) : Q :=
  let e := cexp x in
  Qred (inject_Z (rne (x / pow2 e)) * pow2 e).

End Binary64.

(** ** The numeric steps in binary64

    The steps of [run_dbscan] and of the page script that compute with
    floats, as the machine runs them: every operation is followed by [fl].
    The definitions above, under the same names, are these steps without the
    rounding.  The labelling, the counts, the sort and the formatting of
    integers involve no float and are shared. *)

Module Float64.

Import Binary64.

(** An integer converted to float64. *)
Definition of_int (z : Z) : Q := fl (inject_Z z).

(** [x + y], [x * y] and [x / y] on float64 values: the exact result,
    rounded.  The divisors of this program are not zero: a number of pixels
    or of rows of a label that occurs, and 255. *)
Definition add (x y : Q) : Q := fl (x + y).
Definition mul (x y : Q) : Q := fl (x * y).
Definition div (x y : Q) : Q := fl (x / y).

(** [DBSCAN(eps=eps, min_samples=min_samples).fit(pixels)] as the library
    answers it.  The library is not in the repository.  Its labelling and
    its check of the parameters are taken from section 4.2
    ([Clusterer.DBSCAN_fit]); besides, the library validates the array it is
    given before it clusters, and refuses one of no rows with a [ValueError]
    (a minimum of one sample is required), where the specification has an
    empty labelling. *)
Definition DBSCAN_fit (eps : Q) (min_samples : Z) (pixels : list point)
    : result (list Z) :=
  match Clusterer.DBSCAN_fit eps min_samples pixels with
  | inl e => raise e
  | inr labels =>
      match pixels with
      | [] => raise ValueError
      | _ => ok labels
      end
  end.

(** The sum of one column of [rows] as numpy's reduction over [axis=0]
    forms it: the accumulator starts as the first row and the other rows are
    added to it one after the other, each addition rounded. *)
Definition column_sum (ch : point -> Q) (rows : list point) : Q :=
  match rows with
  | [] => 0%Q
  | p :: rest => foldl (fun acc q => add acc (ch q)) (ch p) rest
  end.

(** [rows.mean(axis=0)]: the sum of each column divided by the number of
    rows. *)
Definition mean_axis0 (rows : list point) : point :=
  let n := of_int (Z.of_nat (length rows)) in
  (div (column_sum chan_r rows) n,
   div (column_sum chan_g rows) n,
   div (column_sum chan_b rows) n).

(** The body of the loop [for k in unique_labels]. *)
Definition summarize (pixels : list point) (labels : list Z) (k : Z)
    : summary :=
  let mask := mask_of labels k in
  let count := np_sum mask in
  let avg_color := mean_axis0 (select pixels mask) in
  (count, avg_color).

(** [results] when the loop ends. *)
Definition aggregate (pixels : list point) (labels : list Z) : list summary :=
  summarize pixels labels <$> unique_labels labels.

Definition run_dbscan (pixels : list point) (eps : Q) (min_samples : Z)
    : result (list summary) :=
  match DBSCAN_fit eps min_samples pixels with
  | inl e => raise e
  | inr labels => ok (sorted_by_count_desc (aggregate pixels labels))
  end.

(** [r, g, b = (int(c * 255) for c in color)]: the product is rounded, then
    cut to its integer part. *)
Definition rgb_of (color : point) : Z * Z * Z :=
  (py_int (mul (chan_r color) 255), py_int (mul (chan_g color) 255),
   py_int (mul (chan_b color) 255)).

(** [pct = (count / total_pixels) * 100]: both integers are converted, the
    quotient is rounded, and so is its product with 100. *)
Definition percentage (count total_pixels : Z) : Q :=
  mul (div (of_int count) (of_int total_pixels)) 100.

Definition card_of (total_pixels : Z) (s : summary) : card :=
  let rgb := rgb_of (s_color s) in
  {| card_hex := hex_of rgb;
     card_rgb := rgb;
     card_pct := percentage (s_count s) total_pixels |}.

(** The loop [for count, color in color_counts]; the comparison
    [pct < min_percentage] of two float64 values is exact. *)
Fixpoint cards (color_counts : list summary) (total_pixels : Z)
    (min_percentage : Q) : list card :=
  match color_counts with
  | [] => []
  | s :: rest =>
      let pct := percentage (s_count s) total_pixels in
      if below pct min_percentage then cards rest total_pixels min_percentage
      else card_of total_pixels s :: cards rest total_pixels min_percentage
  end.

(** The body of [with col_res], from the pixel array on. *)
Definition page (pixels : list point) (eps : Q) (min_samples : Z)
    (min_percentage : Q) : view :=
  match run_dbscan pixels eps min_samples with
  | inl e => ErrorBox e
  | inr color_counts =>
      let total_pixels := Z.of_nat (length pixels) in
      match color_counts with
      | [] => NoClusters
      | _ =>
          let shown := cards color_counts total_pixels min_percentage in
          match shown with
          | [] => HiddenWarning (length color_counts)
          | _ => Palette (length color_counts) shown
          end
      end
  end.

(** [/ 255.0] on one pixel of bytes. *)
Definition div_255 (px : rgb_bytes) : point :=
  let '(r, g, b) := px in
  (div (of_int r) 255, div (of_int g) 255, div (of_int b) 255).

(** [pixels = np.array(img_small).reshape(-1, 3) / 255.0] *)
Definition pixels_of (img_small : image_array) : list point :=
  div_255 <$> reshape_3 img_small.

End Float64.

(** * Vocabulary of the properties *)

(** ** Ranking, counts and colours *)

(** Descending by count. *)
Definition count_ge (a b : summary) : Prop := s_count b <= s_count a.

(** The entries of count [c], in list order. *)
Definition with_count (c : Z) (l : list summary) : list summary :=
  List.filter (fun s => s_count s =? c) l.

(** The number of entries of [labels] equal to [k]. *)
Definition occurrences (k : Z) (labels : list Z) : Z :=
  Z.of_nat (length (List.filter (fun l => l =? k) labels)).

(** The points whose label is [k]. *)
Definition members (pixels : list point) (labels : list Z) (k : Z)
    : list point :=
  fst <$> List.filter (fun pl => snd pl =? k) (zip pixels labels).

(** The sum of the counts of a list of summaries. *)
Definition total_count (l : list summary) : Z :=
  foldr (fun s acc => s_count s + acc) 0 l.

(** Every channel of the point lies in [0, 1]. *)
Definition in_unit (p : point) : Prop :=
  (0 <= chan_r p <= 1 /\ 0 <= chan_g p <= 1 /\ 0 <= chan_b p <= 1)%Q.

(** The lowercase hexadecimal digit of a value in [0, 15]. *)
Definition hexdigit (d : Z) : ascii :=
  match String.get (Z.to_nat d) "0123456789abcdef" with
  | Some a => a
  | None => "?"%char
  end.

(** Two lowercase hexadecimal digits, high digit first. *)
Definition two_hex (n : Z) : string :=
  String (hexdigit (n / 16)) (String (hexdigit (n mod 16)) EmptyString).

(** A point with channels given in tenths. *)
Definition tenths (r g b : Z) : point := ((r # 10)%Q, (g # 10)%Q, (b # 10)%Q).

(** Two dark pixels, two light ones and one alone in the middle. *)
Definition sample_pixels : list point :=
  [tenths 0 0 0; tenths 0 0 0; tenths 10 10 10; tenths 10 10 10; tenths 5 5 5].

(** The same two pairs without the lone pixel, dark pair first and light
    pair first. *)
Definition dark_first : list point :=
  [tenths 0 0 0; tenths 0 0 0; tenths 10 10 10; tenths 10 10 10].

Definition light_first : list point :=
  [tenths 10 10 10; tenths 10 10 10; tenths 0 0 0; tenths 0 0 0].

(** Points on the red axis, in tenths: a dense group at 0 and 1, another at
    3 and 4, and between them the point 2, within [1/10] of a core point of
    each group without being one itself.  In [border_first] it comes first,
    in [border_last] the group at 3 and 4 comes first. *)
Definition border_first : list point :=
  [tenths 2 0 0;
   tenths 0 0 0; tenths 0 0 0; tenths 0 0 0; tenths 1 0 0;
   tenths 3 0 0; tenths 4 0 0; tenths 4 0 0; tenths 4 0 0].

Definition border_last : list point :=
  [tenths 4 0 0; tenths 4 0 0; tenths 4 0 0; tenths 3 0 0;
   tenths 1 0 0; tenths 0 0 0; tenths 0 0 0; tenths 0 0 0;
   tenths 2 0 0].

(** Lexicographic order on the channels of a colour. *)
Definition lex_lt (p q : point) : Prop :=
  (chan_r p < chan_r q
   \/ (chan_r p == chan_r q
       /\ (chan_g p < chan_g q
           \/ (chan_g p == chan_g q /\ chan_b p < chan_b q))))%Q.

Definition lex_le (p q : point) : Prop :=
  lex_lt p q
  \/ (chan_r p == chan_r q /\ chan_g p == chan_g q /\ chan_b p == chan_b q)%Q.

(** Neighbouring entries of equal count have their colours related by [R]. *)
Definition ties_by (R : point -> point -> Prop) (out : list summary) : Prop :=
  forall i a b,
    out !! i = Some a -> out !! S i = Some b ->
    s_count a = s_count b -> R (s_color a) (s_color b).

(** The cards a view shows. *)
Definition shown_cards (v : view) : list card :=
  match v with
  | Palette _ shown => shown
  | _ => []
  end.


(** ** Neighbourhoods and density reachability *)

(** Positions [i] and [j] hold points at distance at most [eps]. *)
Definition adjacent (pts : list point) (eps : Q) (i j : nat) : Prop :=
  exists p q,
    pts !! i = Some p /\ pts !! j = Some q
    /\ (Clusterer.sqdist p q <= eps * eps)%Q.

(** At least [min_samples] positions are adjacent to [i]. *)
Definition core_point (pts : list point) (eps : Q) (min_samples : Z)
    (i : nat) : Prop :=
  exists N : list nat,
    NoDup N /\ (forall j, j ∈ N <-> adjacent pts eps i j)
    /\ min_samples <= Z.of_nat (length N).

Section GraphVocabulary.

Import Clusterer.

Variable n : nat.
Variable nbrs : nat -> list nat.
Variable core : nat -> bool.

(** [j] is reached from [s] along core points that satisfy [P]. *)
Inductive reach (P : nat -> Prop) (s : nat) : nat -> Prop :=
| reach_seed : reach P s s
| reach_step p j :
    reach P s p -> core p = true -> P p -> j ∈ nbrs p -> reach P s j.

(** Position [j] is in cluster [k]. *)
Definition has (st : list mark) (k : Z) (j : nat) : Prop :=
  st !! j = Some (Cluster k).

Definition is_cluster (m : mark) : bool :=
  match m with
  | Cluster _ => true
  | _ => false
  end.

(** The number of points without a cluster. *)
Definition unassigned (st : list mark) : nat :=
  length (List.filter (fun m => negb (is_cluster m)) st).

(** From [st] to [st'] nothing changed but points without a cluster that
    joined cluster [c]. *)
Definition extends (c : Z) (st st' : list mark) : Prop :=
  forall j,
    st' !! j = st !! j
    \/ (st' !! j = Some (Cluster c)
        /\ exists m, st !! j = Some m /\ is_cluster m = false).

(** The first core point of cluster [k] in input order. *)
Definition seed (st : list mark) (k : Z) (s : nat) : Prop :=
  core s = true /\ has st k s
  /\ forall q, core q = true -> has st k q -> (s <= q)%nat.

(** What holds before the pass looks at position [i], with [c] the next
    cluster id. *)
Record scan_inv (i : nat) (c : Z) (st : list mark) : Prop := {
  inv_length : length st = n;
  inv_next : 0 <= c;
  inv_visited : forall j, (j < i)%nat -> st !! j <> Some Unlabeled;
  inv_noise : forall j, st !! j = Some Noise -> core j = false;
  inv_range : forall j k, has st k j -> 0 <= k < c;
  inv_closed : forall q j k,
    has st k q -> core q = true -> j ∈ nbrs q ->
    exists k', has st k' j /\ k' <= k;
  inv_support : forall j k,
    has st k j -> exists s, seed st k s /\ reach (has st k) s j;
  inv_seeds : forall k, 0 <= k < c -> exists s, (s < i)%nat /\ seed st k s;
  inv_order : forall k k' s s',
    seed st k s -> seed st k' s' -> k < k' -> (s < s')%nat
}.

(** The first core point, in input order, with label [k]. *)
Definition first_core (L : list Z) (k : Z) (s : nat) : Prop :=
  core s = true /\ L !! s = Some k
  /\ forall q, core q = true -> L !! q = Some k -> (s <= q)%nat.

(** The labelling of section 4.2 in the words of the specification and of
    its glossary, without the algorithm: one label per point, [-1] or a
    cluster id; a core point is in a cluster; a neighbour of a core point is
    in the cluster of that core point or in an earlier one (the first
    cluster to reach a point keeps it); a point of a cluster is reached from
    the first core point of the cluster through neighbourhoods of core
    points of the cluster; the first core points of the clusters come in the
    order of the cluster ids, which are [0], [1], ... without a gap. *)
Record reference_labelling (L : list Z) : Prop := {
  ref_length : length L = n;
  ref_label : forall j l, L !! j = Some l -> -1 <= l;
  ref_core : forall i l, core i = true -> L !! i = Some l -> 0 <= l;
  ref_first : forall i j li,
    core i = true -> j ∈ nbrs i -> L !! i = Some li ->
    exists lj, L !! j = Some lj /\ 0 <= lj <= li;
  ref_reach : forall j k,
    L !! j = Some k -> 0 <= k ->
    exists s, first_core L k s /\ reach (fun p => L !! p = Some k) s j;
  ref_order : forall k k' s s',
    0 <= k -> first_core L k s -> first_core L k' s' -> k < k' ->
    (s < s')%nat;
  ref_ids : forall j k k',
    L !! j = Some k -> 0 <= k' <= k -> exists j', L !! j' = Some k'
}.

End GraphVocabulary.

(** ** Images, shares and the grid *)

(** A value of a [uint8] array. *)
Definition is_byte (z : Z) : Prop := 0 <= z <= 255.

Definition byte_pixel (px : rgb_bytes) : Prop :=
  is_byte (fst (fst px)) /\ is_byte (snd (fst px)) /\ is_byte (snd px).

(** Every channel of every pixel of the array is a byte. *)
Definition byte_image (a : image_array) : Prop :=
  Forall (Forall byte_pixel) a.




(** A ranking of two entries, of 30 and of 10 percent of ten pixels. *)
Definition two_entries : list summary := [(3, tenths 1 0 0); (1, tenths 9 9 9)].

(** The grid holds the cards of [shown], dealt to [cols] columns in turn:
    the card at position [j] lies in column [j mod cols], [j / cols] cards
    from the top. *)
Definition dealt (cols : nat) (shown : list card) (grid : list (list card))
    : Prop :=
  length grid = cols
  /\ (forall c column,
        grid !! c = Some column ->
        length column
        = (length shown / cols
           + (if c <? length shown mod cols then 1 else 0))%nat)
  /\ (forall j,
        grid !! (j mod cols)%nat ≫= (fun column => column !! (j / cols)%nat)
        = shown !! j).

(** The uppercase hexadecimal digit of a value in [0, 15]. *)
Definition hexdigit_upper (d : Z) : ascii :=
  match String.get (Z.to_nat d) "0123456789ABCDEF" with
  | Some a => a
  | None => "?"%char
  end.

(** Two uppercase hexadecimal digits, high digit first. *)
Definition two_hex_upper (n : Z) : string :=
  String (hexdigit_upper (n / 16))
    (String (hexdigit_upper (n mod 16)) EmptyString).

(** An image of two rows: two black pixels, two white ones. *)
Definition two_tone : image_array :=
  [[(0, 0, 0); (0, 0, 0)]; [(255, 255, 255); (255, 255, 255)]].



(** The three channels have the same value. *)
Definition grey (p : point) : Prop :=
  (chan_r p == chan_g p /\ chan_g p == chan_b p)%Q.

(** The three bytes are the same. *)
Definition grey_bytes (px : rgb_bytes) : Prop :=
  fst (fst px) = snd (fst px) /\ snd (fst px) = snd px.

(** ** Float64 values and the aggregation of the specification *)

(** The value is a float64: rounding leaves it as it is. *)
Definition is_float64 (x : Q) : Prop := (Binary64.fl x == x)%Q.

Definition float64_point (p : point) : Prop :=
  is_float64 (chan_r p) /\ is_float64 (chan_g p) /\ is_float64 (chan_b p).

(** The entries that pass the threshold with their rounded percentage. *)
Definition kept64 (color_counts : list summary) (total_pixels : Z)
    (min_percentage : Q) : list summary :=
  List.filter
    (fun s =>
       Qle_bool min_percentage (Float64.percentage (s_count s) total_pixels))
    color_counts.

(** The six values [0, 51, ..., 255] in each channel: 216 pixels, any two
    of them at least a fifth apart after the division by 255. *)
Definition colour_grid : list rgb_bytes :=
  r ← [0; 51; 102; 153; 204; 255];
  g ← [0; 51; 102; 153; 204; 255];
  b ← [0; 51; 102; 153; 204; 255];
  [(r, g, b)].

(** Nine pixels of the same dark grey. *)
Definition nine_grey : image_array := [replicate 9 (9, 9, 9)].

(** A cluster of 23 black pixels among 40 and a threshold of 57.5. *)
Definition forty_pixels : image_array :=
  [replicate 23 (0, 0, 0) ++ take 17 (drop 1 colour_grid)].

(** Four black pixels and two white ones. *)
Definition two_thirds : list point :=
  Float64.pixels_of
    [[(0, 0, 0); (0, 0, 0); (0, 0, 0); (0, 0, 0);
      (255, 255, 255); (255, 255, 255)]].

(** The three channels are the same float64. *)
Definition grey64 (p : point) : Prop :=
  chan_r p = chan_g p /\ chan_g p = chan_b p.

(** The aggregation in the words of the specification (sections 4.3 and 9):
    one pass over the labelled points with an accumulator for each label. *)

(** What the pass keeps for one label (section 9): the count and the
    running sum of each channel. *)
Record accumulator : Type := Accumulator {
  acc_count : Z;
  acc_sum : point
}.

(** One labelled point joins the accumulator of its label; a noise point
    is left out.  The sums are float64 sums. *)
Definition accumulate (table : gmap Z accumulator) (lp : point * Z)
    : gmap Z accumulator :=
  let '(p, l) := lp in
  if l =? noise then table
  else
    match table !! l with
    | None => <[l := {| acc_count := 1; acc_sum := p |}]> table
    | Some a =>
        <[l := {| acc_count := acc_count a + 1;
                  acc_sum :=
                    (Float64.add (chan_r (acc_sum a)) (chan_r p),
                     Float64.add (chan_g (acc_sum a)) (chan_g p),
                     Float64.add (chan_b (acc_sum a)) (chan_b p)) |}]> table
    end.

(** The pass over the points and their labels, in input order. *)
Definition group_by_label (pixels : list point) (labels : list Z)
    : gmap Z accumulator :=
  foldl accumulate ∅ (zip pixels labels).

(** The summary of an accumulator (section 4.3): the count, and as centroid
    the sum of each channel divided by the count. *)
Definition summary_of (a : accumulator) : summary :=
  let n := Float64.of_int (acc_count a) in
  (acc_count a,
   (Float64.div (chan_r (acc_sum a)) n,
    Float64.div (chan_g (acc_sum a)) n,
    Float64.div (chan_b (acc_sum a)) n)).

(** What the table holds for a label after the pass. *)
Definition entry_of (rows : list point) : option accumulator :=
  match rows with
  | [] => None
  | _ =>
      Some {| acc_count := Z.of_nat (length rows);
              acc_sum :=
                (Float64.column_sum chan_r rows,
                 Float64.column_sum chan_g rows,
                 Float64.column_sum chan_b rows) |}
  end.

(** * Properties *)

(** ** Ranking: the sort of [run_dbscan] *)

Section Ranking.

Lemma insert_desc_perm x l : Permutation (x :: l) (insert_desc x l).
Proof.
  induction l as [|y l IH]; simpl; [reflexivity|].
  destruct (s_count x <? s_count y); [|reflexivity].
  rewrite perm_swap. now apply perm_skip.
Qed.

Lemma sorted_by_count_desc_perm l : Permutation l (sorted_by_count_desc l).
Proof.
  induction l as [|x l IH]; simpl; [constructor|].
  rewrite <- insert_desc_perm. now apply perm_skip.
Qed.

Lemma insert_desc_sorted x l :
  StronglySorted count_ge l -> StronglySorted count_ge (insert_desc x l).
Proof.
  induction 1 as [|y l Hl IH Hy]; simpl.
  - repeat constructor.
  - destruct (Z.ltb_spec (s_count x) (s_count y)) as [Hlt|Hge].
    + constructor; [exact IH|].
      rewrite <- insert_desc_perm. constructor; [unfold count_ge; lia|exact Hy].
    + constructor; [now constructor|].
      constructor; [exact Hge|].
      eapply Forall_impl; [exact Hy|].
      unfold count_ge. intros z Hz. simpl in Hz. lia.
Qed.

Lemma sorted_by_count_desc_sorted l :
  StronglySorted count_ge (sorted_by_count_desc l).
Proof.
  induction l as [|x l IH]; simpl; [constructor|].
  now apply insert_desc_sorted.
Qed.

Lemma insert_desc_stable c x l :
  with_count c (insert_desc x l) = with_count c (x :: l).
Proof.
  induction l as [|y l IH]; [reflexivity|].
  simpl insert_desc.
  destruct (Z.ltb_spec (s_count x) (s_count y)) as [Hlt|Hge]; [|reflexivity].
  unfold with_count in *. simpl in *. rewrite IH.
  destruct (Z.eqb_spec (s_count x) c), (Z.eqb_spec (s_count y) c);
    try reflexivity; lia.
Qed.

Lemma sorted_by_count_desc_stable c l :
  with_count c (sorted_by_count_desc l) = with_count c l.
Proof.
  induction l as [|x l IH]; [reflexivity|].
  simpl sorted_by_count_desc. rewrite insert_desc_stable.
  unfold with_count in *. simpl. now rewrite IH.
Qed.

End Ranking.

(** ** The label set *)

Section LabelSet.

Lemma set_add_elem k s x : x ∈ set_add k s <-> x = k \/ x ∈ s.
Proof.
  induction s as [|y s IH]; simpl.
  - rewrite list_elem_of_singleton, elem_of_nil. tauto.
  - destruct (Z.ltb_spec k y); [|destruct (Z.eqb_spec k y)].
    + now rewrite elem_of_cons.
    + subst. rewrite elem_of_cons. tauto.
    + rewrite !elem_of_cons, IH. tauto.
Qed.

Lemma set_add_sorted k s :
  StronglySorted Z.lt s -> StronglySorted Z.lt (set_add k s).
Proof.
  induction 1 as [|y s Hs IH Hy]; simpl.
  - repeat constructor.
  - destruct (Z.ltb_spec k y); [|destruct (Z.eqb_spec k y)].
    + constructor; [now constructor|].
      constructor; [assumption|].
      eapply Forall_impl; [exact Hy|]. simpl. lia.
    + now constructor.
    + constructor; [exact IH|].
      apply Forall_forall. intros x Hx. apply set_add_elem in Hx.
      destruct Hx as [->|Hx]; [lia|].
      rewrite Forall_forall in Hy. now apply Hy.
Qed.

Lemma foldl_set_add_elem labels s x :
  x ∈ foldl (fun s k => set_add k s) s labels <-> x ∈ labels \/ x ∈ s.
Proof.
  revert s. induction labels as [|k labels IH]; intros s; simpl.
  - rewrite elem_of_nil. tauto.
  - rewrite IH, set_add_elem, elem_of_cons. tauto.
Qed.

Lemma foldl_set_add_sorted labels s :
  StronglySorted Z.lt s ->
  StronglySorted Z.lt (foldl (fun s k => set_add k s) s labels).
Proof.
  revert s. induction labels as [|k labels IH]; intros s Hs; simpl; [exact Hs|].
  apply IH. now apply set_add_sorted.
Qed.

Lemma py_set_elem labels x : x ∈ py_set labels <-> x ∈ labels.
Proof.
  unfold py_set. rewrite foldl_set_add_elem, elem_of_nil. tauto.
Qed.

Lemma filter_sorted (f : Z -> bool) s :
  StronglySorted Z.lt s -> StronglySorted Z.lt (List.filter f s).
Proof.
  induction 1 as [|y s Hs IH Hy]; simpl; [constructor|].
  destruct (f y); [|exact IH].
  constructor; [exact IH|].
  apply Forall_forall. intros x Hx.
  apply list_elem_of_In, filter_In in Hx. destruct Hx as [Hx _].
  rewrite Forall_forall in Hy. now apply Hy, list_elem_of_In.
Qed.

Lemma unique_labels_sorted labels : StronglySorted Z.lt (unique_labels labels).
Proof.
  unfold unique_labels, set_sub. apply filter_sorted.
  unfold py_set. apply foldl_set_add_sorted. constructor.
Qed.

Lemma sorted_lt_NoDup s : StronglySorted Z.lt s -> NoDup s.
Proof.
  induction 1 as [|y s Hs IH Hy]; constructor; [|exact IH].
  intros Hin. rewrite Forall_forall in Hy. specialize (Hy _ Hin). lia.
Qed.

Lemma unique_labels_NoDup labels : NoDup (unique_labels labels).
Proof. apply sorted_lt_NoDup, unique_labels_sorted. Qed.

Lemma unique_labels_elem labels k :
  k ∈ unique_labels labels <-> k ∈ labels /\ k <> noise.
Proof.
  unfold unique_labels, set_sub.
  rewrite list_elem_of_In, filter_In, <- list_elem_of_In, py_set_elem.
  simpl. rewrite orb_false_r, negb_true_iff, Z.eqb_neq. tauto.
Qed.

End LabelSet.

(** ** Masks, counts and means *)

Section Aggregation.

Lemma np_sum_mask labels k : np_sum (mask_of labels k) = occurrences k labels.
Proof.
  unfold np_sum, mask_of, occurrences. f_equal.
  induction labels as [|l labels IH]; [reflexivity|].
  csimpl. unfold id at 1. destruct (l =? k); simpl; [f_equal|]; exact IH.
Qed.

Lemma select_mask pixels labels k :
  select pixels (mask_of labels k) = members pixels labels k.
Proof.
  unfold members, mask_of.
  revert labels. induction pixels as [|p pixels IH]; intros [|l labels];
    try reflexivity.
  csimpl. destruct (l =? k); csimpl; now rewrite IH.
Qed.

Lemma members_length pixels labels k :
  length pixels = length labels ->
  Z.of_nat (length (members pixels labels k)) = occurrences k labels.
Proof.
  unfold members, occurrences. rewrite length_fmap. intros Hlen. f_equal.
  revert labels Hlen.
  induction pixels as [|p pixels IH]; intros [|l labels] Hlen;
    try discriminate; [reflexivity|].
  simpl. injection Hlen as Hlen.
  destruct (l =? k); simpl; now rewrite IH.
Qed.

Lemma members_elem pixels labels k p :
  p ∈ members pixels labels k -> p ∈ pixels.
Proof.
  unfold members. intros Hin.
  apply list_elem_of_fmap in Hin as [[q l] [-> Hin]].
  apply list_elem_of_In, filter_In in Hin as [Hin _].
  apply list_elem_of_In in Hin. simpl.
  apply elem_of_zip_l in Hin. exact Hin.
Qed.

Lemma occurrences_pos k labels : k ∈ labels -> 1 <= occurrences k labels.
Proof.
  unfold occurrences. intros Hin.
  assert (Hk : k ∈ List.filter (fun l => l =? k) labels).
  { apply list_elem_of_In, filter_In. split; [now apply list_elem_of_In|].
    apply Z.eqb_refl. }
  destruct (List.filter _ labels); [now apply elem_of_nil in Hk|simpl; lia].
Qed.

Lemma total_count_perm l l' :
  Permutation l l' -> total_count l = total_count l'.
Proof.
  induction 1; simpl; lia.
Qed.

Lemma occurrences_cons k l labels :
  occurrences k (l :: labels)
  = (if l =? k then 1 else 0) + occurrences k labels.
Proof.
  unfold occurrences. simpl. destruct (l =? k); simpl length; lia.
Qed.

Lemma sum_indicator (ks : list Z) l :
  NoDup ks ->
  foldr (fun k acc => (if l =? k then 1 else 0) + acc) 0 ks
  = if bool_decide (l ∈ ks) then 1 else 0.
Proof.
  induction 1 as [|k ks Hk Hks IH]; simpl; [reflexivity|].
  rewrite IH.
  destruct (Z.eqb_spec l k) as [->|Hne]; repeat case_bool_decide;
    try reflexivity; exfalso;
    match goal with H : _ |- _ => rewrite elem_of_cons in H end; tauto.
Qed.

Lemma sum_occurrences (ks : list Z) labels :
  NoDup ks ->
  foldr (fun k acc => occurrences k labels + acc) 0 ks
  = Z.of_nat (length (List.filter (fun l => bool_decide (l ∈ ks)) labels)).
Proof.
  intros Hks. induction labels as [|l labels IH].
  - simpl. induction ks as [|k ks IHk]; simpl; [reflexivity|].
    apply NoDup_cons in Hks as [_ Hks]. rewrite (IHk Hks). reflexivity.
  - transitivity
      (foldr (fun k acc => (if l =? k then 1 else 0) + acc) 0 ks
       + foldr (fun k acc => occurrences k labels + acc) 0 ks).
    + clear. induction ks as [|k ks IHk]; simpl; [reflexivity|].
      rewrite IHk, occurrences_cons. lia.
    + rewrite IH, (sum_indicator ks l Hks). simpl List.filter.
      destruct (bool_decide (l ∈ ks)); simpl length; lia.
Qed.

Lemma filter_split_noise (ks : list Z) labels :
  (forall x, x ∈ labels -> (x ∈ ks <-> x <> noise)) ->
  (length (List.filter (fun l => bool_decide (l ∈ ks)) labels)
   + length (List.filter (fun l => (l =? noise)%Z) labels))%nat
  = length labels.
Proof.
  induction labels as [|l labels IH]; intros Hks; [reflexivity|].
  simpl List.filter.
  assert (Hl := Hks l (list_elem_of_here _ _)).
  assert (IH' : forall x, x ∈ labels -> (x ∈ ks <-> x <> noise)).
  { intros x Hx. apply Hks. now apply list_elem_of_further. }
  specialize (IH IH').
  destruct (Z.eqb_spec l noise) as [->|Hne]; case_bool_decide;
    simpl length; try lia; tauto.
Qed.

Lemma total_count_aggregate pixels labels :
  total_count (aggregate pixels labels) + occurrences noise labels
  = Z.of_nat (length labels).
Proof.
  unfold aggregate.
  assert (Hsum : total_count (summarize pixels labels <$> unique_labels labels)
          = foldr (fun k acc => occurrences k labels + acc) 0
              (unique_labels labels)).
  { induction (unique_labels labels) as [|k ks IH]; [reflexivity|].
    csimpl. rewrite IH. unfold summarize, s_count. simpl.
    now rewrite np_sum_mask. }
  rewrite Hsum, sum_occurrences by apply unique_labels_NoDup.
  unfold occurrences. rewrite <- Nat2Z.inj_add. f_equal.
  apply filter_split_noise.
  intros x Hx. rewrite unique_labels_elem. tauto.
Qed.

Lemma occurrences_zero k labels : occurrences k labels = 0 <-> k ∉ labels.
Proof.
  split.
  - intros H0 Hin. apply occurrences_pos in Hin. lia.
  - unfold occurrences. intros Hnot.
    induction labels as [|l labels IH]; [reflexivity|].
    apply not_elem_of_cons in Hnot as [Hne Hnot]. simpl.
    destruct (Z.eqb_spec l k); [congruence|]. now apply IH.
Qed.

Lemma occurrences_nonneg k labels : 0 <= occurrences k labels.
Proof. unfold occurrences. lia. Qed.

End Aggregation.

(** ** Means of channel values *)

Section Means.




End Means.

(** ** The labelling has one label per point *)

Section Labelling.

Import Clusterer.

Variable nbrs : nat -> list nat.
Variable core : nat -> bool.

Lemma expand_length fuel c frontier st :
  length (expand nbrs core fuel c frontier st) = length st.
Proof.
  revert frontier st. induction fuel as [|fuel IH]; intros frontier st;
    [reflexivity|].
  simpl. destruct frontier as [|q rest]; [reflexivity|].
  destruct (st !! q) as [[| |c']|]; try apply IH;
    destruct (core q); rewrite IH; apply length_insert.
Qed.

Lemma scan_length todo c st :
  length (scan nbrs core todo c st) = length st.
Proof.
  revert c st. induction todo as [|p todo IH]; intros c st; [reflexivity|].
  cbn [scan]. destruct (st !! p) as [[| |c']|]; try apply IH.
  destruct (core p); rewrite IH.
  - rewrite expand_length. apply length_insert.
  - apply length_insert.
Qed.

End Labelling.

Lemma cluster_length pts eps min_samples :
  length (Clusterer.cluster pts eps min_samples) = length pts.
Proof.
  unfold Clusterer.cluster.
  rewrite length_fmap, scan_length. apply length_replicate.
Qed.

(** ** Truncation and hexadecimal digits *)

Section Formatting.

Lemma py_int_nonneg x :
  (0 <= x)%Q -> py_int x = Qfloor x.
Proof.
  destruct x as [n d]. unfold Qle, py_int, Qfloor. simpl. intros Hn.
  apply Z.quot_div_nonneg; lia.
Qed.



Lemma format_02x_byte n :
  0 <= n <= 255 -> format_02x n = two_hex n.
Proof.
  intros Hn.
  assert (Hall : forallb (fun k => String.eqb (format_02x (Z.of_nat k))
                                     (two_hex (Z.of_nat k)))
                   (seq 0 256) = true) by (vm_compute; reflexivity).
  rewrite forallb_forall in Hall.
  specialize (Hall (Z.to_nat n)).
  rewrite Z2Nat.id in Hall by lia.
  apply String.eqb_eq, Hall, in_seq. lia.
Qed.


End Formatting.

(** ** [run_dbscan] on valid and invalid parameters *)

Section Calls.

Import Clusterer.

Lemma DBSCAN_fit_valid eps min_samples pixels :
  (0 < eps)%Q -> 1 <= min_samples ->
  DBSCAN_fit eps min_samples pixels = inr (cluster pixels eps min_samples).
Proof.
  intros Heps Hms. unfold DBSCAN_fit.
  destruct (Qle_bool eps 0) eqn:Hle.
  - apply Qle_bool_iff in Hle. lra.
  - destruct (Z.ltb_spec min_samples 1); [lia|reflexivity].
Qed.

Lemma DBSCAN_fit_invalid eps min_samples pixels :
  (eps <= 0)%Q \/ min_samples < 1 ->
  DBSCAN_fit eps min_samples pixels = inl ConfigurationError.
Proof.
  intros [Heps|Hms]; unfold DBSCAN_fit.
  - apply Qle_bool_iff in Heps. now rewrite Heps.
  - destruct (Z.ltb_spec min_samples 1); [|lia].
    now rewrite orb_true_r.
Qed.

Lemma run_dbscan_valid pixels eps min_samples :
  (0 < eps)%Q -> 1 <= min_samples ->
  run_dbscan pixels eps min_samples
  = inr (sorted_by_count_desc
           (aggregate pixels (cluster pixels eps min_samples))).
Proof.
  intros Heps Hms. unfold run_dbscan.
  now rewrite DBSCAN_fit_valid.
Qed.


End Calls.

(** ** Sample inputs *)

Example sample_labels :
  Clusterer.cluster sample_pixels (1 # 10) 2 = [0; 0; 1; 1; -1].
Proof. vm_compute. reflexivity. Qed.

(** The point between two groups goes to the group whose cluster starts
    first in input order. *)
Example border_first_labels :
  Clusterer.cluster border_first (1 # 10) 4 = [0; 0; 0; 0; 0; 1; 1; 1; 1]
  /\ Clusterer.is_core border_first (1 # 10) 4 0 = false.
Proof. vm_compute. split; reflexivity. Qed.

Example border_last_labels :
  Clusterer.cluster border_last (1 # 10) 4 = [0; 0; 0; 0; 1; 1; 1; 1; 0]
  /\ Clusterer.is_core border_last (1 # 10) 4 8 = false.
Proof. vm_compute. split; reflexivity. Qed.

(** ** Aggregation per label *)

Section Summaries.

Import Clusterer.

Lemma members_nonempty pixels labels k :
  length pixels = length labels -> k ∈ labels ->
  members pixels labels k <> [].
Proof.
  intros Hlen Hk Hnil. apply occurrences_pos in Hk.
  rewrite <- (members_length pixels) in Hk by exact Hlen.
  rewrite Hnil in Hk. simpl in Hk. lia.
Qed.


End Summaries.

(** ** The cards of the page *)

Section Cards.


Lemma filter_strongly_sorted (f : summary -> bool) l :
  StronglySorted count_ge l -> StronglySorted count_ge (List.filter f l).
Proof.
  induction 1 as [|y l Hl IH Hy]; simpl; [constructor|].
  destruct (f y); [|exact IH].
  constructor; [exact IH|].
  apply Forall_forall. intros x Hx.
  apply list_elem_of_In, filter_In in Hx as [Hx _].
  rewrite Forall_forall in Hy. now apply Hy, list_elem_of_In.
Qed.

Lemma filter_sublist {A} (f : A -> bool) (l : list A) :
  sublist (List.filter f l) l.
Proof.
  induction l as [|x l IH]; simpl; [constructor|].
  destruct (f x); now constructor.
Qed.

End Cards.

(** ** The labelling against density reachability *)

Section Expansion.

Import Clusterer.

Variable n : nat.
Variable nbrs : nat -> list nat.
Variable core : nat -> bool.

Hypothesis nbrs_bound : forall i j, j ∈ nbrs i -> (j < n)%nat.
Hypothesis nbrs_length : forall i, (length (nbrs i) <= n)%nat.

Local Abbreviation reach := (reach nbrs core).
Local Abbreviation seed := (seed core).
Local Abbreviation scan_inv := (scan_inv n nbrs core).
Local Abbreviation first_core := (first_core core).
Local Abbreviation reference_labelling := (reference_labelling n nbrs core).
Local Abbreviation ref_length := (ref_length n nbrs core).
Local Abbreviation ref_label := (ref_label n nbrs core).
Local Abbreviation ref_core := (ref_core n nbrs core).
Local Abbreviation ref_first := (ref_first n nbrs core).
Local Abbreviation ref_reach := (ref_reach n nbrs core).
Local Abbreviation ref_order := (ref_order n nbrs core).
Local Abbreviation ref_ids := (ref_ids n nbrs core).

Lemma reach_mono (P Q : nat -> Prop) s j :
  (forall p, P p -> Q p) -> reach P s j -> reach Q s j.
Proof.
  intros HPQ. induction 1 as [|p j Hp IH Hcore HP Hj].
  - apply reach_seed.
  - eapply reach_step; eauto.
Qed.

Lemma unassigned_le st : (unassigned st <= length st)%nat.
Proof. unfold unassigned. apply List.filter_length_le. Qed.

Lemma unassigned_insert st q m c :
  st !! q = Some m -> is_cluster m = false ->
  S (unassigned (<[q := Cluster c]> st)) = unassigned st.
Proof.
  unfold unassigned. revert q. induction st as [|m' st IH]; intros q Hq Hm.
  - discriminate.
  - destruct q as [|q]; simpl in Hq.
    + injection Hq as ->. simpl. rewrite Hm. reflexivity.
    + simpl. destruct (negb (is_cluster m')); simpl; now rewrite (IH q).
Qed.

Lemma has_insert_other st q c k j :
  (forall k', ~ has st k' q) -> has st k j -> has (<[q := Cluster c]> st) k j.
Proof.
  unfold has. intros Hq Hj.
  rewrite list_lookup_insert_ne; [exact Hj|].
  intros ->. exact (Hq _ Hj).
Qed.

Lemma has_insert_inv st q c k j :
  has (<[q := Cluster c]> st) k j -> (j = q /\ k = c) \/ (j <> q /\ has st k j).
Proof.
  unfold has. intros Hj. destruct (decide (j = q)) as [->|Hne].
  - left. split; [reflexivity|].
    destruct (decide (q < length st)%nat) as [Hlt|Hge].
    + rewrite list_lookup_insert_eq in Hj by exact Hlt. congruence.
    + rewrite list_insert_ge in Hj by lia.
      apply lookup_lt_Some in Hj. lia.
  - right. split; [exact Hne|]. now rewrite list_lookup_insert_ne in Hj.
Qed.

Lemma extends_refl c st : extends c st st.
Proof. intros j. now left. Qed.

Lemma extends_insert c st st' q m :
  st !! q = Some m -> is_cluster m = false ->
  extends c (<[q := Cluster c]> st) st' -> extends c st st'.
Proof.
  intros Hq Hm Hext j. destruct (Hext j) as [Heq|[Hc [m' [Hm' Hcl]]]].
  - destruct (decide (j = q)) as [->|Hne].
    + right. rewrite Heq.
      rewrite list_lookup_insert_eq by (eapply lookup_lt_Some, Hq).
      eauto.
    + left. now rewrite Heq, list_lookup_insert_ne.
  - destruct (decide (j = q)) as [->|Hne].
    + right. eauto.
    + right. rewrite list_lookup_insert_ne in Hm' by congruence. eauto.
Qed.

Lemma expand_spec c s fuel : forall frontier st,
  length st = n ->
  (forall q, q ∈ frontier -> (q < n)%nat) ->
  (unassigned st * S n + length frontier < fuel)%nat ->
  (forall q j, has st c q -> core q = true -> j ∈ nbrs q ->
     (exists k', has st k' j) \/ j ∈ frontier) ->
  (forall j, has st c j -> reach (has st c) s j) ->
  (forall q, q ∈ frontier -> reach (has st c) s q) ->
  extends c st (expand nbrs core fuel c frontier st)
  /\ (forall q j, has (expand nbrs core fuel c frontier st) c q ->
        core q = true -> j ∈ nbrs q ->
        exists k', has (expand nbrs core fuel c frontier st) k' j)
  /\ (forall j, has (expand nbrs core fuel c frontier st) c j ->
        reach (has (expand nbrs core fuel c frontier st) c) s j).
Proof.
  induction fuel as [|fuel IH];
    intros frontier st Hlen Hfr Hfuel Hclos Hsup Hfrs;
    [lia|].
  destruct frontier as [|q rest]; simpl.
  { split; [apply extends_refl|]. split; [|exact Hsup].
    intros q j Hq Hc Hj. destruct (Hclos q j Hq Hc Hj) as [H|H]; [exact H|].
    now apply elem_of_nil in H. }
  assert (Hqn : (q < n)%nat) by (apply Hfr, list_elem_of_here).
  assert (Hrest : forall q', q' ∈ rest -> (q' < n)%nat).
  { intros q' Hq'. apply Hfr. now apply list_elem_of_further. }
  destruct (st !! q) as [m|] eqn:Hq;
    [|apply lookup_ge_None in Hq; lia].
  destruct (is_cluster m) eqn:Hm.
  - (* the point has a cluster already *)
    destruct m as [| |k]; try discriminate.
    apply IH; try assumption.
    + simpl in Hfuel. lia.
    + intros p j Hp Hc Hj. destruct (Hclos p j Hp Hc Hj) as [H|H]; [now left|].
      apply elem_of_cons in H as [->|H]; [left; now exists k|now right].
    + intros p Hp. apply Hfrs. now apply list_elem_of_further.
  - (* the point joins the cluster *)
    set (st2 := <[q := Cluster c]> st).
    assert (Hnot : forall k', ~ has st k' q).
    { intros k' Hk'. unfold has in Hk'. rewrite Hq in Hk'.
      injection Hk' as ->. discriminate. }
    assert (Hq2 : has st2 c q).
    { unfold has, st2. apply list_lookup_insert_eq. lia. }
    assert (Hmono : forall k j, has st k j -> has st2 k j).
    { intros k j. now apply has_insert_other. }
    assert (Hlen2 : length st2 = n) by (unfold st2; now rewrite length_insert).
    assert (Hun : S (unassigned st2) = unassigned st)
      by (now apply (unassigned_insert st q m c)).
    assert (Hsup2 : forall j, has st2 c j -> reach (has st2 c) s j).
    { intros j Hj. apply has_insert_inv in Hj as [[-> _]|[_ Hj]].
      - eapply reach_mono; [apply Hmono|]. apply Hfrs, list_elem_of_here.
      - eapply reach_mono; [apply Hmono|]. now apply Hsup. }
    assert (Hfrs2 : forall p, p ∈ rest -> reach (has st2 c) s p).
    { intros p Hp. eapply reach_mono; [apply Hmono|].
      apply Hfrs. now apply list_elem_of_further. }
    assert (Hgoal : forall frontier',
      (forall p, p ∈ frontier' -> (p < n)%nat) ->
      (unassigned st2 * S n + length frontier' < fuel)%nat ->
      (forall p, p ∈ rest -> p ∈ frontier') ->
      (core q = true -> forall j, j ∈ nbrs q -> j ∈ frontier') ->
      (forall p, p ∈ frontier' -> reach (has st2 c) s p) ->
      extends c st (expand nbrs core fuel c frontier' st2)
      /\ (forall p j, has (expand nbrs core fuel c frontier' st2) c p ->
            core p = true -> j ∈ nbrs p ->
            exists k', has (expand nbrs core fuel c frontier' st2) k' j)
      /\ (forall j, has (expand nbrs core fuel c frontier' st2) c j ->
            reach (has (expand nbrs core fuel c frontier' st2) c) s j)).
    { intros frontier' Hb Hf Hin Hnb Hr.
      destruct (IH frontier' st2 Hlen2 Hb Hf) as (Hext & Hcl & Hs);
        try assumption.
      - intros p j Hp Hc Hj. apply has_insert_inv in Hp as [[-> _]|[Hne Hp]].
        + right. now apply Hnb.
        + destruct (Hclos p j Hp Hc Hj) as [[k' Hk']|H].
          * left. exists k'. now apply Hmono.
          * apply elem_of_cons in H as [->|H]; [left; now exists c|].
            right. now apply Hin.
      - split; [|split; assumption].
        eapply extends_insert; eassumption. }
    assert (Hstep : match m with
                    | Cluster _ => False
                    | _ => True
                    end) by (destruct m; [exact I|exact I|discriminate]).
    assert (Hbranch :
      extends c st
        (if core q then expand nbrs core fuel c (rest ++ nbrs q) st2
         else expand nbrs core fuel c rest st2)
      /\ (forall p j,
            has (if core q then expand nbrs core fuel c (rest ++ nbrs q) st2
                 else expand nbrs core fuel c rest st2) c p ->
            core p = true -> j ∈ nbrs p ->
            exists k',
              has (if core q then expand nbrs core fuel c (rest ++ nbrs q) st2
                   else expand nbrs core fuel c rest st2) k' j)
      /\ (forall j,
            has (if core q then expand nbrs core fuel c (rest ++ nbrs q) st2
                 else expand nbrs core fuel c rest st2) c j ->
            reach
              (has (if core q then expand nbrs core fuel c (rest ++ nbrs q) st2
                    else expand nbrs core fuel c rest st2) c) s j)).
    { destruct (core q) eqn:Hcq.
      - apply Hgoal.
        + intros p Hp. apply elem_of_app in Hp as [Hp|Hp]; [now apply Hrest|].
          eapply nbrs_bound, Hp.
        + rewrite length_app. pose proof (nbrs_length q). simpl in Hfuel. nia.
        + intros p Hp. apply elem_of_app. now left.
        + intros _ j Hj. apply elem_of_app. now right.
        + intros p Hp. apply elem_of_app in Hp as [Hp|Hp]; [now apply Hfrs2|].
          eapply reach_step; [apply Hsup2, Hq2|exact Hcq|exact Hq2|exact Hp].
      - apply Hgoal; try assumption.
        + simpl in Hfuel. nia.
        + auto.
        + discriminate. }
    destruct m; [exact Hbranch|exact Hbranch|discriminate].
Qed.

Lemma seed_unique st k s s' : seed st k s -> seed st k s' -> s = s'.
Proof.
  intros (Hc & Hs & Hmin) (Hc' & Hs' & Hmin').
  specialize (Hmin _ Hc' Hs'). specialize (Hmin' _ Hc Hs). lia.
Qed.

Lemma seed_ext st st' k s :
  (forall q, has st k q <-> has st' k q) -> seed st k s -> seed st' k s.
Proof.
  intros Hext (Hc & Hs & Hmin). split; [exact Hc|].
  split; [now apply Hext|].
  intros q Hq Hk. apply Hmin; [exact Hq|now apply Hext].
Qed.

Lemma scan_inv_init : scan_inv 0 0 (replicate n Unlabeled).
Proof.
  assert (Hno : forall k j, ~ has (replicate n Unlabeled) k j).
  { intros k j Hj. unfold has in Hj.
    apply lookup_replicate in Hj as [Hj _]. discriminate. }
  split.
  - apply length_replicate.
  - lia.
  - lia.
  - intros j Hnoise. apply lookup_replicate in Hnoise as [Hnoise _].
    discriminate.
  - intros j k Hj. exfalso. eapply Hno, Hj.
  - intros q j k Hq. exfalso. eapply Hno, Hq.
  - intros j k Hj. exfalso. eapply Hno, Hj.
  - lia.
  - intros k k' s s' (_ & Hs & _). exfalso. eapply Hno, Hs.
Qed.

Lemma scan_inv_skip i c st :
  scan_inv i c st -> st !! i <> Some Unlabeled -> scan_inv (S i) c st.
Proof.
  intros [Hlen Hc Hvis Hnoise Hrange Hclosed Hsup Hseeds Hord] Hi.
  split; try assumption.
  - intros j Hj. destruct (decide (j = i)) as [->|Hne]; [exact Hi|].
    apply Hvis. lia.
  - intros k Hk. destruct (Hseeds k Hk) as (s & Hs & Hseed).
    exists s. split; [lia|exact Hseed].
Qed.

Lemma scan_inv_noise i c st :
  scan_inv i c st -> st !! i = Some Unlabeled -> core i = false ->
  scan_inv (S i) c (<[i := Noise]> st).
Proof.
  intros [Hlen Hc Hvis Hnoise Hrange Hclosed Hsup Hseeds Hord] Hi Hcore.
  assert (Hhas : forall k j, has (<[i := Noise]> st) k j <-> has st k j).
  { intros k j. unfold has. destruct (decide (j = i)) as [->|Hne].
    - rewrite list_lookup_insert_eq by (eapply lookup_lt_Some, Hi).
      rewrite Hi. split; discriminate.
    - now rewrite list_lookup_insert_ne. }
  assert (Hseed : forall k s, seed (<[i := Noise]> st) k s <-> seed st k s).
  { intros k s. split; apply seed_ext; intros q; [|symmetry]; apply Hhas. }
  split.
  - now rewrite length_insert.
  - exact Hc.
  - intros j Hj. destruct (decide (j = i)) as [->|Hne].
    + rewrite list_lookup_insert_eq by (eapply lookup_lt_Some, Hi).
      discriminate.
    + rewrite list_lookup_insert_ne by congruence. apply Hvis. lia.
  - intros j Hj. destruct (decide (j = i)) as [->|Hne]; [exact Hcore|].
    rewrite list_lookup_insert_ne in Hj by congruence. now apply Hnoise.
  - intros j k Hj. apply Hhas in Hj. eapply Hrange, Hj.
  - intros q j k Hq Hcq Hj. apply Hhas in Hq.
    destruct (Hclosed q j k Hq Hcq Hj) as (k' & Hk' & Hle).
    exists k'. split; [now apply Hhas|exact Hle].
  - intros j k Hj. apply Hhas in Hj.
    destruct (Hsup j k Hj) as (s & Hs & Hr).
    exists s. split; [now apply Hseed|].
    eapply reach_mono; [|exact Hr]. intros p. apply Hhas.
  - intros k Hk. destruct (Hseeds k Hk) as (s & Hs & Hsd).
    exists s. split; [lia|now apply Hseed].
  - intros k k' s s' Hs Hs'. apply Hseed in Hs, Hs'. now apply Hord.
Qed.

Lemma scan_inv_cluster i c st :
  scan_inv i c st -> st !! i = Some Unlabeled -> core i = true ->
  scan_inv (S i) (c + 1)
    (expand nbrs core (expand_fuel (length st)) c (nbrs i)
       (<[i := Cluster c]> st)).
Proof.
  intros [Hlen Hc Hvis Hnoise Hrange Hclosed Hsup Hseeds Hord] Hi Hcore.
  set (st1 := <[i := Cluster c]> st).
  set (st' := expand nbrs core (expand_fuel (length st)) c (nbrs i) st1).
  assert (Hin : (i < length st)%nat) by (eapply lookup_lt_Some, Hi).
  assert (Hnoc : forall j, ~ has st c j).
  { intros j Hj. apply Hrange in Hj. lia. }
  assert (Hi1 : has st1 c i) by (apply list_lookup_insert_eq, Hin).
  assert (Hst1 : forall j, has st1 c j -> j = i).
  { intros j Hj. apply has_insert_inv in Hj as [[-> _]|[_ Hj]];
      [reflexivity|]. now apply Hnoc in Hj. }
  assert (Hlen1 : length st1 = n) by (unfold st1; now rewrite length_insert).
  destruct (expand_spec c i (expand_fuel (length st)) (nbrs i) st1)
    as (Hext1 & Hcl & Hs); try assumption.
  { intros q Hq. eapply nbrs_bound, Hq. }
  { pose proof (unassigned_le st1) as Hu. pose proof (nbrs_length i).
    rewrite Hlen1 in Hu. rewrite Hlen. unfold expand_fuel. nia. }
  { intros q j Hq _ Hj. apply Hst1 in Hq. subst q. now right. }
  { intros j Hj. apply Hst1 in Hj. subst j. apply reach_seed. }
  { intros q Hq.
    eapply reach_step; [apply reach_seed|exact Hcore|exact Hi1|exact Hq]. }
  fold st' in Hext1, Hcl, Hs.
  assert (Hext : extends c st st').
  { eapply extends_insert; [exact Hi|reflexivity|exact Hext1]. }
  assert (HA : forall k j, has st k j -> has st' k j).
  { intros k j Hj. unfold has in *. destruct (Hext j) as [Heq|[_ [m [Hm Hcm]]]].
    - now rewrite Heq.
    - rewrite Hj in Hm. injection Hm as <-. discriminate. }
  assert (HB : forall k j, has st' k j -> k <> c -> has st k j).
  { intros k j Hj Hne. unfold has in *. destruct (Hext j) as [Heq|[Heq _]].
    - now rewrite <- Heq.
    - rewrite Hj in Heq. congruence. }
  assert (HC : forall j, has st' c j -> (i <= j)%nat \/ core j = false).
  { intros j Hj. unfold has in Hj. destruct (Hext j) as [Heq|[_ [m [Hm Hcm]]]].
    - rewrite Hj in Heq. symmetry in Heq. now apply Hnoc in Heq.
    - destruct m as [| |k]; [|right; now apply Hnoise|discriminate].
      left. destruct (decide (j < i)%nat) as [Hlt|Hge]; [|lia].
      now apply Hvis in Hlt. }
  assert (HD : has st' c i).
  { unfold has in *. destruct (Hext1 i) as [Heq|[Heq _]]; [|exact Heq].
    now rewrite Heq. }
  assert (Hrange' : forall j k, has st' k j -> 0 <= k < c + 1).
  { intros j k Hj. destruct (decide (k = c)) as [->|Hne]; [lia|].
    apply HB, Hrange in Hj; [lia|exact Hne]. }
  assert (Hseedc : seed st' c i).
  { split; [exact Hcore|]. split; [exact HD|].
    intros q Hq Hk. destruct (HC q Hk) as [Hle|Hnc]; [exact Hle|congruence]. }
  assert (Hseed : forall k s, k <> c -> seed st' k s <-> seed st k s).
  { intros k s Hne. split; apply seed_ext; intros q; split; intros Hq;
      try (now apply HA); now apply HB. }
  split.
  - unfold st'. rewrite expand_length. exact Hlen1.
  - lia.
  - intros j Hj Hun. destruct (decide (j = i)) as [->|Hne].
    + unfold has in HD. congruence.
    + destruct (Hext j) as [Heq|[Heq _]]; [|congruence].
      rewrite Heq in Hun. apply Hvis in Hun; [exact Hun|lia].
  - intros j Hj. destruct (Hext j) as [Heq|[Heq _]]; [|congruence].
    rewrite Heq in Hj. now apply Hnoise.
  - exact Hrange'.
  - intros q j k Hq Hcq Hj. destruct (decide (k = c)) as [->|Hne].
    + destruct (Hcl q j Hq Hcq Hj) as [k' Hk'].
      exists k'. split; [exact Hk'|]. apply Hrange' in Hk'. lia.
    + destruct (Hclosed q j k (HB _ _ Hq Hne) Hcq Hj) as (k' & Hk' & Hle).
      exists k'. split; [now apply HA|exact Hle].
  - intros j k Hj. destruct (decide (k = c)) as [->|Hne].
    + exists i. split; [exact Hseedc|now apply Hs].
    + destruct (Hsup j k (HB _ _ Hj Hne)) as (s & Hsd & Hr).
      exists s. split; [now apply Hseed|].
      eapply reach_mono; [|exact Hr]. intros p. apply HA.
  - intros k Hk. destruct (decide (k = c)) as [->|Hne].
    + exists i. split; [lia|exact Hseedc].
    + destruct (Hseeds k) as (s & Hlt & Hsd); [lia|].
      exists s. split; [lia|now apply Hseed].
  - intros k k' s s' Hsd Hsd' Hlt.
    assert (Hk' : 0 <= k' < c + 1).
    { destruct Hsd' as (_ & Hh & _). eapply Hrange', Hh. }
    assert (Hk : 0 <= k < c + 1).
    { destruct Hsd as (_ & Hh & _). eapply Hrange', Hh. }
    assert (Hne : k <> c) by lia.
    apply Hseed in Hsd; [|exact Hne].
    destruct (decide (k' = c)) as [->|Hne'].
    + rewrite <- (seed_unique _ _ _ _ Hseedc Hsd').
      destruct (Hseeds k) as (s2 & Hs2 & Hsd2); [lia|].
      now rewrite (seed_unique _ _ _ _ Hsd Hsd2).
    + apply Hseed in Hsd'; [|exact Hne']. eapply Hord; eassumption.
Qed.

Lemma scan_spec m : forall i c st,
  (i + m = n)%nat -> scan_inv i c st ->
  exists c', scan_inv n c' (scan nbrs core (seq i m) c st).
Proof.
  induction m as [|m IH]; intros i c st Him Hinv.
  - simpl. exists c. assert (Hi : i = n) by lia.
    rewrite Hi in Hinv. exact Hinv.
  - cbn [seq scan].
    destruct (st !! i) as [[| |k]|] eqn:Hi.
    + destruct (core i) eqn:Hcore.
      * apply IH; [lia|]. now apply scan_inv_cluster.
      * apply IH; [lia|]. now apply scan_inv_noise.
    + apply IH; [lia|]. apply scan_inv_skip; [exact Hinv|congruence].
    + apply IH; [lia|]. apply scan_inv_skip; [exact Hinv|congruence].
    + apply IH; [lia|]. apply scan_inv_skip; [exact Hinv|congruence].
Qed.

Lemma label_has st j k :
  0 <= k -> (label_of <$> st) !! j = Some k <-> has st k j.
Proof.
  intros Hk. unfold has. rewrite list_lookup_fmap.
  destruct (st !! j) as [[| |k']|]; simpl; unfold noise;
    split; intros H; try discriminate; try (injection H as H; lia);
    congruence.
Qed.

Lemma first_core_seed st k s :
  0 <= k -> first_core (label_of <$> st) k s <-> seed st k s.
Proof.
  intros Hk. unfold first_core, seed. rewrite label_has by exact Hk.
  split; intros (Hc & Hs & Hmin); (split; [exact Hc|split; [exact Hs|]]);
    intros q Hq Hl; apply Hmin; try exact Hq; now apply label_has.
Qed.

Lemma scan_inv_reference c st :
  scan_inv n c st -> reference_labelling (label_of <$> st).
Proof.
  intros [Hlen Hc Hvis Hnoise Hrange Hclosed Hsup Hseeds Hord].
  assert (Hcore : forall i l,
            core i = true -> (label_of <$> st) !! i = Some l ->
            has st l i).
  { intros i l Hi Hl. unfold has.
    assert (Hin : (i < n)%nat).
    { apply lookup_lt_Some in Hl. rewrite length_fmap in Hl. lia. }
    rewrite list_lookup_fmap in Hl.
    destruct (st !! i) as [[| |k]|] eqn:Hsti; simpl in Hl; try discriminate.
    - now apply Hvis in Hsti.
    - apply Hnoise in Hsti. congruence.
    - congruence. }
  split.
  - now rewrite length_fmap.
  - intros j l Hl. rewrite list_lookup_fmap in Hl.
    destruct (st !! j) as [[| |k]|] eqn:Hj; simpl in Hl; try discriminate;
      injection Hl as <-; unfold noise; try lia.
    apply Hrange in Hj. lia.
  - intros i l Hi Hl. apply Hcore in Hl; [|exact Hi]. apply Hrange in Hl. lia.
  - intros i j li Hi Hj Hl. apply Hcore in Hl; [|exact Hi].
    destruct (Hclosed i j li Hl Hi Hj) as (k' & Hk' & Hle).
    assert (H0 : 0 <= k') by (apply Hrange in Hk'; lia).
    exists k'. split; [now apply label_has|lia].
  - intros j k Hj Hk. apply label_has in Hj; [|exact Hk].
    destruct (Hsup j k Hj) as (s & Hs & Hr).
    exists s. split; [now apply first_core_seed|].
    eapply reach_mono; [|exact Hr]. intros p Hp. now apply label_has.
  - intros k k' s s' Hk Hs Hs' Hlt.
    apply first_core_seed in Hs; [|lia]. apply first_core_seed in Hs'; [|lia].
    eapply Hord; eassumption.
  - intros j k k' Hj Hk'. apply label_has in Hj; [|lia].
    apply Hrange in Hj. destruct (Hseeds k') as (s & _ & _ & Hs & _); [lia|].
    exists s. apply label_has; [lia|exact Hs].
Qed.

Lemma scan_reference :
  reference_labelling
    (label_of <$> scan nbrs core (seq 0 n) 0 (replicate n Unlabeled)).
Proof.
  destruct (scan_spec n 0%nat 0 (replicate n Unlabeled)) as [c Hc];
    [lia|apply scan_inv_init|].
  eapply scan_inv_reference, Hc.
Qed.

(** *** The labelling is determined by these properties *)

Hypothesis nbrs_sym : forall i j, j ∈ nbrs i -> i ∈ nbrs j.

Lemma first_core_unique L k s s' :
  first_core L k s -> first_core L k s' -> s = s'.
Proof.
  intros (Hc & Hs & Hmin) (Hc' & Hs' & Hmin').
  specialize (Hmin _ Hc' Hs'). specialize (Hmin' _ Hc Hs). lia.
Qed.

Lemma ref_lookup L j :
  reference_labelling L -> (j < n)%nat -> exists l, L !! j = Some l.
Proof.
  intros HL Hj. apply lookup_lt_is_Some. now rewrite (ref_length _ HL).
Qed.

Lemma ref_bound L j l :
  reference_labelling L -> L !! j = Some l -> (j < n)%nat.
Proof.
  intros HL Hj. apply lookup_lt_Some in Hj. now rewrite (ref_length _ HL) in Hj.
Qed.

Lemma reference_noise L j :
  reference_labelling L -> (j < n)%nat ->
  L !! j = Some noise
  <-> core j = false /\ forall i, core i = true -> j ∉ nbrs i.
Proof.
  intros HL Hj. destruct (ref_lookup L j HL Hj) as [l Hl]. split.
  - intros Hn. split.
    + destruct (core j) eqn:Hc; [|reflexivity].
      pose proof (ref_core _ HL j noise Hc Hn) as H0. unfold noise in H0. lia.
    + intros i Hi Hin.
      destruct (ref_lookup L i HL) as [li Hli];
        [eapply nbrs_bound, nbrs_sym, Hin|].
      destruct (ref_first _ HL i j li Hi Hin Hli) as (lj & Hlj & H0).
      rewrite Hn in Hlj. injection Hlj as <-. unfold noise in H0. lia.
  - intros [Hc Hno]. rewrite Hl. f_equal.
    pose proof (ref_label _ HL j l Hl) as Hge.
    destruct (decide (0 <= l)) as [H0|H0]; [|unfold noise; lia].
    exfalso. destruct (ref_reach _ HL j l Hl H0) as (s & (Hcs & _) & Hr).
    destruct Hr as [|p j Hp Hcp Hlp Hjp]; [congruence|].
    exact (Hno p Hcp Hjp).
Qed.

Lemma adjacent_cores_agree L i j l :
  reference_labelling L -> core i = true -> core j = true -> j ∈ nbrs i ->
  L !! i = Some l -> L !! j = Some l.
Proof.
  intros HL Hi Hj Hij Hl.
  destruct (ref_first _ HL i j l Hi Hij Hl) as (lj & Hlj & Hle).
  destruct (ref_first _ HL j i lj Hj (nbrs_sym _ _ Hij) Hlj)
    as (li & Hli & Hle').
  rewrite Hl in Hli. injection Hli as <-.
  rewrite Hlj. f_equal. lia.
Qed.

Lemma reach_agree (L L' : list Z) (k : Z) s j l :
  reference_labelling L' ->
  reach (fun p => L !! p = Some k) s j ->
  core j = true -> L' !! s = Some l -> L' !! j = Some l.
Proof.
  intros HL'. induction 1 as [|p j Hp IH Hcp Hlp Hj]; intros Hcj Hs;
    [exact Hs|].
  eapply adjacent_cores_agree; [exact HL'|exact Hcp|exact Hcj|exact Hj|].
  now apply IH.
Qed.

Lemma same_cluster_transfer L L' i i' k l :
  reference_labelling L -> reference_labelling L' ->
  core i = true -> core i' = true ->
  L !! i = Some k -> L !! i' = Some k ->
  L' !! i = Some l -> L' !! i' = Some l.
Proof.
  intros HL HL' Hi Hi' Hk Hk' Hl.
  assert (H0 : 0 <= k) by exact (ref_core L HL i k Hi Hk).
  destruct (ref_reach _ HL i k Hk H0) as (s & Hs & Hr).
  destruct (ref_reach _ HL i' k Hk' H0) as (s' & Hs' & Hr').
  rewrite <- (first_core_unique _ _ _ _ Hs Hs') in Hr'.
  destruct Hs as (Hcs & Hls & _).
  destruct (ref_lookup L' s HL') as [ls Hls'];
    [exact (ref_bound L s k HL Hls)|].
  assert (Hi2 := reach_agree L L' k s i ls HL' Hr Hi Hls').
  rewrite Hl in Hi2. injection Hi2 as ->.
  exact (reach_agree L L' k s i' ls HL' Hr' Hi' Hls').
Qed.

Lemma first_core_transfer L L' k l s :
  reference_labelling L -> reference_labelling L' ->
  first_core L k s -> L' !! s = Some l -> first_core L' l s.
Proof.
  intros HL HL' (Hc & Hs & Hmin) Hl.
  split; [exact Hc|]. split; [exact Hl|].
  intros q Hq Hlq. apply Hmin; [exact Hq|].
  exact (same_cluster_transfer L' L s q l k HL' HL Hc Hq Hl Hlq Hs).
Qed.

Lemma order_transfer L L' i1 i2 k1 k2 l1 l2 :
  reference_labelling L -> reference_labelling L' ->
  core i1 = true -> core i2 = true ->
  L !! i1 = Some k1 -> L !! i2 = Some k2 ->
  L' !! i1 = Some l1 -> L' !! i2 = Some l2 ->
  k1 < k2 -> l1 < l2.
Proof.
  intros HL HL' Hc1 Hc2 Hk1 Hk2 Hl1 Hl2 Hlt.
  assert (H1 : 0 <= k1) by exact (ref_core L HL i1 k1 Hc1 Hk1).
  assert (H2 : 0 <= k2) by exact (ref_core L HL i2 k2 Hc2 Hk2).
  destruct (ref_reach _ HL i1 k1 Hk1 H1) as (s1 & Hs1 & _).
  destruct (ref_reach _ HL i2 k2 Hk2 H2) as (s2 & Hs2 & _).
  assert (Hlt' := ref_order _ HL _ _ _ _ H1 Hs1 Hs2 Hlt).
  assert (Hs1' : first_core L' l1 s1).
  { apply (first_core_transfer L L' k1 l1 s1 HL HL' Hs1).
    destruct Hs1 as (Hcs & Hls & _).
    exact (same_cluster_transfer L L' i1 s1 k1 l1 HL HL' Hc1 Hcs Hk1 Hls Hl1). }
  assert (Hs2' : first_core L' l2 s2).
  { apply (first_core_transfer L L' k2 l2 s2 HL HL' Hs2).
    destruct Hs2 as (Hcs & Hls & _).
    exact (same_cluster_transfer L L' i2 s2 k2 l2 HL HL' Hc2 Hcs Hk2 Hls Hl2). }
  assert (H2' : 0 <= l2) by exact (ref_core L' HL' i2 l2 Hc2 Hl2).
  destruct (Z.lt_trichotomy l1 l2) as [Hl|[Heq|Hgt]]; [exact Hl| |].
  - subst l2. pose proof (first_core_unique _ _ _ _ Hs1' Hs2'). lia.
  - pose proof (ref_order _ HL' _ _ _ _ H2' Hs2' Hs1' Hgt). lia.
Qed.

Lemma core_label_le L L' :
  reference_labelling L -> reference_labelling L' ->
  forall k, 0 <= k -> forall i l,
    core i = true -> L !! i = Some k -> L' !! i = Some l -> k <= l.
Proof.
  intros HL HL'. apply (natlike_ind (fun k => forall i l,
    core i = true -> L !! i = Some k -> L' !! i = Some l -> k <= l)).
  - intros i l Hi _ Hl. exact (ref_core L' HL' i l Hi Hl).
  - intros k Hk IH i l Hi Hki Hl.
    destruct (ref_ids _ HL i (Z.succ k) k Hki) as [j Hj]; [lia|].
    destruct (ref_reach _ HL j k Hj Hk) as (s & (Hcs & Hls & _) & _).
    destruct (ref_lookup L' s HL') as [ls Hls'];
      [exact (ref_bound L s k HL Hls)|].
    specialize (IH s ls Hcs Hls Hls').
    assert (ls < l); [|lia].
    apply (order_transfer L L' s i k (Z.succ k) ls l HL HL' Hcs Hi Hls Hki
             Hls' Hl). lia.
Qed.

Lemma core_label_eq L L' i k l :
  reference_labelling L -> reference_labelling L' ->
  core i = true -> L !! i = Some k -> L' !! i = Some l -> k = l.
Proof.
  intros HL HL' Hi Hk Hl.
  assert (Hk0 : 0 <= k) by exact (ref_core L HL i k Hi Hk).
  assert (Hl0 : 0 <= l) by exact (ref_core L' HL' i l Hi Hl).
  pose proof (core_label_le L L' HL HL' k Hk0 i l Hi Hk Hl).
  pose proof (core_label_le L' L HL' HL l Hl0 i k Hi Hl Hk).
  lia.
Qed.

Lemma border_label_le L L' j k l :
  reference_labelling L -> reference_labelling L' ->
  core j = false -> L !! j = Some k -> 0 <= k -> L' !! j = Some l ->
  0 <= l <= k.
Proof.
  intros HL HL' Hj Hk H0 Hl.
  destruct (ref_reach _ HL j k Hk H0) as (s & (Hcs & _) & Hr).
  destruct Hr as [|p j Hp Hcp Hlp Hjp]; [congruence|].
  destruct (ref_lookup L' p HL') as [lp Hlp'];
    [exact (ref_bound L p k HL Hlp)|].
  rewrite <- (core_label_eq L L' p k lp HL HL' Hcp Hlp Hlp') in Hlp'.
  destruct (ref_first _ HL' p j k Hcp Hjp Hlp') as (lj & Hlj & Hle).
  congruence.
Qed.

Theorem reference_labelling_unique L L' :
  reference_labelling L -> reference_labelling L' -> L = L'.
Proof.
  intros HL HL'. apply list_eq. intros j.
  destruct (decide (j < n)%nat) as [Hj|Hj].
  - destruct (ref_lookup L j HL Hj) as [k Hk].
    destruct (ref_lookup L' j HL' Hj) as [l Hl].
    rewrite Hk, Hl. f_equal.
    destruct (core j) eqn:Hc;
      [exact (core_label_eq L L' j k l HL HL' Hc Hk Hl)|].
    pose proof (ref_label _ HL _ _ Hk) as Hk1.
    pose proof (ref_label _ HL' _ _ Hl) as Hl1.
    destruct (decide (0 <= k)) as [Hk0|Hk0].
    + pose proof (border_label_le L L' j k l HL HL' Hc Hk Hk0 Hl) as [Hl0 Hle].
      pose proof (border_label_le L' L j l k HL' HL Hc Hl Hl0 Hk). lia.
    + destruct (decide (0 <= l)) as [Hl0|Hl0]; [|lia].
      pose proof (border_label_le L' L j l k HL' HL Hc Hl Hl0 Hk). lia.
  - rewrite !lookup_ge_None_2; [reflexivity| |].
    + rewrite (ref_length _ HL'). lia.
    + rewrite (ref_length _ HL). lia.
Qed.

End Expansion.

(** ** Neighbourhoods of the pixel array *)

Section Neighbourhoods.

Import Clusterer.

Variable pts : list point.
Variable eps : Q.

Lemma sqdist_sym p q : (sqdist p q == sqdist q p)%Q.
Proof. unfold sqdist. ring. Qed.

Lemma sqdist_self p : (sqdist p p == 0)%Q.
Proof. unfold sqdist. ring. Qed.

Lemma square_nonneg (x : Q) : (0 <= x * x)%Q.
Proof.
  destruct (Qlt_le_dec x 0) as [Hneg|Hpos].
  - assert (Heq : (x * x == (- x) * (- x))%Q) by ring.
    rewrite Heq. apply Qmult_le_0_compat; lra.
  - now apply Qmult_le_0_compat.
Qed.

Lemma sqdist_nonneg p q : (0 <= sqdist p q)%Q.
Proof.
  unfold sqdist.
  pose proof (square_nonneg (chan_r p - chan_r q)).
  pose proof (square_nonneg (chan_g p - chan_g q)).
  pose proof (square_nonneg (chan_b p - chan_b q)).
  lra.
Qed.

Lemma within_spec p q :
  within eps p q = true <-> (sqdist p q <= eps * eps)%Q.
Proof. unfold within. apply Qle_bool_iff. Qed.

(** With [d] the distance of [p] and [q], the test is [d <= eps]. *)
Lemma within_distance p q d :
  (0 <= eps)%Q -> (0 <= d)%Q -> (d * d == sqdist p q)%Q ->
  within eps p q = true <-> (d <= eps)%Q.
Proof.
  intros Heps Hd Hdd. rewrite within_spec, <- Hdd. split.
  - intros Hle. destruct (Qlt_le_dec eps d) as [Hlt|Hge]; [|exact Hge].
    exfalso. nra.
  - intros Hle. nra.
Qed.

Lemma NeighborIndex_elem p j :
  j ∈ NeighborIndex pts eps p
  <-> exists q, pts !! j = Some q /\ (sqdist p q <= eps * eps)%Q.
Proof.
  unfold NeighborIndex. rewrite list_elem_of_In, filter_In, in_seq. split.
  - intros [_ Hj]. destruct (pts !! j) as [q|]; [|discriminate].
    exists q. split; [reflexivity|now apply within_spec].
  - intros (q & Hq & Hle). split.
    + apply lookup_lt_Some in Hq. lia.
    + rewrite Hq. now apply within_spec.
Qed.

Lemma neighbourhoods_adjacent i j :
  j ∈ neighbourhoods pts eps i <-> adjacent pts eps i j.
Proof.
  unfold neighbourhoods, adjacent. destruct (pts !! i) as [p|].
  - rewrite NeighborIndex_elem. split.
    + intros (q & Hq & Hle). now exists p, q.
    + intros (p' & q & Hp & Hq & Hle). injection Hp as <-. now exists q.
  - rewrite elem_of_nil. split; [tauto|]. intros (p & q & Hp & _).
    discriminate.
Qed.

Lemma adjacent_sym i j : adjacent pts eps i j -> adjacent pts eps j i.
Proof.
  intros (p & q & Hp & Hq & Hle). exists q, p.
  split; [exact Hq|]. split; [exact Hp|]. now rewrite sqdist_sym.
Qed.

Lemma adjacent_self i p : pts !! i = Some p -> adjacent pts eps i i.
Proof.
  intros Hp. exists p, p. split; [exact Hp|]. split; [exact Hp|].
  rewrite sqdist_self. apply square_nonneg.
Qed.

Lemma neighbourhoods_bound i j :
  j ∈ neighbourhoods pts eps i -> (j < length pts)%nat.
Proof.
  intros Hj. apply neighbourhoods_adjacent in Hj as (p & q & _ & Hq & _).
  eapply lookup_lt_Some, Hq.
Qed.

Lemma neighbourhoods_length i :
  (length (neighbourhoods pts eps i) <= length pts)%nat.
Proof.
  unfold neighbourhoods, NeighborIndex. destruct (pts !! i); [|simpl; lia].
  etransitivity; [apply List.filter_length_le|]. now rewrite length_seq.
Qed.

Lemma neighbourhoods_sym i j :
  j ∈ neighbourhoods pts eps i -> i ∈ neighbourhoods pts eps j.
Proof. rewrite !neighbourhoods_adjacent. apply adjacent_sym. Qed.

Lemma neighbourhoods_NoDup i : NoDup (neighbourhoods pts eps i).
Proof.
  unfold neighbourhoods, NeighborIndex. destruct (pts !! i); [|constructor].
  apply NoDup_ListNoDup, List.NoDup_filter, List.seq_NoDup.
Qed.

Lemma is_core_core_point min_samples i :
  is_core pts eps min_samples i = true <-> core_point pts eps min_samples i.
Proof.
  unfold is_core, core_point. rewrite Z.leb_le. split.
  - intros Hle. exists (neighbourhoods pts eps i).
    split; [apply neighbourhoods_NoDup|].
    split; [apply neighbourhoods_adjacent|exact Hle].
  - intros (N & Hnd & Hadj & Hle).
    assert (Hperm : N ≡ₚ neighbourhoods pts eps i).
    { apply NoDup_Permutation; [exact Hnd|apply neighbourhoods_NoDup|].
      intros j. now rewrite Hadj, neighbourhoods_adjacent. }
    now rewrite <- Hperm.
Qed.

End Neighbourhoods.

(** ** The pixel array, the shares and the grid of the page *)

Section PixelArray.


Lemma reshape_3_elem (a : image_array) px :
  px ∈ reshape_3 a <-> exists row, row ∈ a /\ px ∈ row.
Proof.
  unfold reshape_3. rewrite list_elem_of_In, in_concat.
  split; intros (row & H1 & H2); exists row;
    split; apply list_elem_of_In; assumption.
Qed.








End PixelArray.

Section Shares.




Lemma occurrences_le k labels : occurrences k labels <= Z.of_nat (length labels).
Proof.
  unfold occurrences. apply inj_le, List.filter_length_le.
Qed.

Lemma aggregate_count_bounds pixels labels s :
  s ∈ aggregate pixels labels -> 1 <= s_count s <= Z.of_nat (length labels).
Proof.
  unfold aggregate. intros Hs.
  apply list_elem_of_fmap in Hs as [k [-> Hk]].
  apply unique_labels_elem in Hk as [Hk _].
  unfold summarize, s_count. simpl. rewrite np_sum_mask.
  split; [now apply occurrences_pos|apply occurrences_le].
Qed.




Lemma below_mono pct m1 m2 :
  (m1 <= m2)%Q -> below pct m1 = true -> below pct m2 = true.
Proof.
  unfold below. intros Hm. rewrite !negb_true_iff.
  intros H1. destruct (Qle_bool m2 pct) eqn:H2; [|reflexivity].
  apply Qle_bool_iff in H2.
  assert (H : Qle_bool m1 pct = true) by (apply Qle_bool_iff; lra).
  congruence.
Qed.



Lemma aggregate_nil pixels labels :
  aggregate pixels labels = [] <-> Forall (fun l => l = noise) labels.
Proof.
  unfold aggregate.
  assert (Hiff : summarize pixels labels <$> unique_labels labels = []
                 <-> unique_labels labels = []).
  { destruct (unique_labels labels); csimpl; split; intros H;
      try reflexivity; discriminate. }
  rewrite Hiff. split.
  - intros Hnil. apply Forall_forall. intros l Hl.
    destruct (Z.eq_dec l noise) as [Heq|Hne]; [exact Heq|].
    assert (Hin : l ∈ unique_labels labels)
      by (apply unique_labels_elem; tauto).
    rewrite Hnil in Hin. now apply elem_of_nil in Hin.
  - intros Hall. destruct (unique_labels labels) as [|k ks] eqn:Hk;
      [reflexivity|].
    assert (Hin : k ∈ unique_labels labels)
      by (rewrite Hk; apply list_elem_of_here).
    apply unique_labels_elem in Hin as [Hin Hne].
    rewrite Forall_forall in Hall. now apply Hall in Hin.
Qed.

Lemma sorted_nil l : sorted_by_count_desc l = [] <-> l = [].
Proof.
  split; [|now intros ->].
  intros Hnil. apply Permutation_nil.
  rewrite <- Hnil. symmetry. apply sorted_by_count_desc_perm.
Qed.

End Shares.

Section Runs.

Variable pixels : list point.
Variable eps : Q.
Variable min_samples : Z.

Local Abbreviation labels := (Clusterer.cluster pixels eps min_samples).
Local Abbreviation ranked := (sorted_by_count_desc (aggregate pixels labels)).
Local Abbreviation total := (Z.of_nat (length pixels)).





Lemma ranked_sorted : StronglySorted count_ge ranked.
Proof. apply sorted_by_count_desc_sorted. Qed.

Lemma total_nonneg : 0 <= total.
Proof. lia. Qed.


End Runs.

Section Grid.

Local Open Scope nat_scope.

Variable cols : nat.
Hypothesis cols_pos : 0 < cols.

Lemma succ_div_mod v :
  (S v mod cols = S (v mod cols) /\ S v / cols = v / cols
   /\ S (v mod cols) < cols)
  \/ (S v mod cols = 0 /\ S v / cols = S (v / cols)
      /\ S (v mod cols) = cols).
Proof.
  pose proof (Nat.div_mod_eq v cols) as Hv.
  pose proof (Nat.mod_upper_bound v cols ltac:(lia)) as Hr.
  destruct (decide (S (v mod cols) < cols)) as [Hlt|Hge].
  - left. split; [|split; [|exact Hlt]].
    + symmetry. apply (Nat.mod_unique _ _ (v / cols)); lia.
    + symmetry. apply (Nat.div_unique _ _ _ (S (v mod cols))); lia.
  - right. split; [|split; [|lia]].
    + symmetry. apply (Nat.mod_unique _ _ (S (v / cols))); lia.
    + symmetry. apply (Nat.div_unique _ _ _ 0); lia.
Qed.

Lemma index_split j : j = cols * (j / cols) + j mod cols /\ j mod cols < cols.
Proof.
  split; [apply Nat.div_mod_eq|apply Nat.mod_upper_bound; lia].
Qed.

Lemma dealt_init : dealt cols [] (replicate cols []).
Proof.
  split; [apply length_replicate|]. split.
  - intros c column Hc. apply lookup_replicate in Hc as [-> _].
    simpl. rewrite Nat.Div0.div_0_l, Nat.Div0.mod_0_l. reflexivity.
  - intros j. rewrite lookup_replicate_2 by apply index_split. reflexivity.
Qed.

Lemma dealt_step shown grid x :
  dealt cols shown grid ->
  dealt cols (shown ++ [x])
    (alter (fun column => column ++ [x]) (length shown mod cols) grid).
Proof.
  intros (Hlen & Hcols & Hlook).
  set (v := length shown) in *.
  destruct (index_split v) as [Hv Hr].
  assert (Hgrid : exists column, grid !! (v mod cols) = Some column).
  { apply lookup_lt_is_Some. lia. }
  destruct Hgrid as [column Hcolumn].
  assert (Hq : length column = v / cols).
  { rewrite (Hcols _ _ Hcolumn), Nat.ltb_irrefl. lia. }
  assert (Hlen' : length (shown ++ [x]) = S v)
    by (rewrite length_app; simpl; lia).
  split; [now rewrite length_alter|]. split.
  - intros c col' Hc. rewrite Hlen'.
    assert (Hcn : c < cols).
    { apply lookup_lt_Some in Hc. rewrite length_alter in Hc. lia. }
    destruct (decide (c = v mod cols)) as [->|Hne].
    + rewrite list_lookup_alter_eq, Hcolumn in Hc. simpl in Hc.
      injection Hc as <-. rewrite length_app, Hq. simpl.
      destruct (succ_div_mod v) as [(Hm & Hd & Hlt)|(Hm & Hd & Heq)];
        rewrite Hm, Hd.
      * destruct (Nat.ltb_spec (v mod cols) (S (v mod cols))); lia.
      * simpl. lia.
    + rewrite list_lookup_alter_ne in Hc by congruence.
      rewrite (Hcols _ _ Hc).
      destruct (succ_div_mod v) as [(Hm & Hd & Hlt)|(Hm & Hd & Heq)];
        rewrite Hm, Hd.
      * destruct (Nat.ltb_spec c (v mod cols)),
                 (Nat.ltb_spec c (S (v mod cols))); lia.
      * destruct (Nat.ltb_spec c (v mod cols)); simpl; lia.
  - intros j. destruct (index_split j) as [Hj Hjr].
    specialize (Hlook j).
    destruct (decide (j mod cols = v mod cols)) as [Heq|Hne].
    + rewrite Heq, list_lookup_alter_eq, Hcolumn. simpl.
      rewrite Heq, Hcolumn in Hlook. simpl in Hlook.
      destruct (lt_eq_lt_dec (j / cols) (v / cols)) as [[Hlt|Hdiv]|Hgt].
      * rewrite lookup_app_l by lia. rewrite Hlook.
        symmetry. apply lookup_app_l. fold v. nia.
      * assert (Hjv : j = v) by nia.
        rewrite Hdiv, <- Hq, list_lookup_middle by reflexivity.
        rewrite Hjv. symmetry. now apply list_lookup_middle.
      * rewrite !lookup_ge_None_2; [reflexivity| |].
        -- rewrite Hlen'. nia.
        -- rewrite length_app. simpl. lia.
    + rewrite list_lookup_alter_ne by congruence. rewrite Hlook.
      assert (Hjv : j <> v) by congruence.
      destruct (decide (j < v)) as [Hlt|Hge].
      * symmetry. now apply lookup_app_l.
      * rewrite !lookup_ge_None_2; [reflexivity| |fold v; lia].
        rewrite Hlen'. lia.
Qed.

Lemma fill_grid_dealt color_counts total_pixels min_percentage :
  forall valid_count grid shown,
    length shown = valid_count -> dealt cols shown grid ->
    fst (fill_grid color_counts total_pixels min_percentage cols valid_count
           grid)
    = length (shown ++ cards color_counts total_pixels min_percentage)
    /\ dealt cols (shown ++ cards color_counts total_pixels min_percentage)
         (snd (fill_grid color_counts total_pixels min_percentage cols
                 valid_count grid)).
Proof.
  induction color_counts as [|s rest IH]; intros valid_count grid shown Hv Hd.
  - simpl. rewrite app_nil_r. split; [now symmetry|exact Hd].
  - simpl. destruct (below _ min_percentage).
    + now apply IH.
    + rewrite cons_middle, app_assoc. apply IH.
      * rewrite length_app. simpl. lia.
      * rewrite <- Hv. now apply dealt_step.
Qed.

Lemma render_grid_dealt color_counts total_pixels min_percentage :
  fst (render_grid color_counts total_pixels min_percentage cols)
  = length (cards color_counts total_pixels min_percentage)
  /\ dealt cols (cards color_counts total_pixels min_percentage)
       (snd (render_grid color_counts total_pixels min_percentage cols)).
Proof.
  unfold render_grid.
  apply (fill_grid_dealt color_counts total_pixels min_percentage 0
           (replicate cols []) []); [reflexivity|apply dealt_init].
Qed.

End Grid.

Section Codes.

Lemma hexdigit_inj a b :
  0 <= a < 16 -> 0 <= b < 16 -> hexdigit a = hexdigit b -> a = b.
Proof.
  intros Ha Hb.
  assert (Hall : forallb (fun x => forallb (fun y =>
            implb (Ascii.eqb (hexdigit (Z.of_nat x)) (hexdigit (Z.of_nat y)))
                  (Nat.eqb x y)) (seq 0 16)) (seq 0 16) = true)
    by (vm_compute; reflexivity).
  rewrite forallb_forall in Hall.
  specialize (Hall (Z.to_nat a)). rewrite forallb_forall in Hall.
  specialize (Hall ltac:(apply in_seq; lia) (Z.to_nat b)
                ltac:(apply in_seq; lia)).
  rewrite !Z2Nat.id in Hall by lia.
  intros Heq. rewrite Heq, Ascii.eqb_refl in Hall. simpl in Hall.
  apply Nat.eqb_eq in Hall. lia.
Qed.

Lemma hexdigit_to_upper d :
  0 <= d < 16 -> ascii_upper (hexdigit d) = hexdigit_upper d.
Proof.
  intros Hd.
  assert (Hall : forallb (fun x =>
            Ascii.eqb (ascii_upper (hexdigit (Z.of_nat x)))
                      (hexdigit_upper (Z.of_nat x))) (seq 0 16) = true)
    by (vm_compute; reflexivity).
  rewrite forallb_forall in Hall.
  specialize (Hall (Z.to_nat d) ltac:(apply in_seq; lia)).
  rewrite Z2Nat.id in Hall by lia. now apply Ascii.eqb_eq.
Qed.

Lemma hexdigit_upper_inj a b :
  0 <= a < 16 -> 0 <= b < 16 -> hexdigit_upper a = hexdigit_upper b -> a = b.
Proof.
  intros Ha Hb.
  assert (Hall : forallb (fun x => forallb (fun y =>
            implb (Ascii.eqb (hexdigit_upper (Z.of_nat x))
                             (hexdigit_upper (Z.of_nat y)))
                  (Nat.eqb x y)) (seq 0 16)) (seq 0 16) = true)
    by (vm_compute; reflexivity).
  rewrite forallb_forall in Hall.
  specialize (Hall (Z.to_nat a)). rewrite forallb_forall in Hall.
  specialize (Hall ltac:(apply in_seq; lia) (Z.to_nat b)
                ltac:(apply in_seq; lia)).
  rewrite !Z2Nat.id in Hall by lia.
  intros Heq. rewrite Heq, Ascii.eqb_refl in Hall. simpl in Hall.
  apply Nat.eqb_eq in Hall. lia.
Qed.

Lemma byte_digits n :
  is_byte n -> 0 <= n / 16 < 16 /\ 0 <= n mod 16 < 16.
Proof.
  unfold is_byte. intros Hn.
  pose proof (Z.mod_pos_bound n 16 ltac:(lia)).
  pose proof (Z.div_mod n 16 ltac:(lia)). lia.
Qed.

Lemma digits_byte n m :
  n / 16 = m / 16 -> n mod 16 = m mod 16 -> n = m.
Proof.
  intros Hd Hm.
  rewrite (Z.div_mod n 16), (Z.div_mod m 16) by lia. congruence.
Qed.

Lemma hex_of_bytes px :
  byte_pixel px ->
  hex_of px
  = String "#" (two_hex (fst (fst px)) ++ two_hex (snd (fst px))
                ++ two_hex (snd px)).
Proof.
  destruct px as [[r g] b]. intros (Hr & Hg & Hb). simpl in *.
  unfold hex_of. now rewrite !format_02x_byte by assumption.
Qed.

Lemma title_of_bytes px :
  byte_pixel px ->
  str_upper (hex_of px)
  = String "#" (two_hex_upper (fst (fst px)) ++ two_hex_upper (snd (fst px))
                ++ two_hex_upper (snd px)).
Proof.
  intros Hpx. rewrite (hex_of_bytes px Hpx).
  destruct px as [[r g] b]. destruct Hpx as (Hr & Hg & Hb). simpl in *.
  destruct (byte_digits _ Hr), (byte_digits _ Hg), (byte_digits _ Hb).
  unfold two_hex, two_hex_upper. simpl.
  rewrite !hexdigit_to_upper by assumption. reflexivity.
Qed.

End Codes.

Section Ranked.

Lemma insert_desc_head x l :
  Forall (count_ge x) l -> insert_desc x l = x :: l.
Proof.
  destruct l as [|y l]; [reflexivity|].
  intros Hl. apply Forall_cons in Hl as [Hy _]. simpl.
  unfold count_ge in Hy. destruct (Z.ltb_spec (s_count x) (s_count y));
    [lia|reflexivity].
Qed.

Lemma sorted_fixed l :
  StronglySorted count_ge l -> sorted_by_count_desc l = l.
Proof.
  induction 1 as [|x l Hl IH Hx]; [reflexivity|].
  simpl. rewrite IH. now apply insert_desc_head.
Qed.


End Ranked.

Section Centroids.






End Centroids.

(** ** Rounding to binary64 *)

Section Rounding.

Import Binary64.

Lemma pow2_pos e : (0 < pow2 e)%Q.
Proof. apply Qpower_0_lt. reflexivity. Qed.

Lemma pow2_add a b : (pow2 (a + b) == pow2 a * pow2 b)%Q.
Proof. apply Qpower_plus. discriminate. Qed.

Lemma pow2_le a b : a <= b -> (pow2 a <= pow2 b)%Q.
Proof. intros H. apply Qpower_le_compat_l; [exact H|discriminate]. Qed.

Lemma pow2_lt_inv a b : (pow2 a < pow2 b)%Q -> a < b.
Proof. intros H. eapply Qpower_lt_compat_l_inv; [exact H|reflexivity]. Qed.

Lemma pow2_inject k : 0 <= k -> (inject_Z (2 ^ k) == pow2 k)%Q.
Proof. intros H. unfold pow2. now rewrite Zpower_Qpower. Qed.

Lemma ilog2_spec x :
  (0 < x)%Q -> (pow2 (ilog2 x) <= x < pow2 (ilog2 x + 1))%Q.
Proof.
  intros Hx. destruct x as [n d]. unfold ilog2. cbn [Qnum Qden].
  assert (Hn : 0 < n) by (unfold Qlt in Hx; simpl in Hx; lia).
  set (a := Z.log2 n). set (b := Z.log2 (Z.pos d)).
  destruct (Z.log2_spec n Hn) as [Ha1 Ha2]. fold a in Ha1, Ha2.
  destruct (Z.log2_spec (Z.pos d) ltac:(lia)) as [Hb1 Hb2].
  fold b in Hb1, Hb2.
  assert (Ha0 : 0 <= a) by apply Z.log2_nonneg.
  assert (Hb0 : 0 <= b) by apply Z.log2_nonneg.
  assert (Hnd : (n # d == inject_Z n / inject_Z (Z.pos d))%Q)
    by apply Qmake_Qdiv.
  assert (Hdpos : (0 < inject_Z (Z.pos d))%Q) by reflexivity.
  (* n / d < 2^(a+1) / 2^b  and  2^a / 2^(b+1) < n / d *)
  assert (Hup : (n # d < pow2 (a - b + 1))%Q).
  { replace (a - b + 1) with ((a + 1) + - b) by lia.
    rewrite pow2_add. unfold pow2 at 2. rewrite Qpower_opp.
    fold (pow2 b). rewrite <- !pow2_inject by lia.
    rewrite Hnd. unfold Qdiv.
    apply Qle_lt_trans with (inject_Z n * / inject_Z (2 ^ b))%Q.
    - apply Qmult_le_l; [change 0%Q with (inject_Z 0); rewrite <- Zlt_Qlt; lia|].
      apply Qle_shift_inv_l.
      + change 0%Q with (inject_Z 0). rewrite <- Zlt_Qlt. lia.
      + rewrite Qmult_comm. apply Qle_shift_div_r; [exact Hdpos|].
        rewrite Qmult_1_l. rewrite <- Zle_Qle. exact Hb1.
    - apply Qmult_lt_r.
      + apply Qinv_lt_0_compat. change 0%Q with (inject_Z 0).
        rewrite <- Zlt_Qlt. lia.
      + rewrite <- Zlt_Qlt. lia. }
  assert (Hlow : (pow2 (a - b - 1) <= n # d)%Q).
  { replace (a - b - 1) with (a + - (b + 1)) by lia.
    rewrite pow2_add. unfold pow2 at 2. rewrite Qpower_opp.
    fold (pow2 (b + 1)). rewrite <- !pow2_inject by lia.
    rewrite Hnd. unfold Qdiv.
    apply Qle_trans with (inject_Z n * / inject_Z (2 ^ (b + 1)))%Q.
    - apply Qmult_le_r.
      + apply Qinv_lt_0_compat. change 0%Q with (inject_Z 0).
        rewrite <- Zlt_Qlt. lia.
      + rewrite <- Zle_Qle. exact Ha1.
    - apply Qmult_le_l; [change 0%Q with (inject_Z 0); rewrite <- Zlt_Qlt; lia|].
      apply Qle_shift_inv_l; [exact Hdpos|].
      rewrite Qmult_comm. apply Qle_shift_div_r.
      + change 0%Q with (inject_Z 0). rewrite <- Zlt_Qlt. lia.
      + rewrite Qmult_1_l. rewrite <- Zle_Qle. lia. }
  destruct (Qle_bool (pow2 (a - b)) (n # d)) eqn:Hle.
  - apply Qle_bool_iff in Hle. split; [exact Hle|exact Hup].
  - split; [exact Hlow|].
    replace (a - b - 1 + 1) with (a - b) by lia.
    apply Qnot_le_lt. intros H. apply Qle_bool_iff in H. congruence.
Qed.

Lemma ilog2_mono x y : (0 < x)%Q -> (x <= y)%Q -> ilog2 x <= ilog2 y.
Proof.
  intros Hx Hxy.
  destruct (ilog2_spec x Hx) as [Hx1 _].
  destruct (ilog2_spec y (Qlt_le_trans _ _ _ Hx Hxy)) as [_ Hy2].
  assert (H : (pow2 (ilog2 x) < pow2 (ilog2 y + 1))%Q).
  { eapply Qle_lt_trans; [exact Hx1|].
    eapply Qle_lt_trans; [exact Hxy|exact Hy2]. }
  apply pow2_lt_inv in H. lia.
Qed.

Lemma ilog2_unique x k :
  (pow2 k <= x < pow2 (k + 1))%Q -> ilog2 x = k.
Proof.
  intros [H1 H2].
  assert (Hx : (0 < x)%Q) by (eapply Qlt_le_trans; [apply pow2_pos|exact H1]).
  destruct (ilog2_spec x Hx) as [H3 H4].
  assert (Ha : (pow2 k < pow2 (ilog2 x + 1))%Q)
    by (eapply Qle_lt_trans; eassumption).
  assert (Hb : (pow2 (ilog2 x) < pow2 (k + 1))%Q)
    by (eapply Qle_lt_trans; eassumption).
  apply pow2_lt_inv in Ha, Hb. lia.
Qed.

Lemma rne_floor x : Qfloor x <= rne x <= Qfloor x + 1.
Proof.
  unfold rne. destruct (_ ?= _)%Q; [destruct (Z.even _)| |]; lia.
Qed.

Lemma rne_int z : rne (inject_Z z) = z.
Proof.
  unfold rne. rewrite Qfloor_Z.
  assert (H : (inject_Z z - inject_Z z ?= 1 # 2)%Q = Lt).
  { rewrite <- Qlt_alt. ring_simplify. reflexivity. }
  now rewrite H.
Qed.

Lemma rne_mono x y : (x <= y)%Q -> rne x <= rne y.
Proof.
  intros Hxy. pose proof (Qfloor_resp_le _ _ Hxy) as Hf.
  pose proof (rne_floor x) as Hx. pose proof (rne_floor y) as Hy.
  destruct (Z.eq_dec (Qfloor x) (Qfloor y)) as [E|N]; [|lia].
  unfold rne. rewrite E. set (f := inject_Z (Qfloor y)).
  destruct (Qcompare_spec (x - f) (1 # 2)) as [Cx|Cx|Cx],
           (Qcompare_spec (y - f) (1 # 2)) as [Cy|Cy|Cy];
    try destruct (Z.even (Qfloor y)); try lia; exfalso; lra.
Qed.

Lemma rne_near x : (Qabs (inject_Z (rne x) - x) <= 1 # 2)%Q.
Proof.
  pose proof (Qfloor_le x) as H1. pose proof (Qlt_floor x) as H2.
  rewrite inject_Z_plus in H2. change (inject_Z 1) with 1%Q in H2.
  unfold rne. set (f := inject_Z (Qfloor x)) in *.
  destruct (Qcompare_spec (x - f) (1 # 2)) as [C|C|C];
    [destruct (Z.even (Qfloor x))| |];
    rewrite ?inject_Z_plus; change (inject_Z 1) with 1%Q; fold f;
    apply Qabs_case; intros _; lra.
Qed.

Lemma rne_comp x y : (x == y)%Q -> rne x = rne y.
Proof.
  intros H. apply Z.le_antisymm; apply rne_mono; rewrite H; apply Qle_refl.
Qed.

Lemma fl_eq x : (fl x == inject_Z (rne (x / pow2 (cexp x))) * pow2 (cexp x))%Q.
Proof. unfold fl. apply Qred_correct. Qed.

Lemma cexp_pos x : (0 < x)%Q -> cexp x = Z.max emin (ilog2 x - (prec - 1)).
Proof.
  intros Hx. unfold cexp. f_equal. f_equal.
  apply ilog2_unique. rewrite Qabs_pos by lra. now apply ilog2_spec.
Qed.

Lemma cexp_mono x y : (0 < x)%Q -> (x <= y)%Q -> cexp x <= cexp y.
Proof.
  intros Hx Hxy. rewrite !cexp_pos by lra.
  pose proof (ilog2_mono x y Hx Hxy). lia.
Qed.

Lemma cexp_emin x : emin <= cexp x.
Proof. unfold cexp. lia. Qed.

Lemma scaled_nonneg x e : (0 <= x)%Q -> (0 <= x / pow2 e)%Q.
Proof.
  intros Hx. apply Qle_shift_div_l; [apply pow2_pos|]. now rewrite Qmult_0_l.
Qed.

Lemma fl_zero x : (x == 0)%Q -> (fl x == 0)%Q.
Proof.
  intros H. rewrite fl_eq.
  rewrite (rne_comp _ (inject_Z 0)); [rewrite rne_int; apply Qmult_0_l|].
  transitivity (0 / pow2 (cexp x))%Q; [|unfold Qdiv; apply Qmult_0_l].
  apply Qdiv_comp; [exact H|reflexivity].
Qed.

Lemma fl_nonneg x : (0 <= x)%Q -> (0 <= fl x)%Q.
Proof.
  intros Hx. rewrite fl_eq. apply Qmult_le_0_compat.
  - change 0%Q with (inject_Z 0). rewrite <- Zle_Qle.
    rewrite <- (rne_int 0). apply rne_mono. now apply scaled_nonneg.
  - apply Qlt_le_weak, pow2_pos.
Qed.

(** A value below [2^(e + 53)] is rounded to at most that. *)
Lemma fl_upper x :
  (0 < x)%Q -> (fl x <= pow2 (cexp x + prec))%Q.
Proof.
  intros Hx. rewrite fl_eq. set (e := cexp x).
  rewrite (Z.add_comm e), pow2_add.
  apply Qmult_le_compat_r; [|apply Qlt_le_weak, pow2_pos].
  rewrite <- (pow2_inject prec) by (unfold prec; lia).
  rewrite <- Zle_Qle. rewrite <- (rne_int (2 ^ prec)).
  apply rne_mono. rewrite (pow2_inject prec) by (unfold prec; lia).
  apply Qle_shift_div_r; [apply pow2_pos|].
  rewrite <- pow2_add.
  destruct (ilog2_spec x Hx) as [_ H]. apply Qlt_le_weak.
  eapply Qlt_le_trans; [exact H|]. apply pow2_le.
  unfold e. rewrite cexp_pos by exact Hx. unfold prec. lia.
Qed.

(** Above the subnormal range a value is rounded to at least the power of
    two below it. *)
Lemma fl_lower x :
  (0 < x)%Q -> emin < cexp x -> (pow2 (cexp x + (prec - 1)) <= fl x)%Q.
Proof.
  intros Hx He. rewrite fl_eq. set (e := cexp x) in *.
  rewrite (Z.add_comm e), pow2_add.
  apply Qmult_le_compat_r; [|apply Qlt_le_weak, pow2_pos].
  rewrite <- (pow2_inject (prec - 1)) by (unfold prec; lia).
  rewrite <- Zle_Qle. rewrite <- (rne_int (2 ^ (prec - 1))) at 1.
  apply rne_mono. rewrite (pow2_inject (prec - 1)) by (unfold prec; lia).
  apply Qle_shift_div_l; [apply pow2_pos|].
  rewrite <- pow2_add.
  destruct (ilog2_spec x Hx) as [H _].
  eapply Qle_trans; [|exact H]. apply pow2_le.
  unfold e in *. rewrite cexp_pos in * by exact Hx. unfold prec in *. lia.
Qed.

(** Rounding keeps the order. *)
Lemma fl_mono x y : (0 <= x)%Q -> (x <= y)%Q -> (fl x <= fl y)%Q.
Proof.
  intros Hx Hxy.
  destruct (Qlt_le_dec 0 x) as [Hpos|Hzero].
  - pose proof (cexp_mono x y Hpos Hxy) as He.
    destruct (Z.eq_dec (cexp x) (cexp y)) as [E|N].
    + rewrite !fl_eq, E.
      apply Qmult_le_compat_r; [|apply Qlt_le_weak, pow2_pos].
      rewrite <- Zle_Qle. apply rne_mono.
      apply Qmult_le_compat_r; [exact Hxy|].
      apply Qlt_le_weak, Qinv_lt_0_compat, pow2_pos.
    + eapply Qle_trans; [apply (fl_upper x Hpos)|].
      eapply Qle_trans; [|apply (fl_lower y)].
      * apply pow2_le. unfold prec. lia.
      * lra.
      * pose proof (cexp_emin x). lia.
  - rewrite (fl_zero x) by lra. apply fl_nonneg. lra.
Qed.

(** A value with a significand of at most 53 bits and an exponent in range
    is a binary64 value: rounding returns it. *)
Lemma fl_exact m e x :
  0 <= m <= 2 ^ prec -> emin <= e -> (x == inject_Z m * pow2 e)%Q ->
  (fl x == x)%Q.
Proof.
  intros Hm He Hx.
  destruct (Z.eq_dec m 0) as [->|Hm0].
  { rewrite Qmult_0_l in Hx. rewrite (fl_zero x Hx). now symmetry. }
  assert (Hpos : (0 < x)%Q).
  { rewrite Hx. apply Qmult_lt_0_compat; [|apply pow2_pos].
    change 0%Q with (inject_Z 0). rewrite <- Zlt_Qlt. lia. }
  rewrite fl_eq. set (c := cexp x).
  assert (Hint : exists k, (x / pow2 c == inject_Z k)%Q).
  { destruct (Z_le_gt_dec c e) as [Hce|Hce].
    - exists (m * 2 ^ (e - c)).
      rewrite inject_Z_mult, pow2_inject by lia.
      rewrite Hx. replace (e - c) with (e + - c) by lia.
      rewrite pow2_add. unfold pow2 at 4. rewrite Qpower_opp. fold (pow2 c).
      unfold Qdiv. ring.
    - (* the exponent is above [e] only for the significand [2^53] *)
      assert (Hm53 : m = 2 ^ prec).
      { destruct (Z.eq_dec m (2 ^ prec)) as [E|N]; [exact E|exfalso].
        assert (Hlt : (x < pow2 (prec + e))%Q).
        { rewrite Hx, pow2_add. apply Qmult_lt_r; [apply pow2_pos|].
          rewrite <- pow2_inject by (unfold prec; lia).
          rewrite <- Zlt_Qlt. lia. }
        destruct (ilog2_spec x Hpos) as [Hl _].
        assert (Hk : (pow2 (ilog2 x) < pow2 (prec + e))%Q)
          by (eapply Qle_lt_trans; eassumption).
        apply pow2_lt_inv in Hk.
        unfold c in Hce. rewrite cexp_pos in Hce by exact Hpos.
        unfold prec in *. lia. }
      assert (Hc : c = e + 1).
      { assert (Hlt : (x < pow2 (prec + e + 1))%Q).
        { rewrite Hx, Hm53, pow2_inject by (unfold prec; lia).
          rewrite <- pow2_add. 
          apply Qpower_lt_compat_l; [lia|reflexivity]. }
        destruct (ilog2_spec x Hpos) as [Hl _].
        assert (Hk : (pow2 (ilog2 x) < pow2 (prec + e + 1))%Q)
          by (eapply Qle_lt_trans; eassumption).
        apply pow2_lt_inv in Hk.
        unfold c in *. rewrite cexp_pos in * by exact Hpos.
        unfold prec in *. lia. }
      exists (2 ^ (prec - 1)).
      rewrite pow2_inject by (unfold prec; lia).
      rewrite Hx, Hm53, Hc, pow2_inject by (unfold prec; lia).
      replace prec with ((prec - 1) + 1) at 1 by lia.
      rewrite !pow2_add. field.
      split; apply Qnot_eq_sym, Qlt_not_eq, pow2_pos. }
  destruct Hint as [k Hk].
  rewrite (rne_comp _ _ Hk), rne_int, <- Hk. field.
  apply Qnot_eq_sym, Qlt_not_eq, pow2_pos.
Qed.

Lemma fl_int z : 0 <= z <= 2 ^ prec -> (fl (inject_Z z) == inject_Z z)%Q.
Proof.
  intros Hz. apply (fl_exact z 0); [exact Hz|unfold emin; lia|].
  change (pow2 0) with 1%Q. ring.
Qed.

Lemma fl_one : (fl 1 == 1)%Q.
Proof. reflexivity. Qed.

(** In the normal range the rounding error is at most [2^-53] of the
    value. *)
Lemma fl_rel x :
  (pow2 (emin + (prec - 1)) <= x)%Q ->
  (Qabs (fl x - x) <= x * pow2 (- prec))%Q.
Proof.
  intros Hx.
  assert (Hpos : (0 < x)%Q) by (eapply Qlt_le_trans; [apply pow2_pos|exact Hx]).
  destruct (ilog2_spec x Hpos) as [Hl Hu].
  assert (Hk : emin + (prec - 1) <= ilog2 x).
  { assert (H : (pow2 (emin + (prec - 1)) < pow2 (ilog2 x + 1))%Q)
      by (eapply Qle_lt_trans; eassumption).
    apply pow2_lt_inv in H. lia. }
  assert (He : cexp x = ilog2 x - (prec - 1)) by (rewrite cexp_pos; [lia|exact Hpos]).
  rewrite fl_eq. set (e := cexp x) in *.
  pose proof (rne_near (x / pow2 e)) as Hn.
  pose proof (pow2_pos e) as Hpe.
  assert (Hsplit : (inject_Z (rne (x / pow2 e)) * pow2 e - x
                    == (inject_Z (rne (x / pow2 e)) - x / pow2 e) * pow2 e)%Q).
  { field. lra. }
  rewrite Hsplit, Qabs_Qmult, (Qabs_pos (pow2 e)) by lra.
  apply Qle_trans with ((1 # 2) * pow2 e)%Q.
  - apply Qmult_le_compat_r; [exact Hn|lra].
  - assert (H2 : ((1 # 2) * pow2 e == pow2 (ilog2 x) * pow2 (- prec))%Q).
    { rewrite <- pow2_add. replace (ilog2 x + - prec) with (-1 + e) by lia.
      rewrite pow2_add. reflexivity. }
    rewrite H2. apply Qmult_le_compat_r; [exact Hl|].
    apply Qlt_le_weak, pow2_pos.
Qed.

End Rounding.

(** ** The page and [run_dbscan] in binary64 *)

Section Percentages.

Import Binary64.

Lemma inject_Z_pos z : 0 < z -> (0 < inject_Z z)%Q.
Proof. intros H. change 0%Q with (inject_Z 0). now rewrite <- Zlt_Qlt. Qed.

Lemma inject_Z_nonneg z : 0 <= z -> (0 <= inject_Z z)%Q.
Proof. intros H. change 0%Q with (inject_Z 0). now rewrite <- Zle_Qle. Qed.

Lemma of_int_exact z :
  0 <= z <= 2 ^ prec -> (Float64.of_int z == inject_Z z)%Q.
Proof. apply fl_int. Qed.

Lemma of_int_mono a b :
  0 <= a -> a <= b -> (Float64.of_int a <= Float64.of_int b)%Q.
Proof.
  intros Ha Hab. apply fl_mono; [now apply inject_Z_nonneg|].
  now rewrite <- Zle_Qle.
Qed.

Lemma of_int_nonneg a : 0 <= a -> (0 <= Float64.of_int a)%Q.
Proof. intros Ha. apply fl_nonneg. now apply inject_Z_nonneg. Qed.

Lemma of_int_pos n : 1 <= n -> (1 <= Float64.of_int n)%Q.
Proof.
  intros Hn. rewrite <- fl_one at 1.
  apply (fl_mono 1 (inject_Z n)); [discriminate|].
  change 1%Q with (inject_Z 1). now rewrite <- Zle_Qle.
Qed.

Lemma percentage64_mono a b t :
  0 <= a -> a <= b -> 1 <= t ->
  (Float64.percentage a t <= Float64.percentage b t)%Q.
Proof.
  intros Ha Hab Ht. unfold Float64.percentage, Float64.mul, Float64.div.
  pose proof (of_int_pos t Ht) as Hpos.
  pose proof (of_int_nonneg a Ha) as Ha0.
  pose proof (of_int_mono a b Ha Hab) as Hle.
  assert (Hinv : (0 <= / Float64.of_int t)%Q)
    by (apply Qinv_le_0_compat; lra).
  assert (Hq0 : (0 <= Float64.of_int a / Float64.of_int t)%Q)
    by (apply Qmult_le_0_compat; assumption).
  assert (Hq : (Float64.of_int a / Float64.of_int t
                <= Float64.of_int b / Float64.of_int t)%Q)
    by (apply Qmult_le_compat_r; assumption).
  pose proof (fl_nonneg _ Hq0) as Hf0.
  pose proof (fl_mono _ _ Hq0 Hq) as Hf.
  apply fl_mono; lra.
Qed.

(** The percentage of the page is the exact one up to two roundings. *)
Lemma percentage64_near c n :
  1 <= c <= n -> n <= 2 ^ prec ->
  (Qabs (Float64.percentage c n - 100 * inject_Z c / inject_Z n)
   <= 100 * inject_Z c / inject_Z n * pow2 (-51))%Q.
Proof.
  intros [Hc Hcn] Hn.
  unfold Float64.percentage, Float64.mul, Float64.div.
  assert (Ec : (Float64.of_int c == inject_Z c)%Q)
    by (apply of_int_exact; lia).
  assert (En : (Float64.of_int n == inject_Z n)%Q)
    by (apply of_int_exact; lia).
  assert (Hcq : (1 <= inject_Z c)%Q)
    by (change 1%Q with (inject_Z 1); now rewrite <- Zle_Qle).
  assert (Hnq : (inject_Z c <= inject_Z n)%Q) by now rewrite <- Zle_Qle.
  assert (Hn53 : (inject_Z n <= pow2 prec)%Q).
  { rewrite <- pow2_inject by (unfold prec; lia). now rewrite <- Zle_Qle. }
  set (q := (inject_Z c / inject_Z n)%Q).
  assert (Hq : (pow2 (- prec) <= q)%Q).
  { unfold q. apply Qle_shift_div_l; [lra|].
    apply Qle_trans with (pow2 (- prec) * pow2 prec)%Q.
    - apply Qmult_le_l; [apply pow2_pos|exact Hn53].
    - rewrite <- pow2_add. replace (- prec + prec) with 0 by lia.
      exact Hcq. }
  assert (Hq1 : (q <= 1)%Q) by (unfold q; apply Qle_shift_div_r; lra).
  assert (Eq1 : (Float64.of_int c / Float64.of_int n == q)%Q)
    by (unfold q; now rewrite Ec, En).
  assert (Hsmall : (pow2 (emin + (prec - 1)) <= pow2 (- prec))%Q)
    by (apply pow2_le; unfold emin, prec; lia).
  (* first rounding *)
  pose proof (fl_rel (Float64.of_int c / Float64.of_int n)) as R1.
  rewrite Eq1 in R1 at 1 3 4. specialize (R1 ltac:(lra)).
  set (q1 := fl (Float64.of_int c / Float64.of_int n)) in *.
  assert (Hq1low : (pow2 (- prec) <= q1)%Q).
  { assert (E : (fl (pow2 (- prec)) == pow2 (- prec))%Q).
    { apply (fl_exact 1 (- prec)); [unfold prec; lia|unfold emin, prec; lia|].
      ring. }
    rewrite <- E. unfold q1. apply fl_mono.
    - apply Qlt_le_weak, pow2_pos.
    - now rewrite Eq1. }
  (* second rounding *)
  pose proof (fl_rel (q1 * 100)) as R2.
  assert (Hp : (pow2 (emin + (prec - 1)) <= q1 * 100)%Q).
  { pose proof (pow2_pos (- prec)). lra. }
  specialize (R2 Hp).
  set (p1 := fl (q1 * 100)) in *.
  assert (U : (pow2 (- prec) == 1 # 9007199254740992)%Q) by reflexivity.
  assert (V : (pow2 (-51) == 1 # 2251799813685248)%Q) by reflexivity.
  rewrite U in R1, R2. rewrite V.
  assert (E100 : (100 * inject_Z c / inject_Z n == 100 * q)%Q)
    by (unfold q; field; lra).
  rewrite E100.
  revert R1 R2.
  apply Qabs_case; intros A1; apply Qabs_case; intros A2 R1 R2;
    apply Qabs_case; intros A3; lra.
Qed.

End Percentages.

Section Page64.

Lemma fit64_valid eps min_samples pixels :
  (0 < eps)%Q -> 1 <= min_samples -> pixels <> [] ->
  Float64.DBSCAN_fit eps min_samples pixels
  = inr (Clusterer.cluster pixels eps min_samples).
Proof.
  intros Heps Hms Hne. unfold Float64.DBSCAN_fit.
  rewrite DBSCAN_fit_valid by assumption.
  destruct pixels; [contradiction|reflexivity].
Qed.

Lemma fit64_empty eps min_samples :
  (0 < eps)%Q -> 1 <= min_samples ->
  Float64.DBSCAN_fit eps min_samples [] = inl ValueError.
Proof.
  intros Heps Hms. unfold Float64.DBSCAN_fit.
  now rewrite DBSCAN_fit_valid by assumption.
Qed.

Lemma run64_valid pixels eps min_samples :
  (0 < eps)%Q -> 1 <= min_samples -> pixels <> [] ->
  Float64.run_dbscan pixels eps min_samples
  = inr (sorted_by_count_desc
           (Float64.aggregate pixels
              (Clusterer.cluster pixels eps min_samples))).
Proof.
  intros Heps Hms Hne. unfold Float64.run_dbscan.
  now rewrite fit64_valid by assumption.
Qed.

Lemma cards64_kept color_counts total_pixels min_percentage :
  Float64.cards color_counts total_pixels min_percentage
  = Float64.card_of total_pixels
      <$> kept64 color_counts total_pixels min_percentage.
Proof.
  unfold kept64. induction color_counts as [|s rest IH]; [reflexivity|].
  simpl. unfold below.
  destruct (Qle_bool min_percentage _); simpl; now rewrite IH.
Qed.

Lemma shown_cards_page64 pixels eps min_samples min_percentage :
  shown_cards (Float64.page pixels eps min_samples min_percentage)
  = match Float64.run_dbscan pixels eps min_samples with
    | inl _ => []
    | inr out =>
        Float64.cards out (Z.of_nat (length pixels)) min_percentage
    end.
Proof.
  unfold Float64.page.
  destruct (Float64.run_dbscan pixels eps min_samples) as [e|out];
    [reflexivity|].
  destruct out as [|s out]; [reflexivity|].
  destruct (Float64.cards (s :: out) _ _); reflexivity.
Qed.

Lemma aggregate64_counts pixels labels :
  s_count <$> Float64.aggregate pixels labels
  = s_count <$> aggregate pixels labels.
Proof.
  unfold Float64.aggregate, aggregate. rewrite <- !list_fmap_compose.
  apply list_fmap_ext. reflexivity.
Qed.

Lemma aggregate64_count_bounds pixels labels s :
  s ∈ Float64.aggregate pixels labels ->
  1 <= s_count s <= Z.of_nat (length labels).
Proof.
  intros Hs.
  assert (Hc : s_count s ∈ s_count <$> aggregate pixels labels).
  { rewrite <- aggregate64_counts. now apply list_elem_of_fmap_2. }
  apply list_elem_of_fmap in Hc as (s' & -> & Hs').
  now apply aggregate_count_bounds in Hs'.
Qed.

Lemma aggregate64_nil pixels labels :
  Float64.aggregate pixels labels = [] <-> Forall (fun l => l = noise) labels.
Proof.
  rewrite <- (aggregate_nil pixels labels).
  unfold Float64.aggregate, aggregate.
  destruct (unique_labels labels); csimpl; split; intros H;
    try reflexivity; discriminate.
Qed.

(** When the first entry of a ranking is below the threshold, so are all
    the others. *)
Lemma kept64_head_below s out t m :
  1 <= t -> StronglySorted count_ge (s :: out) ->
  Forall (fun x => 0 <= s_count x) out ->
  below (Float64.percentage (s_count s) t) m = true ->
  kept64 (s :: out) t m = [].
Proof.
  intros Ht Hsorted Hpos Hb. unfold below in Hb.
  apply negb_true_iff in Hb.
  apply StronglySorted_inv in Hsorted as [_ Hs].
  unfold kept64. simpl. rewrite Hb.
  induction out as [|x out IH]; [reflexivity|].
  apply Forall_cons in Hs as [Hx Hs]. apply Forall_cons in Hpos as [Hx0 Hpos].
  simpl. destruct (Qle_bool m (Float64.percentage (s_count x) t)) eqn:Hmx.
  - apply Qle_bool_iff in Hmx.
    pose proof (percentage64_mono _ _ t Hx0 Hx Ht) as Hle.
    assert (Hms : Qle_bool m (Float64.percentage (s_count s) t) = true)
      by (apply Qle_bool_iff; lra).
    congruence.
  - now apply IH.
Qed.

End Page64.

Section Runs64.

Variable pixels : list point.
Variable eps : Q.
Variable min_samples : Z.

Local Abbreviation labels := (Clusterer.cluster pixels eps min_samples).
Local Abbreviation ranked64 :=
  (sorted_by_count_desc (Float64.aggregate pixels labels)).
Local Abbreviation total := (Z.of_nat (length pixels)).

Lemma ranked64_counts s : s ∈ ranked64 -> 1 <= s_count s <= total.
Proof.
  rewrite <- sorted_by_count_desc_perm. intros Hs.
  apply aggregate64_count_bounds in Hs.
  rewrite cluster_length in Hs. exact Hs.
Qed.

Lemma page64_ranked min_percentage :
  (0 < eps)%Q -> 1 <= min_samples -> pixels <> [] ->
  Float64.run_dbscan pixels eps min_samples = inr ranked64
  /\ shown_cards (Float64.page pixels eps min_samples min_percentage)
     = Float64.cards ranked64 total min_percentage.
Proof.
  intros Heps Hms Hne.
  assert (Hrun := run64_valid pixels eps min_samples Heps Hms Hne).
  split; [exact Hrun|]. now rewrite shown_cards_page64, Hrun.
Qed.

End Runs64.

Section Formatting64.

Import Binary64.

(** One channel of [rgb_of]: the rounded product stays in [0, 255], and its
    integer part is that of the exact product or one more. *)
Lemma mul_255_bounds c :
  (0 <= c <= 1)%Q ->
  let y := Float64.mul c 255 in
  let r := py_int y in
  0 <= r <= 255
  /\ (inject_Z r <= y < inject_Z r + 1)%Q
  /\ py_int (c * 255) <= r <= py_int (c * 255) + 1.
Proof.
  intros [Hc0 Hc1] y r.
  assert (Hx : (0 <= c * 255 <= 255)%Q) by lra.
  assert (Hy0 : (0 <= y)%Q) by (apply fl_nonneg; lra).
  assert (Hy1 : (y <= 255)%Q).
  { apply Qle_trans with (fl 255); [apply fl_mono; lra|].
    apply Qle_lteq. right. reflexivity. }
  assert (Er : r = Qfloor y) by (apply py_int_nonneg; exact Hy0).
  assert (Et : py_int (c * 255) = Qfloor (c * 255))
    by (apply py_int_nonneg; lra).
  pose proof (Qfloor_le y) as F1. pose proof (Qlt_floor y) as F2.
  rewrite inject_Z_plus in F2. change (inject_Z 1) with 1%Q in F2.
  pose proof (Qfloor_resp_le _ _ Hy0) as G0. change (Qfloor 0) with 0 in G0.
  pose proof (Qfloor_resp_le _ _ Hy1) as G1. change (Qfloor 255) with 255 in G1.
  split; [rewrite Er; lia|]. split; [rewrite Er; lra|].
  rewrite Er, Et. set (t := Qfloor (c * 255)).
  pose proof (Qfloor_le (c * 255)) as T1. pose proof (Qlt_floor (c * 255)) as T2.
  fold t in T1, T2.
  destruct Hx as [Hx0 Hx1].
  pose proof (Qfloor_resp_le _ _ Hx0) as K0. change (Qfloor 0) with 0 in K0.
  pose proof (Qfloor_resp_le _ _ Hx1) as K1. change (Qfloor 255) with 255 in K1.
  fold t in K0, K1.
  assert (Ht : (fl (inject_Z t) == inject_Z t)%Q)
    by (apply fl_int; unfold prec; lia).
  assert (Ht1 : (fl (inject_Z (t + 1)) == inject_Z (t + 1))%Q)
    by (apply fl_int; unfold prec; lia).
  assert (L : (inject_Z t <= y)%Q).
  { rewrite <- Ht. apply fl_mono; [now apply inject_Z_nonneg|exact T1]. }
  assert (U : (y <= inject_Z (t + 1))%Q).
  { rewrite <- Ht1. apply fl_mono; [exact Hx0|lra]. }
  apply Qfloor_resp_le in L, U. rewrite Qfloor_Z in L, U. lia.
Qed.

Lemma code_length r g b :
  String.length (String "#" (two_hex r ++ two_hex g ++ two_hex b)) = 7%nat.
Proof. reflexivity. Qed.

Lemma unit_colour_card64 color :
  in_unit color ->
  byte_pixel (Float64.rgb_of color)
  /\ hex_of (Float64.rgb_of color)
     = String "#" (two_hex (fst (fst (Float64.rgb_of color)))
                   ++ two_hex (snd (fst (Float64.rgb_of color)))
                   ++ two_hex (snd (Float64.rgb_of color))).
Proof.
  intros (Hr & Hg & Hb).
  pose proof (mul_255_bounds _ Hr) as [Hr1 _].
  pose proof (mul_255_bounds _ Hg) as [Hg1 _].
  pose proof (mul_255_bounds _ Hb) as [Hb1 _].
  cbv zeta in Hr1, Hg1, Hb1.
  unfold Float64.rgb_of, hex_of, byte_pixel, is_byte. cbn [fst snd].
  split; [auto|].
  now rewrite !format_02x_byte by assumption.
Qed.

End Formatting64.

Section Means64.

Import Binary64.

(** A rounded value is a float64. *)
Lemma fl_idem x : (0 <= x)%Q -> (fl (fl x) == fl x)%Q.
Proof.
  intros Hx. destruct (Qlt_le_dec 0 x) as [Hpos|Hzero].
  - apply (fl_exact (rne (x / pow2 (cexp x))) (cexp x)).
    + split.
      * rewrite <- (rne_int 0). apply rne_mono. now apply scaled_nonneg.
      * rewrite <- (rne_int (2 ^ prec)). apply rne_mono.
        rewrite (pow2_inject prec) by (unfold prec; lia).
        apply Qle_shift_div_r; [apply pow2_pos|].
        rewrite <- pow2_add.
        destruct (ilog2_spec x Hpos) as [_ H]. apply Qlt_le_weak.
        eapply Qlt_le_trans; [exact H|]. apply pow2_le.
        rewrite cexp_pos by exact Hpos. unfold prec. lia.
    + apply cexp_emin.
    + apply fl_eq.
  - assert (E : (fl x == 0)%Q) by (apply fl_zero; lra).
    rewrite (fl_zero (fl x) E). now symmetry.
Qed.

Lemma fl_unit x : (0 <= x <= 1)%Q -> (0 <= fl x <= 1)%Q.
Proof.
  intros [H0 H1]. split; [now apply fl_nonneg|].
  rewrite <- fl_one. now apply fl_mono.
Qed.

(** The running sum of [k] values of [0, 1] is at most [k], and at most
    [2^53], where it stops growing. *)
Lemma foldl_add_bounds (ch : point -> Q) rows acc k :
  0 <= k ->
  (0 <= acc <= inject_Z (Z.min k (2 ^ prec)))%Q ->
  Forall (fun p => (0 <= ch p <= 1)%Q) rows ->
  (0 <= foldl (fun a q => Float64.add a (ch q)) acc rows
   <= inject_Z (Z.min (k + Z.of_nat (length rows)) (2 ^ prec)))%Q.
Proof.
  intros Hk Hacc Hrows. revert acc k Hk Hacc.
  induction Hrows as [|p rows Hp Hrows IH]; intros acc k Hk Hacc.
  - simpl. now rewrite Z.add_0_r.
  - cbn [foldl length]. rewrite Nat2Z.inj_succ.
    replace (k + Z.succ (Z.of_nat (length rows)))
      with ((k + 1) + Z.of_nat (length rows)) by lia.
    apply IH; [lia|]. unfold Float64.add.
    split; [apply fl_nonneg; lra|].
    destruct (Z_lt_le_dec k (2 ^ prec)) as [Hlt|Hge].
    + rewrite Z.min_l in * by lia.
      rewrite <- (fl_int (k + 1)) by lia.
      apply fl_mono; [lra|]. rewrite inject_Z_plus.
      change (inject_Z 1) with 1%Q. lra.
    + rewrite Z.min_r in * by lia.
      apply Qle_trans with (fl (inject_Z (2 ^ prec) + 1)).
      * apply fl_mono; lra.
      * apply Qle_lteq. right. reflexivity.
Qed.

Lemma column_sum_bounds (ch : point -> Q) rows :
  rows <> [] -> Forall (fun p => (0 <= ch p <= 1)%Q) rows ->
  (0 <= Float64.column_sum ch rows
   <= inject_Z (Z.min (Z.of_nat (length rows)) (2 ^ prec)))%Q.
Proof.
  intros Hne Hrows. destruct rows as [|p rows]; [contradiction|].
  apply Forall_cons in Hrows as [Hp Hrows].
  cbn [Float64.column_sum length]. rewrite Nat2Z.inj_succ.
  replace (Z.succ (Z.of_nat (length rows)))
    with (1 + Z.of_nat (length rows)) by lia.
  apply foldl_add_bounds; [lia| |exact Hrows].
  rewrite Z.min_l by (unfold prec; lia). exact Hp.
Qed.

Lemma of_int_min n :
  0 <= n -> (inject_Z (Z.min n (2 ^ prec)) <= Float64.of_int n)%Q.
Proof.
  intros Hn. destruct (Z_le_gt_dec n (2 ^ prec)) as [Hle|Hgt].
  - rewrite Z.min_l by lia. rewrite of_int_exact by lia. apply Qle_refl.
  - rewrite Z.min_r by lia. rewrite <- (of_int_exact (2 ^ prec)) by lia.
    apply of_int_mono; lia.
Qed.

Lemma mean_channel_unit (ch : point -> Q) rows :
  rows <> [] -> Forall (fun p => (0 <= ch p <= 1)%Q) rows ->
  (0 <= Float64.div (Float64.column_sum ch rows)
          (Float64.of_int (Z.of_nat (length rows))) <= 1)%Q.
Proof.
  intros Hne Hrows.
  destruct (column_sum_bounds ch rows Hne Hrows) as [H0 H1].
  assert (Hn : 1 <= Z.of_nat (length rows))
    by (destruct rows; [contradiction|simpl; lia]).
  pose proof (of_int_min (Z.of_nat (length rows)) ltac:(lia)) as Hmin.
  pose proof (of_int_pos _ Hn) as Hpos.
  apply fl_unit. split.
  - apply Qle_shift_div_l; lra.
  - apply Qle_shift_div_r; lra.
Qed.

Lemma mean64_in_unit rows :
  rows <> [] -> (forall p, p ∈ rows -> in_unit p) ->
  in_unit (Float64.mean_axis0 rows).
Proof.
  intros Hne Hrows. unfold in_unit, Float64.mean_axis0.
  cbn [chan_r chan_g chan_b fst snd].
  split; [|split]; apply mean_channel_unit; try exact Hne;
    apply Forall_forall; intros p Hp; destruct (Hrows p Hp) as (Hr & Hg & Hb);
    assumption.
Qed.

Lemma mean64_float64 rows :
  rows <> [] -> (forall p, p ∈ rows -> in_unit p) ->
  float64_point (Float64.mean_axis0 rows).
Proof.
  intros Hne Hrows.
  assert (Hn : 1 <= Z.of_nat (length rows))
    by (destruct rows; [contradiction|simpl; lia]).
  pose proof (of_int_pos _ Hn) as Hpos.
  assert (Hch : forall ch : point -> Q,
            Forall (fun p => (0 <= ch p <= 1)%Q) rows ->
            is_float64
              (Float64.div (Float64.column_sum ch rows)
                 (Float64.of_int (Z.of_nat (length rows))))).
  { intros ch Hall. destruct (column_sum_bounds ch rows Hne Hall) as [H0 _].
    unfold is_float64, Float64.div. apply fl_idem.
    apply Qle_shift_div_l; lra. }
  unfold float64_point, Float64.mean_axis0.
  cbn [chan_r chan_g chan_b fst snd].
  split; [|split]; apply Hch; apply Forall_forall; intros p Hp;
    destruct (Hrows p Hp) as (Hr & Hg & Hb); assumption.
Qed.

Lemma run64_mean pixels eps min_samples out s :
  Float64.run_dbscan pixels eps min_samples = inr out -> s ∈ out ->
  exists rows,
    rows <> [] /\ (forall p, p ∈ rows -> p ∈ pixels)
    /\ s_color s = Float64.mean_axis0 rows.
Proof.
  intros Hout Hs. unfold Float64.run_dbscan in Hout.
  destruct (Float64.DBSCAN_fit eps min_samples pixels) as [e|labels]
    eqn:Hfit; [discriminate|].
  injection Hout as <-.
  assert (Hlen : length pixels = length labels).
  { unfold Float64.DBSCAN_fit, Clusterer.DBSCAN_fit in Hfit.
    destruct (Qle_bool eps 0 || (min_samples <? 1)); [discriminate|].
    simpl in Hfit. destruct pixels; [discriminate|].
    injection Hfit as <-. symmetry. apply cluster_length. }
  rewrite <- sorted_by_count_desc_perm in Hs. unfold Float64.aggregate in Hs.
  apply list_elem_of_fmap in Hs as [k [-> Hk]].
  apply unique_labels_elem in Hk as [Hk _].
  exists (members pixels labels k).
  split; [|split].
  - now apply members_nonempty.
  - intros p. apply members_elem.
  - unfold Float64.summarize, s_color. simpl. now rewrite select_mask.
Qed.

Lemma run64_in_unit pixels eps min_samples out s :
  Forall in_unit pixels ->
  Float64.run_dbscan pixels eps min_samples = inr out -> s ∈ out ->
  in_unit (s_color s).
Proof.
  intros Hpx Hout Hs.
  destruct (run64_mean _ _ _ _ _ Hout Hs) as (rows & Hne & Hsub & ->).
  apply mean64_in_unit; [exact Hne|].
  intros p Hp. rewrite Forall_forall in Hpx. apply Hpx, Hsub, Hp.
Qed.

Lemma run64_float64 pixels eps min_samples out s :
  Forall in_unit pixels ->
  Float64.run_dbscan pixels eps min_samples = inr out -> s ∈ out ->
  float64_point (s_color s).
Proof.
  intros Hpx Hout Hs.
  destruct (run64_mean _ _ _ _ _ Hout Hs) as (rows & Hne & Hsub & ->).
  apply mean64_float64; [exact Hne|].
  intros p Hp. rewrite Forall_forall in Hpx. apply Hpx, Hsub, Hp.
Qed.

(** Bytes divided by 255. *)
Lemma div_255_channel k :
  0 <= k <= 255 ->
  let c := Float64.div (Float64.of_int k) 255 in
  (0 <= c <= 1)%Q /\ is_float64 c /\ py_int (Float64.mul c 255) = k.
Proof.
  intros Hk.
  assert (Hall : forallb
                   (fun k =>
                      let c := Float64.div (Float64.of_int k) 255 in
                      Qle_bool 0 c && Qle_bool c 1 && Qeq_bool (fl c) c
                      && (py_int (Float64.mul c 255) =? k))
                   (Z.of_nat <$> seq 0 256) = true)
    by (vm_compute; reflexivity).
  rewrite forallb_forall in Hall.
  specialize (Hall k). cbv zeta in Hall.
  assert (Hin : In k (Z.of_nat <$> seq 0 256)).
  { apply list_elem_of_In, list_elem_of_fmap. exists (Z.to_nat k).
    split; [lia|]. apply list_elem_of_In, in_seq. lia. }
  apply Hall in Hin.
  apply andb_true_iff in Hin as [Hin H4].
  apply andb_true_iff in Hin as [Hin H3].
  apply andb_true_iff in Hin as [H1 H2].
  apply Qle_bool_iff in H1, H2. apply Qeq_bool_iff in H3.
  apply Z.eqb_eq in H4. cbv zeta. unfold is_float64. auto.
Qed.

Lemma div_255_64_spec px :
  byte_pixel px ->
  in_unit (Float64.div_255 px) /\ float64_point (Float64.div_255 px)
  /\ Float64.rgb_of (Float64.div_255 px) = px.
Proof.
  destruct px as [[r g] b]. intros (Hr & Hg & Hb).
  unfold byte_pixel, is_byte in *. simpl in Hr, Hg, Hb.
  destruct (div_255_channel r Hr) as (Hr1 & Hr2 & Hr3).
  destruct (div_255_channel g Hg) as (Hg1 & Hg2 & Hg3).
  destruct (div_255_channel b Hb) as (Hb1 & Hb2 & Hb3).
  unfold in_unit, float64_point, Float64.rgb_of, Float64.div_255.
  cbn [chan_r chan_g chan_b fst snd].
  split; [auto|]. split; [auto|]. now rewrite Hr3, Hg3, Hb3.
Qed.

Lemma byte_image_spec64 a :
  byte_image a ->
  Forall (fun p => in_unit p /\ float64_point p) (Float64.pixels_of a).
Proof.
  intros Ha. unfold Float64.pixels_of. apply Forall_fmap, Forall_forall.
  intros px Hpx. apply reshape_3_elem in Hpx as (row & Hrow & Hpx).
  unfold byte_image in Ha. rewrite Forall_forall in Ha.
  specialize (Ha row Hrow). rewrite Forall_forall in Ha.
  destruct (div_255_64_spec px (Ha px Hpx)) as (H1 & H2 & _). simpl. auto.
Qed.

Lemma div_255_grey r : grey64 (Float64.div_255 (r, r, r)).
Proof.
  unfold grey64, Float64.div_255. cbn [chan_r chan_g chan_b fst snd].
  split; reflexivity.
Qed.

Lemma column_sum_grey rows :
  Forall grey64 rows ->
  Float64.column_sum chan_r rows = Float64.column_sum chan_g rows
  /\ Float64.column_sum chan_g rows = Float64.column_sum chan_b rows.
Proof.
  intros Hrows. destruct rows as [|p rows]; [split; reflexivity|].
  apply Forall_cons in Hrows as [[Hp1 Hp2] Hrows].
  cbn [Float64.column_sum]. rewrite Hp1, <- Hp2.
  generalize (chan_g p). clear p Hp1 Hp2.
  induction Hrows as [|q rows [Hq1 Hq2] Hrows IH]; intros acc;
    [split; reflexivity|].
  cbn [foldl]. rewrite <- Hq2, <- Hq1. apply IH.
Qed.

Lemma mean64_grey rows :
  Forall grey64 rows -> grey64 (Float64.mean_axis0 rows).
Proof.
  intros Hrows. destruct (column_sum_grey rows Hrows) as [E1 E2].
  unfold grey64, Float64.mean_axis0. cbn [chan_r chan_g chan_b fst snd].
  now rewrite E1, E2.
Qed.

End Means64.

Section Prefix64.

Lemma kept64_prefix l t m :
  1 <= t -> StronglySorted count_ge l ->
  Forall (fun s => 0 <= s_count s) l ->
  kept64 l t m = take (length (kept64 l t m)) l.
Proof.
  intros Ht Hsorted. induction Hsorted as [|s l Hl IH Hs]; intros Hpos;
    [reflexivity|].
  apply Forall_cons in Hpos as [Hs0 Hpos].
  destruct (below (Float64.percentage (s_count s) t) m) eqn:Hb.
  - rewrite (kept64_head_below s l t m Ht); [reflexivity| |exact Hpos|exact Hb].
    now constructor.
  - unfold below in Hb. apply negb_false_iff in Hb.
    unfold kept64 in *. simpl. rewrite Hb. simpl. f_equal. now apply IH.
Qed.

Lemma percentage64_bounds c n :
  1 <= c <= n -> n <= 2 ^ Binary64.prec ->
  (0 < Float64.percentage c n <= 100)%Q.
Proof.
  intros [Hc Hcn] Hn.
  pose proof (percentage64_near c n (conj Hc Hcn) Hn) as Hnear.
  assert (Hpos : (0 < inject_Z n)%Q) by (apply inject_Z_pos; lia).
  assert (Hc0 : (0 < inject_Z c)%Q) by (apply inject_Z_pos; lia).
  assert (Hx : (0 < 100 * inject_Z c / inject_Z n)%Q).
  { apply Qlt_shift_div_l; [exact Hpos|]. lra. }
  split.
  - assert (U : (Binary64.pow2 (-51) == 1 # 2251799813685248)%Q)
      by reflexivity.
    rewrite U in Hnear.
    set (x := (100 * inject_Z c / inject_Z n)%Q) in *.
    revert Hnear. apply Qabs_case; intros; lra.
  - unfold Float64.percentage, Float64.mul, Float64.div.
    pose proof (of_int_pos n ltac:(lia)) as Hn1.
    pose proof (of_int_nonneg c ltac:(lia)) as Hc1.
    pose proof (of_int_mono c n ltac:(lia) Hcn) as Hle.
    assert (Hq : (0 <= Float64.of_int c / Float64.of_int n <= 1)%Q).
    { split; [apply Qle_shift_div_l; lra|apply Qle_shift_div_r; lra]. }
    apply fl_unit in Hq.
    apply Qle_trans with (Binary64.fl 100).
    + apply fl_mono; lra.
    + apply Qle_lteq. right. reflexivity.
Qed.

End Prefix64.

Section Weights64.

Import Binary64.

Lemma total_count_counts l l' :
  s_count <$> l = s_count <$> l' -> total_count l = total_count l'.
Proof.
  revert l'. induction l as [|s l IH]; intros [|s' l'] H;
    try discriminate; [reflexivity|].
  injection H as Hs Hl. simpl. rewrite Hs. f_equal. now apply IH.
Qed.

Lemma total_count_filter (f : summary -> bool) l :
  Forall (fun s => 0 <= s_count s) l ->
  0 <= total_count (List.filter f l) <= total_count l.
Proof.
  induction 1 as [|s l Hs Hl IH]; simpl; [lia|].
  destruct (f s); simpl; lia.
Qed.

Lemma total_count_aggregate64 pixels labels :
  total_count (Float64.aggregate pixels labels) + occurrences noise labels
  = Z.of_nat (length labels).
Proof.
  rewrite (total_count_counts _ (aggregate pixels labels))
    by apply aggregate64_counts.
  apply total_count_aggregate.
Qed.

(** Each entry that passes the threshold weighs at least the threshold, up
    to the rounding of its percentage. *)
Lemma kept64_weight l n m :
  1 <= n <= 2 ^ prec ->
  Forall (fun s => 1 <= s_count s <= n) l ->
  (inject_Z (Z.of_nat (length (kept64 l n m))) * m
   <= inject_Z (total_count (kept64 l n m)) / inject_Z n * 100
      * (1 + pow2 (-51)))%Q.
Proof.
  intros [Hn1 Hn2]. unfold kept64.
  induction 1 as [|s l Hs Hl IH]; simpl.
  - rewrite Qmult_0_l. unfold Qdiv. rewrite !Qmult_0_l. apply Qle_refl.
  - destruct (Qle_bool m (Float64.percentage (s_count s) n)) eqn:Hm;
      [|exact IH].
    apply Qle_bool_iff in Hm. simpl length. simpl total_count.
    rewrite Nat2Z.inj_succ. unfold Z.succ. rewrite !inject_Z_plus.
    change (inject_Z 1) with 1%Q.
    pose proof (percentage64_near (s_count s) n Hs Hn2) as Hnear.
    assert (Hpos : (0 < inject_Z n)%Q) by (apply inject_Z_pos; lia).
    assert (E : (100 * inject_Z (s_count s) / inject_Z n
                 == inject_Z (s_count s) / inject_Z n * 100)%Q)
      by (field; lra).
    rewrite E in Hnear.
    assert (D : ((inject_Z (s_count s) + inject_Z (total_count
                   (List.filter
                      (fun s0 => Qle_bool m (Float64.percentage (s_count s0) n))
                      l))) / inject_Z n * 100 * (1 + pow2 (-51))
                 == inject_Z (s_count s) / inject_Z n * 100 * (1 + pow2 (-51))
                    + inject_Z (total_count
                        (List.filter
                           (fun s0 =>
                              Qle_bool m (Float64.percentage (s_count s0) n))
                           l)) / inject_Z n * 100 * (1 + pow2 (-51)))%Q)
      by (field; lra).
    rewrite D. clear D E.
    set (x := (inject_Z (s_count s) / inject_Z n * 100)%Q) in *.
    set (p := Float64.percentage (s_count s) n) in *.
    set (u := pow2 (-51)) in *.
    revert Hnear. apply Qabs_case; intros; lra.
Qed.

End Weights64.

Section Limit64.

Import Binary64.

Lemma shown_cards_limit64 pixels eps min_samples min_percentage :
  (0 < eps)%Q -> 1 <= min_samples -> pixels <> [] ->
  Z.of_nat (length pixels) <= 2 ^ 53 ->
  (inject_Z
     (Z.of_nat
        (length
           (shown_cards
              (Float64.page pixels eps min_samples min_percentage))))
   * min_percentage <= 100 * (1 + pow2 (-51)))%Q.
Proof.
  intros Heps Hms Hne Hlen.
  destruct (page64_ranked pixels eps min_samples min_percentage Heps Hms Hne)
    as [_ ->].
  rewrite cards64_kept, length_fmap.
  set (n := Z.of_nat (length pixels)) in *.
  set (out := sorted_by_count_desc _).
  assert (Hn : 1 <= n) by (unfold n; destruct pixels; [contradiction|simpl; lia]).
  assert (Hcounts : Forall (fun s => 1 <= s_count s <= n) out).
  { apply Forall_forall. intros s Hs. now apply ranked64_counts in Hs. }
  eapply Qle_trans; [apply kept64_weight; [unfold prec; lia|exact Hcounts]|].
  assert (Htot : total_count out <= n).
  { unfold out. rewrite <- (total_count_perm _ _ (sorted_by_count_desc_perm _)).
    pose proof (total_count_aggregate64 pixels
                  (Clusterer.cluster pixels eps min_samples)) as Hsum.
    rewrite cluster_length in Hsum.
    pose proof (occurrences_nonneg noise
                  (Clusterer.cluster pixels eps min_samples)).
    unfold n. lia. }
  assert (Hsub : 0 <= total_count (kept64 out n min_percentage)
                 <= total_count out).
  { apply total_count_filter. eapply Forall_impl; [exact Hcounts|].
    simpl. intros. lia. }
  assert (Hpos : (0 < inject_Z n)%Q) by (apply inject_Z_pos; lia).
  assert (Hq : (inject_Z (total_count (kept64 out n min_percentage))
                / inject_Z n <= 1)%Q).
  { apply Qle_shift_div_r; [exact Hpos|]. rewrite Qmult_1_l.
    rewrite <- Zle_Qle. lia. }
  assert (Hu : (0 < pow2 (-51))%Q) by apply pow2_pos.
  set (q := (inject_Z (total_count (kept64 out n min_percentage))
             / inject_Z n)%Q) in *.
  set (u := pow2 (-51)) in *.
  nra.
Qed.

End Limit64.

(** ** The aggregation against the pass of the specification *)

Section Accumulators.

Lemma column_sum_snoc ch rows p :
  Float64.column_sum ch (rows ++ [p])
  = match rows with
    | [] => ch p
    | _ => Float64.add (Float64.column_sum ch rows) (ch p)
    end.
Proof.
  destruct rows as [|q rows]; [reflexivity|].
  simpl. now rewrite foldl_snoc.
Qed.

Lemma members_snoc pixels labels p l k :
  length pixels = length labels ->
  members (pixels ++ [p]) (labels ++ [l]) k
  = members pixels labels k ++ (if l =? k then [p] else []).
Proof.
  intros Hlen. unfold members.
  rewrite zip_with_app by exact Hlen. simpl.
  rewrite List.filter_app, fmap_app. simpl.
  destruct (l =? k); reflexivity.
Qed.

Lemma group_by_label_lookup pixels labels k :
  length pixels = length labels ->
  group_by_label pixels labels !! k
  = if k =? noise then None else entry_of (members pixels labels k).
Proof.
  revert pixels. induction labels as [|l labels IH] using rev_ind;
    intros pixels Hlen.
  { destruct pixels; [|discriminate]. simpl.
    unfold group_by_label. simpl. rewrite lookup_empty.
    now destruct (k =? noise). }
  destruct pixels as [|p pixels _] using rev_ind.
  { rewrite length_app in Hlen. simpl in Hlen. lia. }
  rewrite !length_app in Hlen. simpl in Hlen.
  assert (Hlen' : length pixels = length labels) by lia.
  unfold group_by_label. rewrite zip_with_app by exact Hlen'. simpl.
  rewrite foldl_snoc. fold (group_by_label pixels labels).
  rewrite members_snoc by exact Hlen'.
  unfold accumulate.
  destruct (Z.eqb_spec l noise) as [El|Nl].
  - rewrite IH by exact Hlen'.
    destruct (Z.eqb_spec k noise) as [Ek|Nk]; [reflexivity|].
    destruct (Z.eqb_spec l k) as [Elk|Nlk]; [congruence|].
    now rewrite app_nil_r.
  - destruct (Z.eqb_spec l k) as [->|Nlk].
    + rewrite IH by exact Hlen'.
      destruct (Z.eqb_spec k noise) as [Ek|_]; [contradiction|].
      destruct (members pixels labels k) as [|q rows] eqn:Hrows.
      * cbn [entry_of app]. rewrite lookup_insert_eq.
        now destruct p as [[pr pg] pb].
      * cbn [entry_of]. rewrite lookup_insert_eq.
        cbn [acc_count acc_sum chan_r chan_g chan_b fst snd].
        replace (entry_of ((q :: rows) ++ [p]))
          with (Some {| acc_count := Z.of_nat (length ((q :: rows) ++ [p]));
                        acc_sum :=
                          (Float64.column_sum chan_r ((q :: rows) ++ [p]),
                           Float64.column_sum chan_g ((q :: rows) ++ [p]),
                           Float64.column_sum chan_b ((q :: rows) ++ [p])) |})
          by reflexivity.
        rewrite !column_sum_snoc, length_app, Nat2Z.inj_add.
        reflexivity.
    + rewrite app_nil_r.
      destruct (group_by_label pixels labels !! l);
        rewrite lookup_insert_ne by exact Nlk; now apply IH.
Qed.

Lemma entry_of_members pixels labels k :
  length pixels = length labels -> k ∈ labels ->
  exists a,
    entry_of (members pixels labels k) = Some a
    /\ acc_count a = occurrences k labels
    /\ Float64.summarize pixels labels k = summary_of a.
Proof.
  intros Hlen Hk.
  pose proof (members_length pixels labels k Hlen) as Hm.
  pose proof (occurrences_pos k labels Hk) as Hpos.
  unfold Float64.summarize. rewrite np_sum_mask, select_mask.
  destruct (members pixels labels k) as [|q rows] eqn:Hrows;
    [simpl in Hm; lia|].
  eexists. split; [reflexivity|]. cbn [acc_count].
  split; [exact Hm|].
  unfold summary_of, Float64.mean_axis0.
  cbn [acc_count acc_sum chan_r chan_g chan_b fst snd].
  now rewrite Hm.
Qed.

End Accumulators.

(** * The claims *)

(** C1. For valid parameters the clustering call returns one label per
    point, and these labels are the labelling of section 4.2, the only one
    with its properties: a point is a core point iff at least [min_samples]
    positions, its own among them, hold points at distance at most [eps]
    (a distance [d] is at most [eps] iff the squared distance is at most
    [eps * eps]);
    every core point is in a cluster; every neighbour of a core point is in
    the cluster of that core point or in an earlier one; every point of a
    cluster is reached from the first core point of the cluster through
    neighbourhoods of core points of the cluster; cluster ids count up from
    0 in the input order of these first core points; all other points are
    noise, [-1]. *)
Theorem cluster_reference_labelling pts eps min_samples :
  (0 < eps)%Q -> 1 <= min_samples ->
  exists labels,
    Clusterer.DBSCAN_fit eps min_samples pts = inr labels
    /\ length labels = length pts
    /\ (forall L,
          reference_labelling (length pts) (Clusterer.neighbourhoods pts eps)
            (Clusterer.is_core pts eps min_samples) L
          <-> L = labels)
    /\ (forall j, (j < length pts)%nat ->
          labels !! j = Some noise
          <-> Clusterer.is_core pts eps min_samples j = false
              /\ forall i, Clusterer.is_core pts eps min_samples i = true ->
                    ~ adjacent pts eps i j)
    /\ (forall i j,
          j ∈ Clusterer.neighbourhoods pts eps i <-> adjacent pts eps i j)
    /\ (forall i, (i < length pts)%nat -> adjacent pts eps i i)
    /\ (forall i,
          Clusterer.is_core pts eps min_samples i = true
          <-> core_point pts eps min_samples i)
    /\ (forall p q d,
          (0 <= d)%Q -> (d * d == Clusterer.sqdist p q)%Q ->
          (Clusterer.sqdist p q <= eps * eps)%Q <-> (d <= eps)%Q).
Proof.
  intros Heps Hms. exists (Clusterer.cluster pts eps min_samples).
  assert (Href : reference_labelling (length pts)
                   (Clusterer.neighbourhoods pts eps)
                   (Clusterer.is_core pts eps min_samples)
                   (Clusterer.cluster pts eps min_samples)).
  { apply scan_reference.
    - apply neighbourhoods_bound.
    - apply neighbourhoods_length. }
  split; [now apply DBSCAN_fit_valid|].
  split; [apply cluster_length|].
  split; [|split; [|split; [|split; [|split]]]].
  - intros L. split; [|intros ->; exact Href].
    intros HL. eapply reference_labelling_unique; [|exact HL|exact Href].
    apply neighbourhoods_sym.
  - intros j Hj.
    rewrite (reference_noise _ _ _ (neighbourhoods_bound pts eps)
               (neighbourhoods_sym pts eps) _ j Href Hj).
    split; intros [Hc Hno]; (split; [exact Hc|]); intros i Hi Hadj;
      apply (Hno i Hi); now apply neighbourhoods_adjacent.
  - apply neighbourhoods_adjacent.
  - intros i Hi. apply lookup_lt_is_Some in Hi as [p Hp].
    eapply adjacent_self, Hp.
  - apply is_core_core_point.
  - intros p q d Hd Hdd. rewrite <- within_spec.
    apply within_distance; [lra|exact Hd|exact Hdd].
Qed.

Lemma cluster_reference_labelling_witness :
  exists labels,
    Clusterer.DBSCAN_fit (1 # 10) 4 border_first = inr labels
    /\ length labels = length border_first
    /\ (forall L,
          reference_labelling (length border_first)
            (Clusterer.neighbourhoods border_first (1 # 10))
            (Clusterer.is_core border_first (1 # 10) 4) L
          <-> L = labels)
    /\ (forall j, (j < length border_first)%nat ->
          labels !! j = Some noise
          <-> Clusterer.is_core border_first (1 # 10) 4 j = false
              /\ forall i, Clusterer.is_core border_first (1 # 10) 4 i = true ->
                    ~ adjacent border_first (1 # 10) i j)
    /\ (forall i j,
          j ∈ Clusterer.neighbourhoods border_first (1 # 10) i
          <-> adjacent border_first (1 # 10) i j)
    /\ (forall i, (i < length border_first)%nat ->
          adjacent border_first (1 # 10) i i)
    /\ (forall i,
          Clusterer.is_core border_first (1 # 10) 4 i = true
          <-> core_point border_first (1 # 10) 4 i)
    /\ (forall p q d,
          (0 <= d)%Q -> (d * d == Clusterer.sqdist p q)%Q ->
          (Clusterer.sqdist p q <= (1 # 10) * (1 # 10))%Q <-> (d <= 1 # 10)%Q).
Proof.
  apply (cluster_reference_labelling border_first (1 # 10) 4);
    [reflexivity|lia].
Defined.

(** C2, as stated, fails: two clusters of two pixels each come out in the
    order of their labels, the dark colour first for one image and the light
    colour first for the other, so entries of equal count are ordered neither
    ascending nor descending by their channels. *)
Lemma ties_not_by_centroid :
  let dark : point := ((0 # 200)%Q, (0 # 200)%Q, (0 # 200)%Q) in
  let light : point := ((200 # 200)%Q, (200 # 200)%Q, (200 # 200)%Q) in
  run_dbscan dark_first (1 # 10) 2 = inr [(2, dark); (2, light)]
  /\ run_dbscan light_first (1 # 10) 2 = inr [(2, light); (2, dark)]
  /\ lex_lt dark light
  /\ ~ ties_by (fun p q => lex_le q p) [(2, dark); (2, light)]
  /\ ~ ties_by lex_le [(2, light); (2, dark)].
Proof.
  intros dark light.
  split; [vm_compute; reflexivity|].
  split; [vm_compute; reflexivity|].
  split; [left; reflexivity|].
  split; intros H; specialize (H 0%nat _ _ eq_refl eq_refl eq_refl);
    unfold lex_le, lex_lt, chan_r, chan_g, chan_b, s_color, Qlt, Qeq in H;
    simpl in H; lia.
Qed.

(** C2, amended. For valid parameters [run_dbscan] returns the summaries
    sorted by descending count, and the entries of any one count stand in the
    order in which the aggregation loop produced them. *)
Theorem ranking_sorted_stable pixels eps min_samples :
  (0 < eps)%Q -> 1 <= min_samples ->
  exists out,
    run_dbscan pixels eps min_samples = inr out
    /\ StronglySorted count_ge out
    /\ forall c,
         with_count c out
         = with_count c
             (aggregate pixels (Clusterer.cluster pixels eps min_samples)).
Proof.
  intros Heps Hms. eexists. split; [now apply run_dbscan_valid|].
  split; [apply sorted_by_count_desc_sorted|].
  intros c. apply sorted_by_count_desc_stable.
Qed.

Lemma ranking_sorted_stable_witness :
  exists out,
    run_dbscan light_first (1 # 10) 2 = inr out
    /\ StronglySorted count_ge out
    /\ forall c,
         with_count c out
         = with_count c
             (aggregate light_first (Clusterer.cluster light_first (1 # 10) 2)).
Proof.
  apply (ranking_sorted_stable light_first (1 # 10) 2); [reflexivity|lia].
Defined.

(** C3, as stated, fails.  The percentage of the page is the rounded
    [(count / total) * 100], not [100 * count / total].  For 23 black pixels
    of 40 it comes out below 57.5, so at the threshold 57.5 the entry is
    dropped although [100 * 23 / 40] reaches the threshold; and for 10 pixels
    of 10000 it is the float64 next to one tenth, the slider's value 0.1, so
    the entry is kept although [100 * 10 / 10000] is below that value. *)
Lemma percentage_is_rounded :
  let pixels := Float64.pixels_of forty_pixels in
  let tenth := Binary64.fl (1 # 10) in
  Float64.run_dbscan pixels (1 # 10) 2 = inr [(23, (0%Q, 0%Q, 0%Q))]
  /\ Z.of_nat (length pixels) = 40
  /\ ((575 # 10) <= 100 * inject_Z 23 / inject_Z 40)%Q
  /\ Float64.page pixels (1 # 10) 2 (575 # 10) = HiddenWarning 1
  /\ (Float64.percentage 23 40 < 100 * inject_Z 23 / inject_Z 40)%Q
  /\ (100 * inject_Z 10 / inject_Z 10000 < tenth)%Q
  /\ Float64.cards [(10, (0%Q, 0%Q, 0%Q))] 10000 tenth
     = [Float64.card_of 10000 (10, (0%Q, 0%Q, 0%Q))].
Proof.
  intros pixels tenth.
  assert (Hrun : Float64.run_dbscan pixels (1 # 10) 2
                 = inr [(23, (0%Q, 0%Q, 0%Q))])
    by (vm_compute; reflexivity).
  split; [exact Hrun|].
  split; [vm_compute; reflexivity|].
  split; [vm_compute; discriminate|].
  split; [unfold Float64.page; rewrite Hrun; vm_compute; reflexivity|].
  split; [vm_compute; reflexivity|].
  split; vm_compute; reflexivity.
Qed.

(** C3, amended.  For a run on a pixel array that is not empty, with valid
    parameters, the page shows one card for each returned entry whose
    percentage is at least [min_percentage] and none for the others, in the
    order of the returned list, which is descending by count.  The
    percentage is the rounded [(count / total) * 100] with [total] the
    number of pixels that were clustered; for an array of at most [2^53]
    pixels it differs from [100 * count / total] by at most [2^-51] of
    it. *)
Theorem percentage_filter pixels eps min_samples min_percentage :
  (0 < eps)%Q -> 1 <= min_samples -> pixels <> [] ->
  let total := Z.of_nat (length pixels) in
  exists out,
    Float64.run_dbscan pixels eps min_samples = inr out
    /\ shown_cards (Float64.page pixels eps min_samples min_percentage)
       = Float64.card_of total <$> kept64 out total min_percentage
    /\ (forall s, s ∈ out ->
          (s ∈ kept64 out total min_percentage
           <-> (min_percentage <= card_pct (Float64.card_of total s))%Q))
    /\ (forall s, s ∈ out -> total <= 2 ^ 53 ->
          (Qabs (card_pct (Float64.card_of total s)
                 - 100 * inject_Z (s_count s) / inject_Z total)
           <= 100 * inject_Z (s_count s) / inject_Z total
              * Binary64.pow2 (-51))%Q)
    /\ sublist (kept64 out total min_percentage) out
    /\ StronglySorted count_ge (kept64 out total min_percentage).
Proof.
  intros Heps Hms Hne total.
  destruct (page64_ranked pixels eps min_samples min_percentage Heps Hms Hne)
    as [Hrun Hshown].
  eexists. split; [exact Hrun|].
  split; [|split; [|split; [|split]]].
  - rewrite Hshown. apply cards64_kept.
  - intros s Hs. unfold kept64.
    rewrite list_elem_of_In, filter_In, <- list_elem_of_In, Qle_bool_iff.
    simpl. tauto.
  - intros s Hs Htotal. apply ranked64_counts in Hs.
    cbn [card_pct Float64.card_of]. now apply percentage64_near.
  - apply filter_sublist.
  - apply filter_strongly_sorted, sorted_by_count_desc_sorted.
Qed.

Lemma percentage_filter_witness :
  exists out,
    Float64.run_dbscan sample_pixels (1 # 10) 2 = inr out
    /\ shown_cards (Float64.page sample_pixels (1 # 10) 2 (1 # 2))
       = Float64.card_of 5 <$> kept64 out 5 (1 # 2)
    /\ (forall s, s ∈ out ->
          (s ∈ kept64 out 5 (1 # 2)
           <-> ((1 # 2) <= card_pct (Float64.card_of 5 s))%Q))
    /\ (forall s, s ∈ out -> 5 <= 2 ^ 53 ->
          (Qabs (card_pct (Float64.card_of 5 s)
                 - 100 * inject_Z (s_count s) / inject_Z 5)
           <= 100 * inject_Z (s_count s) / inject_Z 5
              * Binary64.pow2 (-51))%Q)
    /\ sublist (kept64 out 5 (1 # 2)) out
    /\ StronglySorted count_ge (kept64 out 5 (1 # 2)).
Proof.
  apply (percentage_filter sample_pixels (1 # 10) 2 (1 # 2));
    [reflexivity|lia|discriminate].
Defined.

(** C5. For valid parameters [run_dbscan] returns, the counts of its
    summaries add up to at most the number of pixels, and to exactly that
    number iff the labelling has no noise point. *)
Theorem count_conservation pixels eps min_samples :
  (0 < eps)%Q -> 1 <= min_samples ->
  exists out,
    run_dbscan pixels eps min_samples = inr out
    /\ total_count out <= Z.of_nat (length pixels)
    /\ (total_count out = Z.of_nat (length pixels)
        <-> noise ∉ Clusterer.cluster pixels eps min_samples).
Proof.
  intros Heps Hms. eexists. split; [now apply run_dbscan_valid|].
  rewrite <- (total_count_perm _ _ (sorted_by_count_desc_perm _)).
  pose proof (total_count_aggregate pixels
                (Clusterer.cluster pixels eps min_samples)) as Hsum.
  rewrite cluster_length in Hsum.
  pose proof (occurrences_nonneg noise
                (Clusterer.cluster pixels eps min_samples)) as Hnn.
  split; [lia|].
  rewrite <- occurrences_zero. lia.
Qed.

Lemma count_conservation_witness :
  exists out,
    run_dbscan sample_pixels (1 # 10) 2 = inr out
    /\ total_count out <= Z.of_nat (length sample_pixels)
    /\ (total_count out = Z.of_nat (length sample_pixels)
        <-> noise ∉ Clusterer.cluster sample_pixels (1 # 10) 2).
Proof.
  apply (count_conservation sample_pixels (1 # 10) 2); [reflexivity|lia].
Defined.

(** C6, as stated, fails.  Nine pixels of the byte 9 form one cluster.  The
    sum of their channel values divided by nine is that value again, but the
    centroid [run_dbscan] returns is below it: the nine values are added one
    after the other, each sum rounded, and the card shows 8, 8, 8. *)
Lemma centroid_is_rounded :
  let pixels := Float64.pixels_of nine_grey in
  let grey := Float64.div (Float64.of_int 9) 255 in
  let labels := Clusterer.cluster pixels (1 # 10) 2 in
  pixels = replicate 9 (grey, grey, grey)
  /\ labels = replicate 9 0
  /\ (chan_sum chan_r (members pixels labels 0)
      / inject_Z (occurrences 0 labels) == grey)%Q
  /\ exists c,
       Float64.run_dbscan pixels (1 # 10) 2 = inr [(9, (c, c, c))]
       /\ (c < grey)%Q
       /\ Float64.rgb_of (c, c, c) = (8, 8, 8).
Proof.
  intros pixels grey labels.
  split; [vm_compute; reflexivity|].
  split; [vm_compute; reflexivity|].
  split; [vm_compute; reflexivity|].
  eexists. split; [vm_compute; reflexivity|].
  split; vm_compute; reflexivity.
Qed.

(** C6, amended.  Aggregating the labels of a clustering gives one summary
    for each distinct label other than noise, none for noise.  The summary
    of a label is the one of the accumulator the pass of the specification
    ends with for that label: the number of points with the label and, per
    channel, their values added in input order, each sum rounded, divided by
    that number, the quotient rounded.  The result of [run_dbscan] is a
    rearrangement of these summaries. *)
Theorem aggregate_one_summary_per_label pixels eps min_samples :
  let labels := Clusterer.cluster pixels eps min_samples in
  let table := group_by_label pixels labels in
  NoDup (unique_labels labels)
  /\ (forall k, k ∈ unique_labels labels <-> k ∈ labels /\ k <> noise)
  /\ (forall k, is_Some (table !! k) <-> k ∈ unique_labels labels)
  /\ Forall2
       (fun k s =>
          exists a,
            table !! k = Some a /\ s = summary_of a
            /\ acc_count a = occurrences k labels)
       (unique_labels labels) (Float64.aggregate pixels labels)
  /\ (forall k, k ∈ unique_labels labels ->
        1 <= occurrences k labels
        /\ occurrences k labels
           = Z.of_nat (length (members pixels labels k)))
  /\ (forall out, Float64.run_dbscan pixels eps min_samples = inr out ->
        Permutation (Float64.aggregate pixels labels) out).
Proof.
  intros labels table.
  assert (Hlen : length pixels = length labels)
    by (symmetry; apply cluster_length).
  assert (Hlook : forall k,
            table !! k
            = if k =? noise then None else entry_of (members pixels labels k))
    by (intros k; now apply group_by_label_lookup).
  split; [apply unique_labels_NoDup|].
  split; [apply unique_labels_elem|].
  split; [|split; [|split]].
  - intros k. rewrite Hlook, unique_labels_elem.
    destruct (Z.eqb_spec k noise) as [->|Nk].
    + split; [intros [a Ha]; discriminate|tauto].
    + split.
      * intros [a Ha]. split; [|exact Nk].
        destruct (members pixels labels k) as [|q rows] eqn:Hrows;
          [discriminate|].
        assert (Hq : q ∈ members pixels labels k)
          by (rewrite Hrows; apply list_elem_of_here).
        unfold members in Hq.
        apply list_elem_of_fmap in Hq as ([q' l] & _ & Hq).
        apply list_elem_of_In, filter_In in Hq as [Hq Hl].
        simpl in Hl. apply Z.eqb_eq in Hl. subst l.
        apply list_elem_of_In in Hq.
        apply list_elem_of_lookup in Hq as [i Hi].
        apply lookup_zip_with_Some in Hi as (x & y & E & _ & Hy).
        injection E as -> ->. eapply list_elem_of_lookup_2, Hy.
      * intros [Hk _].
        destruct (entry_of_members pixels labels k Hlen Hk) as (a & -> & _).
        now exists a.
  - unfold Float64.aggregate. apply Forall2_fmap_r, Forall_Forall2_diag.
    apply Forall_forall. intros k Hk.
    apply unique_labels_elem in Hk as [Hk Nk].
    destruct (entry_of_members pixels labels k Hlen Hk) as (a & Ha & Hc & Hs).
    exists a. rewrite Hlook.
    destruct (Z.eqb_spec k noise) as [E|_]; [contradiction|].
    auto.
  - intros k Hk. apply unique_labels_elem in Hk as [Hk _].
    split; [now apply occurrences_pos|].
    symmetry. now apply members_length.
  - intros out Hout. unfold Float64.run_dbscan in Hout.
    destruct (Float64.DBSCAN_fit eps min_samples pixels) as [e|labels']
      eqn:Hfit; [discriminate|].
    injection Hout as <-.
    unfold Float64.DBSCAN_fit, Clusterer.DBSCAN_fit in Hfit.
    destruct (Qle_bool eps 0 || (min_samples <? 1)); [discriminate|].
    simpl in Hfit. destruct pixels; [discriminate|].
    injection Hfit as <-. apply sorted_by_count_desc_perm.
Qed.



(** C8. With [eps <= 0] or [min_samples < 1] the call fails with a
    configuration error whatever the pixels are, and the page shows it as
    an error. *)
Theorem invalid_parameters_rejected pixels eps min_samples min_percentage :
  (eps <= 0)%Q \/ min_samples < 1 ->
  Clusterer.DBSCAN_fit eps min_samples pixels = inl ConfigurationError
  /\ run_dbscan pixels eps min_samples = inl ConfigurationError
  /\ page pixels eps min_samples min_percentage = ErrorBox ConfigurationError.
Proof.
  intros Hbad.
  assert (Hfit := DBSCAN_fit_invalid eps min_samples pixels Hbad).
  assert (Hrun : run_dbscan pixels eps min_samples = inl ConfigurationError).
  { unfold run_dbscan. now rewrite Hfit. }
  repeat split; try assumption.
  unfold page. now rewrite Hrun.
Qed.

Lemma invalid_parameters_rejected_witness :
  Clusterer.DBSCAN_fit 0 60 sample_pixels = inl ConfigurationError
  /\ run_dbscan sample_pixels 0 60 = inl ConfigurationError
  /\ page sample_pixels 0 60 (1 # 2) = ErrorBox ConfigurationError.
Proof.
  apply (invalid_parameters_rejected sample_pixels 0 60 (1 # 2)).
  left. vm_compute. discriminate.
Defined.

(** C9, as stated, fails: with the starting values of the sliders the call
    on an array of no rows raises a [ValueError], [run_dbscan] ends with it
    and the page shows it as an error. *)
Lemma empty_array_refused :
  Float64.DBSCAN_fit (8 # 100) 60 [] = inl ValueError
  /\ Float64.run_dbscan [] (8 # 100) 60 = inl ValueError
  /\ Float64.page [] (8 # 100) 60 (1 # 2) = ErrorBox ValueError.
Proof. repeat split. Qed.

(** C9, amended.  On no points at all, with valid parameters, the
    clustering call raises a [ValueError], nothing is returned and the page
    shows the error.  On an array that is not empty the call returns one
    label per point, and [run_dbscan] returns the empty list, the page
    reporting that no cluster was found, exactly when every label is
    noise. *)
Theorem empty_point_set eps min_samples :
  (0 < eps)%Q -> 1 <= min_samples ->
  Float64.DBSCAN_fit eps min_samples [] = inl ValueError
  /\ Float64.run_dbscan [] eps min_samples = inl ValueError
  /\ (forall min_percentage,
        Float64.page [] eps min_samples min_percentage = ErrorBox ValueError)
  /\ (forall pixels, pixels <> [] ->
        exists labels,
          Float64.DBSCAN_fit eps min_samples pixels = inr labels
          /\ length labels = length pixels
          /\ (Float64.run_dbscan pixels eps min_samples = inr []
              <-> Forall (fun l => l = noise) labels)
          /\ forall min_percentage,
               Float64.page pixels eps min_samples min_percentage
               = NoClusters
               <-> Forall (fun l => l = noise) labels).
Proof.
  intros Heps Hms.
  assert (Hfit := fit64_empty eps min_samples Heps Hms).
  assert (Hrun : Float64.run_dbscan [] eps min_samples = inl ValueError).
  { unfold Float64.run_dbscan. now rewrite Hfit. }
  split; [exact Hfit|]. split; [exact Hrun|].
  split; [intros m; unfold Float64.page; now rewrite Hrun|].
  intros pixels Hne. eexists.
  split; [now apply fit64_valid|]. split; [apply cluster_length|].
  assert (Hrun' := run64_valid pixels eps min_samples Heps Hms Hne).
  split.
  - rewrite Hrun', <- (aggregate64_nil pixels), <- sorted_nil.
    split; [now intros [= ->]|now intros ->].
  - intros m. rewrite <- (aggregate64_nil pixels), <- sorted_nil.
    unfold Float64.page. rewrite Hrun'.
    destruct (sorted_by_count_desc _) as [|s out]; [split; reflexivity|].
    destruct (Float64.cards (s :: out) _ _); split; discriminate.
Qed.

Lemma empty_point_set_witness :
  Float64.DBSCAN_fit (8 # 100) 60 [] = inl ValueError
  /\ Float64.run_dbscan [] (8 # 100) 60 = inl ValueError
  /\ (forall min_percentage,
        Float64.page [] (8 # 100) 60 min_percentage = ErrorBox ValueError)
  /\ (forall pixels, pixels <> [] ->
        exists labels,
          Float64.DBSCAN_fit (8 # 100) 60 pixels = inr labels
          /\ length labels = length pixels
          /\ (Float64.run_dbscan pixels (8 # 100) 60 = inr []
              <-> Forall (fun l => l = noise) labels)
          /\ forall min_percentage,
               Float64.page pixels (8 # 100) 60 min_percentage
               = NoClusters
               <-> Forall (fun l => l = noise) labels).
Proof.
  apply (empty_point_set (8 # 100) 60); [reflexivity|lia].
Defined.

(** C10, as stated, fails: the float64 nearest to [1 / 255] is a channel in
    [0, 1] whose product with 255 is below 1, with integer part 0; the
    formatter multiplies in float64, gets 1, and yields 1, 1, 1 and
    [#010101]. *)
Lemma product_is_rounded :
  let c := Binary64.fl (1 # 255) in
  is_float64 c
  /\ (0 <= c <= 1)%Q
  /\ (c * 255 < 1)%Q
  /\ py_int (c * 255) = 0
  /\ Float64.rgb_of (c, c, c) = (1, 1, 1)
  /\ hex_of (Float64.rgb_of (c, c, c)) = "#010101"%string.
Proof.
  intros c.
  split; [vm_compute; reflexivity|].
  split; [split; vm_compute; discriminate|].
  split; [vm_compute; reflexivity|].
  split; [vm_compute; reflexivity|].
  split; vm_compute; reflexivity.
Qed.

(** C10, amended.  For a colour with every channel in [0, 1], each of [r],
    [g], [b] is the integer part of the rounded product of the channel and
    255: it lies in [0, 255] and is the integer part of the exact product or
    one more; the hex code is [#] followed by two lowercase hexadecimal
    digits for each of them, seven characters, whatever the colour. *)
Theorem color_format color :
  in_unit color ->
  let '(r, g, b) := Float64.rgb_of color in
  (0 <= r <= 255 /\ 0 <= g <= 255 /\ 0 <= b <= 255)
  /\ (inject_Z r <= Float64.mul (chan_r color) 255 < inject_Z r + 1)%Q
  /\ (inject_Z g <= Float64.mul (chan_g color) 255 < inject_Z g + 1)%Q
  /\ (inject_Z b <= Float64.mul (chan_b color) 255 < inject_Z b + 1)%Q
  /\ py_int (chan_r color * 255) <= r <= py_int (chan_r color * 255) + 1
  /\ py_int (chan_g color * 255) <= g <= py_int (chan_g color * 255) + 1
  /\ py_int (chan_b color * 255) <= b <= py_int (chan_b color * 255) + 1
  /\ hex_of (r, g, b) = String "#" (two_hex r ++ two_hex g ++ two_hex b)
  /\ String.length (hex_of (r, g, b)) = 7%nat.
Proof.
  intros Hunit. pose proof (unit_colour_card64 color Hunit) as [_ Hhex].
  destruct Hunit as (Hr & Hg & Hb). unfold Float64.rgb_of in *.
  pose proof (mul_255_bounds _ Hr) as (Hr1 & Hr2 & Hr3).
  pose proof (mul_255_bounds _ Hg) as (Hg1 & Hg2 & Hg3).
  pose proof (mul_255_bounds _ Hb) as (Hb1 & Hb2 & Hb3).
  cbv zeta in *. cbn [fst snd] in Hhex.
  split; [auto|]. split; [exact Hr2|]. split; [exact Hg2|].
  split; [exact Hb2|]. split; [exact Hr3|]. split; [exact Hg3|].
  split; [exact Hb3|]. split; [exact Hhex|].
  rewrite Hhex. apply code_length.
Qed.

Lemma color_format_witness :
  let '(r, g, b) := Float64.rgb_of ((1 # 2)%Q, (1 # 1)%Q, (1 # 255)%Q) in
  (0 <= r <= 255 /\ 0 <= g <= 255 /\ 0 <= b <= 255)
  /\ (inject_Z r <= Float64.mul (1 # 2) 255 < inject_Z r + 1)%Q
  /\ (inject_Z g <= Float64.mul (1 # 1) 255 < inject_Z g + 1)%Q
  /\ (inject_Z b <= Float64.mul (1 # 255) 255 < inject_Z b + 1)%Q
  /\ py_int ((1 # 2) * 255) <= r <= py_int ((1 # 2) * 255) + 1
  /\ py_int ((1 # 1) * 255) <= g <= py_int ((1 # 1) * 255) + 1
  /\ py_int ((1 # 255) * 255) <= b <= py_int ((1 # 255) * 255) + 1
  /\ hex_of (r, g, b) = String "#" (two_hex r ++ two_hex g ++ two_hex b)
  /\ String.length (hex_of (r, g, b)) = 7%nat.
Proof.
  apply (color_format ((1 # 2)%Q, (1 # 1)%Q, (1 # 255)%Q)).
  repeat split; vm_compute; discriminate.
Defined.

Example half_red_full_green :
  rgb_of ((1 # 2)%Q, (1 # 1)%Q, (1 # 10)%Q) = (127, 255, 25)
  /\ hex_of (127, 255, 25) = "#7fff19"%string.
Proof. split; vm_compute; reflexivity. Qed.

(** * Further properties of [run_dbscan] and of the page *)













(** X9. Ranking a list that is already in descending order of count returns it
    as it is; so ranking twice is ranking once. *)
Theorem ranking_idempotent results :
  (StronglySorted count_ge results -> sorted_by_count_desc results = results)
  /\ sorted_by_count_desc (sorted_by_count_desc results)
     = sorted_by_count_desc results.
Proof.
  split; [apply sorted_fixed|].
  apply sorted_fixed, sorted_by_count_desc_sorted.
Qed.

(** X10. Raising the threshold never brings a card back: the cards for the
    higher threshold are among the cards for the lower one, in the same
    order. *)
Theorem threshold_monotone color_counts total_pixels m1 m2 :
  (m1 <= m2)%Q ->
  sublist (cards color_counts total_pixels m2)
    (cards color_counts total_pixels m1)
  /\ (length (cards color_counts total_pixels m2)
      <= length (cards color_counts total_pixels m1))%nat.
Proof.
  intros Hm.
  assert (Hsub : sublist (cards color_counts total_pixels m2)
                   (cards color_counts total_pixels m1)).
  { induction color_counts as [|s rest IH]; simpl; [constructor|].
    destruct (below (percentage (s_count s) total_pixels) m1) eqn:H1.
    - rewrite (below_mono _ _ _ Hm H1). exact IH.
    - destruct (below (percentage (s_count s) total_pixels) m2).
      + now apply sublist_cons.
      + now apply sublist_skip. }
  split; [exact Hsub|now apply sublist_length].
Qed.

Lemma threshold_monotone_witness :
  sublist (cards two_entries 10 20)
    (cards two_entries 10 5)
  /\ (length (cards two_entries 10 20)
      <= length (cards two_entries 10 5))%nat.
Proof.
  apply (threshold_monotone two_entries 10 5 20).
  vm_compute. discriminate.
Defined.

(** X11. On an array of at most [2^53] pixels the number of cards times the
    threshold is at most 100, up to the rounding of the percentages: at most
    [100 * (1 + 2^-51)]. *)
Theorem shown_cards_bounded pixels eps min_samples min_percentage :
  (0 < eps)%Q -> 1 <= min_samples -> pixels <> [] ->
  Z.of_nat (length pixels) <= 2 ^ 53 ->
  (inject_Z
     (Z.of_nat
        (length
           (shown_cards
              (Float64.page pixels eps min_samples min_percentage))))
   * min_percentage <= 100 * (1 + Binary64.pow2 (-51)))%Q.
Proof. apply shown_cards_limit64. Qed.

Lemma shown_cards_bounded_witness :
  (inject_Z
     (Z.of_nat
        (length (shown_cards (Float64.page sample_pixels (1 # 10) 2 30))))
   * 30 <= 100 * (1 + Binary64.pow2 (-51)))%Q.
Proof.
  apply (shown_cards_bounded sample_pixels (1 # 10) 2 30);
    [reflexivity|lia|discriminate|vm_compute; discriminate].
Defined.





(** X14. What the page shows is decided by the largest cluster, with the
    percentage as the page computes it: nothing found when there is none,
    the warning when its percentage is below the threshold, and otherwise
    cards, its own first. *)
Theorem page_outcome_by_largest pixels eps min_samples min_percentage :
  (0 < eps)%Q -> 1 <= min_samples -> pixels <> [] ->
  let total := Z.of_nat (length pixels) in
  exists out,
    Float64.run_dbscan pixels eps min_samples = inr out
    /\ match out with
       | [] => Float64.page pixels eps min_samples min_percentage = NoClusters
       | s :: _ =>
           if below (Float64.percentage (s_count s) total) min_percentage
           then Float64.page pixels eps min_samples min_percentage
                = HiddenWarning (length out)
           else exists rest,
                  Float64.page pixels eps min_samples min_percentage
                  = Palette (length out) (Float64.card_of total s :: rest)
       end.
Proof.
  intros Heps Hms Hne total. eexists.
  assert (Hrun := run64_valid pixels eps min_samples Heps Hms Hne).
  split; [exact Hrun|].
  unfold Float64.page. rewrite Hrun. fold total.
  pose proof (sorted_by_count_desc_sorted
                (Float64.aggregate pixels
                   (Clusterer.cluster pixels eps min_samples))) as Hsorted.
  pose proof (ranked64_counts pixels eps min_samples) as Hcounts.
  fold total in Hcounts.
  destruct (sorted_by_count_desc _) as [|s out]; [reflexivity|].
  assert (Htotal : 1 <= total).
  { specialize (Hcounts s (list_elem_of_here _ _)). lia. }
  rewrite cards64_kept.
  destruct (below (Float64.percentage (s_count s) total) min_percentage)
    eqn:Hb.
  - rewrite (kept64_head_below s out total min_percentage Htotal Hsorted);
      [reflexivity| |exact Hb].
    apply Forall_forall. intros x Hx.
    specialize (Hcounts x (list_elem_of_further _ _ _ Hx)). lia.
  - unfold below in Hb. apply negb_false_iff in Hb.
    unfold kept64. simpl List.filter. rewrite Hb. csimpl. eauto.
Qed.

Lemma page_outcome_by_largest_witness :
  exists out,
    Float64.run_dbscan sample_pixels (1 # 10) 2 = inr out
    /\ match out with
       | [] => Float64.page sample_pixels (1 # 10) 2 50 = NoClusters
       | s :: _ =>
           if below (Float64.percentage (s_count s) 5) 50
           then Float64.page sample_pixels (1 # 10) 2 50
                = HiddenWarning (length out)
           else exists rest,
                  Float64.page sample_pixels (1 # 10) 2 50
                  = Palette (length out) (Float64.card_of 5 s :: rest)
       end.
Proof.
  apply (page_outcome_by_largest sample_pixels (1 # 10) 2 50);
    [reflexivity|lia|discriminate].
Defined.

(** X15. The loop deals the rendered cards to the columns in turn:
    [valid_count] ends as their number, and the card at position [j] of the
    rendered sequence lies in column [j mod cols_per_row], [j / cols_per_row]
    cards from the top.  Hidden entries take no place in the grid. *)
Theorem grid_placement color_counts total_pixels min_percentage cols_per_row :
  (0 < cols_per_row)%nat ->
  let shown := cards color_counts total_pixels min_percentage in
  let out := render_grid color_counts total_pixels min_percentage cols_per_row in
  fst out = length shown
  /\ length (snd out) = cols_per_row
  /\ forall j,
       snd out !! (j mod cols_per_row)%nat
         ≫= (fun column => column !! (j / cols_per_row)%nat)
       = shown !! j.
Proof.
  intros Hcols shown out.
  destruct (render_grid_dealt cols_per_row Hcols color_counts total_pixels
              min_percentage) as (Hv & Hlen & _ & Hlook).
  split; [exact Hv|]. split; [exact Hlen|exact Hlook].
Qed.

Lemma grid_placement_witness :
  let shown := cards two_entries 10 5 in
  let out := render_grid two_entries 10 5 3 in
  fst out = length shown
  /\ length (snd out) = 3%nat
  /\ forall j,
       snd out !! (j mod 3)%nat ≫= (fun column => column !! (j / 3)%nat)
       = shown !! j.
Proof.
  apply (grid_placement two_entries 10 5 3). lia.
Defined.

(** X16. The columns are filled evenly: with [v] cards rendered, column [c]
    holds [v / cols_per_row] cards and one more if [c < v mod cols_per_row];
    so a column is never longer than one to its left, and the first column
    has at most one card more than the last. *)
Theorem grid_balanced color_counts total_pixels min_percentage cols_per_row :
  (0 < cols_per_row)%nat ->
  let v := length (cards color_counts total_pixels min_percentage) in
  let grid :=
    snd (render_grid color_counts total_pixels min_percentage cols_per_row) in
  (forall c column,
     grid !! c = Some column ->
     length column
     = (v / cols_per_row + (if c <? v mod cols_per_row then 1 else 0))%nat)
  /\ (forall c1 c2 column1 column2,
        (c1 <= c2)%nat ->
        grid !! c1 = Some column1 -> grid !! c2 = Some column2 ->
        (length column2 <= length column1 <= S (length column2))%nat).
Proof.
  intros Hcols v grid.
  destruct (render_grid_dealt cols_per_row Hcols color_counts total_pixels
              min_percentage) as (_ & _ & Hcolumns & _).
  fold grid v in Hcolumns.
  split; [exact Hcolumns|].
  intros c1 c2 column1 column2 Hle H1 H2.
  rewrite (Hcolumns _ _ H1), (Hcolumns _ _ H2).
  destruct (Nat.ltb_spec c1 (v mod cols_per_row)),
           (Nat.ltb_spec c2 (v mod cols_per_row)); lia.
Qed.

Lemma grid_balanced_witness :
  let v := length (cards two_entries 10 5) in
  let grid := snd (render_grid two_entries 10 5 3) in
  (forall c column,
     grid !! c = Some column ->
     length column = (v / 3 + (if c <? v mod 3 then 1 else 0))%nat)
  /\ (forall c1 c2 column1 column2,
        (c1 <= c2)%nat ->
        grid !! c1 = Some column1 -> grid !! c2 = Some column2 ->
        (length column2 <= length column1 <= S (length column2))%nat).
Proof.
  apply (grid_balanced two_entries 10 5 3). lia.
Defined.

(** X17. Different byte triples get different codes, in lowercase as in the
    style and in uppercase as printed on the card. *)
Theorem hex_code_identifies_colour px1 px2 :
  byte_pixel px1 -> byte_pixel px2 ->
  (hex_of px1 = hex_of px2 -> px1 = px2)
  /\ (str_upper (hex_of px1) = str_upper (hex_of px2) -> px1 = px2).
Proof.
  intros H1 H2.
  rewrite (title_of_bytes px1 H1), (title_of_bytes px2 H2).
  rewrite (hex_of_bytes px1 H1), (hex_of_bytes px2 H2).
  destruct px1 as [[r1 g1] b1], px2 as [[r2 g2] b2].
  destruct H1 as (Hr1 & Hg1 & Hb1), H2 as (Hr2 & Hg2 & Hb2). simpl in *.
  destruct (byte_digits _ Hr1), (byte_digits _ Hg1), (byte_digits _ Hb1),
           (byte_digits _ Hr2), (byte_digits _ Hg2), (byte_digits _ Hb2).
  unfold two_hex, two_hex_upper. simpl.
  split; intros Heq; injection Heq as E1 E2 E3 E4 E5 E6.
  - apply hexdigit_inj in E1, E2, E3, E4, E5, E6; try assumption.
    rewrite (digits_byte r1 r2), (digits_byte g1 g2), (digits_byte b1 b2);
      auto.
  - apply hexdigit_upper_inj in E1, E2, E3, E4, E5, E6; try assumption.
    rewrite (digits_byte r1 r2), (digits_byte g1 g2), (digits_byte b1 b2);
      auto.
Qed.

Lemma hex_code_identifies_colour_witness :
  (hex_of (255, 127, 0) = hex_of (255, 127, 1) -> (255, 127, 0) = (255, 127, 1))
  /\ (str_upper (hex_of (255, 127, 0)) = str_upper (hex_of (255, 127, 1)) ->
      (255, 127, 0) = (255, 127, 1)).
Proof.
  apply (hex_code_identifies_colour (255, 127, 0) (255, 127, 1));
    unfold byte_pixel, is_byte; simpl; lia.
Defined.

(** X18. The code printed on a card is [#] and six uppercase hexadecimal digits,
    two for each byte. *)
Theorem card_title_uppercase px :
  byte_pixel px ->
  str_upper (hex_of px)
  = String "#" (two_hex_upper (fst (fst px)) ++ two_hex_upper (snd (fst px))
                ++ two_hex_upper (snd px))
  /\ String.length (str_upper (hex_of px)) = 7%nat.
Proof.
  intros Hpx. rewrite (title_of_bytes px Hpx). split; reflexivity.
Qed.

Lemma card_title_uppercase_witness :
  str_upper (hex_of (255, 127, 10))
  = String "#" (two_hex_upper 255 ++ two_hex_upper 127 ++ two_hex_upper 10)
  /\ String.length (str_upper (hex_of (255, 127, 10))) = 7%nat.
Proof.
  apply (card_title_uppercase (255, 127, 10)).
  unfold byte_pixel, is_byte; simpl; lia.
Defined.



(** ** The same properties of the float64 steps *)

(** X20. The pixel array of an image of bytes, with the division rounded:
    every channel is a float64 in [0, 1]. *)
Theorem pixels_of_float64 a :
  byte_image a ->
  Forall (fun p => in_unit p /\ float64_point p) (Float64.pixels_of a).
Proof. apply byte_image_spec64. Qed.

Lemma pixels_of_float64_witness :
  Forall (fun p => in_unit p /\ float64_point p)
    (Float64.pixels_of [[(255, 0, 1); (2, 3, 4)]; [(5, 6, 7); (8, 9, 10)]]).
Proof.
  apply (pixels_of_float64 [[(255, 0, 1); (2, 3, 4)]; [(5, 6, 7); (8, 9, 10)]]).
  repeat constructor; unfold is_byte; simpl; lia.
Defined.

(** X21. A byte divided by 255 and multiplied by 255 again, both rounded,
    has the byte as its integer part: the formatter gives back the pixel. *)
Theorem round_trip_float64 px :
  byte_pixel px -> Float64.rgb_of (Float64.div_255 px) = px.
Proof. intros Hpx. now apply div_255_64_spec. Qed.

Lemma round_trip_float64_witness :
  Float64.rgb_of (Float64.div_255 (255, 127, 1)) = (255, 127, 1).
Proof.
  apply (round_trip_float64 (255, 127, 1)).
  unfold byte_pixel, is_byte; simpl; lia.
Defined.

(** X22. The centroids [run_dbscan] computes in float64 from channels in
    [0, 1] are float64 values with every channel in [0, 1]: no sum of [k]
    such values exceeds [k], rounded or not. *)
Theorem centroid_in_unit_float64 pixels eps min_samples :
  (0 < eps)%Q -> 1 <= min_samples -> pixels <> [] ->
  Forall in_unit pixels ->
  exists out,
    Float64.run_dbscan pixels eps min_samples = inr out
    /\ Forall (fun s => in_unit (s_color s) /\ float64_point (s_color s)) out.
Proof.
  intros Heps Hms Hne Hpx. eexists.
  assert (Hrun := run64_valid pixels eps min_samples Heps Hms Hne).
  split; [exact Hrun|].
  apply Forall_forall. intros s Hs. split.
  - now apply (run64_in_unit pixels eps min_samples _ s Hpx Hrun).
  - now apply (run64_float64 pixels eps min_samples _ s Hpx Hrun).
Qed.

Lemma centroid_in_unit_float64_witness :
  exists out,
    Float64.run_dbscan (Float64.pixels_of nine_grey) (1 # 10) 2 = inr out
    /\ Forall (fun s => in_unit (s_color s) /\ float64_point (s_color s)) out.
Proof.
  apply (centroid_in_unit_float64 (Float64.pixels_of nine_grey) (1 # 10) 2);
    [reflexivity|lia|discriminate|].
  repeat constructor; vm_compute; discriminate.
Defined.

(** X23. With the float64 arithmetic too, every card the page shows for an
    image of bytes has its three numbers in 0..255 and as code [#] and two
    lowercase hexadecimal digits for each of them. *)
Theorem image_cards_well_formed_float64 a eps min_samples min_percentage c :
  byte_image a ->
  c ∈ shown_cards
        (Float64.page (Float64.pixels_of a) eps min_samples min_percentage) ->
  byte_pixel (card_rgb c)
  /\ card_hex c
     = String "#" (two_hex (fst (fst (card_rgb c)))
                   ++ two_hex (snd (fst (card_rgb c)))
                   ++ two_hex (snd (card_rgb c)))
  /\ String.length (card_hex c) = 7%nat.
Proof.
  intros Ha Hc. rewrite shown_cards_page64 in Hc.
  destruct (Float64.run_dbscan (Float64.pixels_of a) eps min_samples)
    as [e|out] eqn:Hrun; [now apply elem_of_nil in Hc|].
  rewrite cards64_kept in Hc.
  apply list_elem_of_fmap in Hc as (s & -> & Hs).
  apply list_elem_of_In, filter_In in Hs as [Hs _].
  apply list_elem_of_In in Hs.
  assert (Hunit : in_unit (s_color s)).
  { eapply run64_in_unit; [|exact Hrun|exact Hs].
    eapply Forall_impl; [apply byte_image_spec64, Ha|]. simpl. tauto. }
  destruct (unit_colour_card64 _ Hunit) as [Hb Hhex].
  unfold Float64.card_of. cbn [card_rgb card_hex].
  split; [exact Hb|]. split; [exact Hhex|].
  rewrite Hhex. apply code_length.
Qed.

Lemma image_cards_well_formed_float64_witness :
  byte_pixel (255, 255, 255)
  /\ "#ffffff"%string
     = String "#" (two_hex 255 ++ two_hex 255 ++ two_hex 255)
  /\ String.length "#ffffff" = 7%nat.
Proof.
  apply (image_cards_well_formed_float64 two_tone (1 # 10) 2 (1 # 2)
           {| card_hex := "#ffffff";
              card_rgb := (255, 255, 255);
              card_pct := 50%Q |}).
  - repeat constructor; unfold is_byte; simpl; lia.
  - vm_compute. apply list_elem_of_further, list_elem_of_here.
Defined.

(** X24. With the float64 arithmetic too, an image whose pixels are all
    grey gives grey cards only: the three channels go through the same
    sums, the same division and the same product. *)
Theorem grey_image_grey_cards_float64 a eps min_samples min_percentage c :
  Forall (Forall grey_bytes) a ->
  c ∈ shown_cards
        (Float64.page (Float64.pixels_of a) eps min_samples min_percentage) ->
  grey_bytes (card_rgb c).
Proof.
  intros Ha Hc. rewrite shown_cards_page64 in Hc.
  destruct (Float64.run_dbscan (Float64.pixels_of a) eps min_samples)
    as [e|out] eqn:Hrun; [now apply elem_of_nil in Hc|].
  rewrite cards64_kept in Hc.
  apply list_elem_of_fmap in Hc as (s & -> & Hs).
  apply list_elem_of_In, filter_In in Hs as [Hs _].
  apply list_elem_of_In in Hs.
  destruct (run64_mean _ _ _ _ _ Hrun Hs) as (rows & Hne & Hsub & Hcol).
  assert (Hgrey : Forall grey64 rows).
  { apply Forall_forall. intros p Hp. apply Hsub in Hp.
    unfold Float64.pixels_of in Hp.
    apply list_elem_of_fmap in Hp as (px & -> & Hpx).
    apply reshape_3_elem in Hpx as (row & Hrow & Hpx).
    rewrite Forall_forall in Ha. specialize (Ha row Hrow).
    rewrite Forall_forall in Ha. destruct (Ha px Hpx) as [E1 E2].
    destruct px as [[r g] b]. simpl in E1, E2. subst g b.
    apply div_255_grey. }
  destruct (mean64_grey rows Hgrey) as [E1 E2].
  unfold Float64.card_of, Float64.rgb_of, grey_bytes.
  cbn [card_rgb fst snd]. rewrite Hcol, E1, E2. split; reflexivity.
Qed.

Lemma grey_image_grey_cards_float64_witness :
  grey_bytes (8, 8, 8).
Proof.
  apply (grey_image_grey_cards_float64 nine_grey (1 # 10) 2 (1 # 2)
           {| card_hex := "#080808";
              card_rgb := (8, 8, 8);
              card_pct := 100%Q |}).
  - repeat constructor.
  - vm_compute. apply list_elem_of_here.
Defined.

(** X25. On an array of at most [2^53] pixels every entry has, as the page
    computes it, a percentage above 0 and at most 100. *)
Theorem entry_shares_bounded_float64 pixels eps min_samples :
  (0 < eps)%Q -> 1 <= min_samples -> pixels <> [] ->
  Z.of_nat (length pixels) <= 2 ^ 53 ->
  exists out,
    Float64.run_dbscan pixels eps min_samples = inr out
    /\ Forall
         (fun s =>
            1 <= s_count s <= Z.of_nat (length pixels)
            /\ (0 < Float64.percentage (s_count s)
                      (Z.of_nat (length pixels)) <= 100)%Q)
         out.
Proof.
  intros Heps Hms Hne Hlen. eexists.
  split; [now apply run64_valid|].
  apply Forall_forall. intros s Hs.
  apply ranked64_counts in Hs. split; [exact Hs|].
  now apply percentage64_bounds.
Qed.

Lemma entry_shares_bounded_float64_witness :
  exists out,
    Float64.run_dbscan sample_pixels (1 # 10) 2 = inr out
    /\ Forall
         (fun s =>
            1 <= s_count s <= Z.of_nat (length sample_pixels)
            /\ (0 < Float64.percentage (s_count s)
                      (Z.of_nat (length sample_pixels)) <= 100)%Q)
         out.
Proof.
  apply (entry_shares_bounded_float64 sample_pixels (1 # 10) 2);
    [reflexivity|lia|discriminate|vm_compute; discriminate].
Defined.

(** X26. The rounded percentage grows with the count, so the filter of the
    page cuts a tail of the ranking: the cards are those of its first
    entries. *)
Theorem shown_cards_prefix_float64 pixels eps min_samples min_percentage :
  (0 < eps)%Q -> 1 <= min_samples -> pixels <> [] ->
  exists out,
    Float64.run_dbscan pixels eps min_samples = inr out
    /\ shown_cards (Float64.page pixels eps min_samples min_percentage)
       = Float64.card_of (Z.of_nat (length pixels))
           <$> take
                 (length
                    (shown_cards
                       (Float64.page pixels eps min_samples min_percentage)))
                 out.
Proof.
  intros Heps Hms Hne. eexists.
  destruct (page64_ranked pixels eps min_samples min_percentage Heps Hms Hne)
    as [Hrun Hshown].
  split; [exact Hrun|]. rewrite Hshown, cards64_kept, length_fmap.
  f_equal. apply kept64_prefix.
  - destruct pixels; [contradiction|simpl; lia].
  - apply sorted_by_count_desc_sorted.
  - apply Forall_forall. intros s Hs. apply ranked64_counts in Hs. lia.
Qed.

Lemma shown_cards_prefix_float64_witness :
  exists out,
    Float64.run_dbscan two_thirds (1 # 10) 2 = inr out
    /\ shown_cards (Float64.page two_thirds (1 # 10) 2 50)
       = Float64.card_of (Z.of_nat (length two_thirds))
           <$> take
                 (length (shown_cards (Float64.page two_thirds (1 # 10) 2 50)))
                 out.
Proof.
  apply (shown_cards_prefix_float64 two_thirds (1 # 10) 2 50);
    [reflexivity|lia|discriminate].
Defined.
